(** * ChordPro format engine ([server/services/chordpro.py])

    A shallow embedding of [ChordProService] and the properties of its five
    operations: [validate], [inject_metadata] (the spec's mergeMetadata),
    [extract_metadata], [parse_line] (tokenizeLine) and [clean_content]
    (normalize).

    Python strings are modelled as lists of characters.  A character is an
    [ascii], read as the code point of the same number (0..255), so that the
    whitespace class of [str.strip] and the delimiters the two regular
    expressions look at are all represented.

    The last part of the definitions covers the callers of these
    operations in the song service ([server/services/songs.py]):
    [create_song], [update_song] and [restore_version], on the columns
    they write. *)

From Stdlib Require Import Ascii String List Bool Arith ZArith Lia.
From Stdlib Require Import DecimalString DecimalNat DecimalZ.
Import ListNotations.

Open Scope string_scope.
Open Scope list_scope.

(** ** Python strings *)

Definition str := list ascii.

(** String literals are read as character lists. *)
Coercion list_ascii_of_string : string >-> list.

Definition NL : ascii := "010"%char.
Definition CR : ascii := "013"%char.

Fixpoint str_eqb (a b : str) : bool :=
  match a, b with
  | [], [] => true
  | x :: a', y :: b' => Ascii.eqb x y && str_eqb a' b'
  | _, _ => false
  end.

(** [x in [a, b, ...]] on strings. *)
Definition str_in (x : str) (l : list string) : bool :=
  existsb (fun s : string => str_eqb x s) l.

(** Truthiness of a string: [if s:]. *)
Definition nonempty (s : str) : bool :=
  match s with [] => false | _ :: _ => true end.

(** Truthiness of an [Optional[str]]: [None] and [''] are both falsy. *)
Definition truthy (o : option str) : bool :=
  match o with Some (_ :: _) => true | _ => false end.

(** [a or b] on strings. *)
Definition str_or (a b : str) : str := if nonempty a then a else b.

(** [s.split(sep)] for a one-character separator: always at least one
    piece, the pieces never contain the separator. *)
Fixpoint split (sep : ascii) (s : str) : list str :=
  match s with
  | [] => [[]]
  | c :: r =>
      if Ascii.eqb c sep then [] :: split sep r
      else match split sep r with
           | h :: t => (c :: h) :: t
           | [] => [[c]]
           end
  end.

(** [sep.join(l)]. *)
Fixpoint join (sep : str) (l : list str) : str :=
  match l with
  | [] => []
  | [x] => x
  | x :: rest => x ++ sep ++ join sep rest
  end.

(** [s.count(c)] for a one-character needle. *)
Definition count (c : ascii) (s : str) : nat :=
  length (filter (Ascii.eqb c) s).

(** [str.isspace] on one character, for the code points below 256:
    TAB, LF, VT, FF, CR, FS, GS, RS, US, SPACE, NEL and NBSP. *)
Definition isspace (c : ascii) : bool :=
  let n := nat_of_ascii c in
  (((9 <=? n) && (n <=? 13)) || ((28 <=? n) && (n <=? 32))
   || (n =? 133) || (n =? 160))%nat.

Fixpoint dropwhile (p : ascii -> bool) (s : str) : str :=
  match s with
  | [] => []
  | c :: r => if p c then dropwhile p r else s
  end.

Definition lstrip (s : str) : str := dropwhile isspace s.
Definition rstrip (s : str) : str := rev (dropwhile isspace (rev s)).
Definition strip (s : str) : str := rstrip (lstrip s).

(** [str(n)] for a natural number and for an integer. *)
Definition str_of_nat (n : nat) : str :=
  NilEmpty.string_of_uint (Nat.to_uint n).

Definition str_of_Z (z : Z) : str :=
  NilEmpty.string_of_int (Z.to_int z).

(** [line[i:j]]. *)
Definition slice (s : str) (i j : nat) : str := firstn (j - i) (skipn i s).

(** Longest prefix whose characters satisfy [p], and the rest. *)
Fixpoint span (p : ascii -> bool) (s : str) : str * str :=
  match s with
  | [] => ([], [])
  | c :: r =>
      if p c then let '(a, b) := span p r in (c :: a, b) else ([], s)
  end.

(** ** The two regular expressions

    Both expressions are a literal opener, greedy runs over negated
    character classes, and a literal closer.  A greedy run stops either at
    the end of the input or at a character outside its class; giving
    characters back leaves the matcher in front of a character of the class,
    where neither the closer nor the optional [:] can match.  So an attempt
    at a position has at most one way to succeed, the one with maximal runs,
    which the two functions below compute.  Each returns the captured groups
    and the input after the match. *)

(** [CHORD_REGEX] attempted at the head of [s]: an opening bracket, group 1
    a non-empty run without closing bracket, and a closing bracket. *)
Definition chord_at (s : str) : option (str * str) :=
  match s with
  | c :: r =>
      if Ascii.eqb c "[" then
        match span (fun x => negb (Ascii.eqb x "]")) r with
        | ((_ :: _) as body, d :: rest) =>
            if Ascii.eqb d "]" then Some (body, rest) else None
        | _ => None
        end
      else None
  | [] => None
  end.

(** [DIRECTIVE_REGEX] attempted at the head of [s]: an opening brace, group
    1 a non-empty run without colon or closing brace, optionally a colon
    followed by group 2, a possibly empty run without closing brace, and a
    closing brace.  Group 2 is reported as [''] when it does not take part,
    as [findall] does. *)
Definition directive_at (s : str) : option (str * str * str) :=
  match s with
  | c :: r =>
      if Ascii.eqb c "{" then
        match span (fun x => negb (Ascii.eqb x ":" || Ascii.eqb x "}")) r with
        | ((_ :: _) as name, d :: r1) =>
            if Ascii.eqb d "}" then Some (name, [], r1)
            else
              match span (fun x => negb (Ascii.eqb x "}")) r1 with
              | (value, e :: r2) =>
                  if Ascii.eqb e "}" then Some (name, value, r2) else None
              | _ => None
              end
        | _ => None
        end
      else None
  | [] => None
  end.

(** [CHORD_REGEX.finditer(s)]: the matches from left to right, each as
    (start, end, group 1); the scan resumes at the end of a match and one
    character further on where the attempt fails.  [fuel] bounds the number
    of attempts; [pos] is the offset of [s] in the line. *)
Fixpoint finditer_fuel (fuel pos : nat) (s : str) : list (nat * nat * str) :=
  match fuel with
  | 0 => []
  | S fuel' =>
      match s with
      | [] => []
      | _ :: r =>
          match chord_at s with
          | Some (body, rest) =>
              let e := pos + 2 + length body in
              (pos, e, body) :: finditer_fuel fuel' e rest
          | None => finditer_fuel fuel' (S pos) r
          end
      end
  end.

(** The matches of a text that starts at offset [pos]; one attempt per
    character is enough, see [finditer_fuel_enough]. *)
Definition finditer_from (pos : nat) (s : str) : list (nat * nat * str) :=
  finditer_fuel (length s) pos s.

Definition finditer (s : str) : list (nat * nat * str) :=
  finditer_from 0 s.

(** [DIRECTIVE_REGEX.findall(s)]: the (name, value) pairs from left to
    right. *)
Fixpoint findall_fuel (fuel : nat) (s : str) : list (str * str) :=
  match fuel with
  | 0 => []
  | S fuel' =>
      match s with
      | [] => []
      | _ :: r =>
          match directive_at s with
          | Some (name, value, rest) => (name, value) :: findall_fuel fuel' rest
          | None => findall_fuel fuel' r
          end
      end
  end.

Definition findall (s : str) : list (str * str) :=
  findall_fuel (length s) s.

(** ** [validate] *)

(** The scan either goes on with a value or leaves [validate] through one of
    its [return False, msg] statements. *)
Inductive res (A : Type) : Type :=
| Ok (a : A)
| Err (msg : str).
Arguments Ok {A} a.
Arguments Err {A} msg.

Definition bind {A B : Type} (r : res A) (k : A -> res B) : res B :=
  match r with
  | Ok a => k a
  | Err m => Err m
  end.

Definition is_nil {A : Type} (l : list A) : bool :=
  match l with [] => true | _ :: _ => false end.

(** The closing branches: [if not open_blocks or open_blocks[-1] != kind:
    return False, ...] and then [open_blocks.pop()]. *)
Definition close_block (line_num : nat) (kind : string)
    (open_blocks : list str) : res (list str) :=
  if is_nil open_blocks || negb (str_eqb (last open_blocks []) kind)
  then Err ("Line " ++ str_of_nat line_num ++ ": Unexpected end_of_" ++ kind)
  else Ok (removelast open_blocks).

(** The [if]/[elif] chain on one directive name. *)
Definition on_directive (line_num : nat) (open_blocks : list str)
    (directive : str) : res (list str) :=
  if str_in directive ["soc"; "start_of_chorus"; "chorus"] then
    Ok (open_blocks ++ [("chorus" : str)])
  else if str_in directive ["eoc"; "end_of_chorus"] then
    close_block line_num "chorus" open_blocks
  else if str_in directive ["sov"; "start_of_verse"; "verse"] then
    Ok (open_blocks ++ [("verse" : str)])
  else if str_in directive ["eov"; "end_of_verse"] then
    close_block line_num "verse" open_blocks
  else if str_in directive ["sob"; "start_of_bridge"; "bridge"] then
    Ok (open_blocks ++ [("bridge" : str)])
  else if str_in directive ["eob"; "end_of_bridge"] then
    close_block line_num "bridge" open_blocks
  else if str_in directive ["sot"; "start_of_tab"; "tab"] then
    Ok (open_blocks ++ [("tab" : str)])
  else if str_in directive ["eot"; "end_of_tab"] then
    close_block line_num "tab" open_blocks
  else Ok open_blocks.

(** [for directive, _ in directives]. *)
Fixpoint scan_directives (line_num : nat) (open_blocks : list str)
    (directives : list (str * str)) : res (list str) :=
  match directives with
  | [] => Ok open_blocks
  | (directive, _) :: rest =>
      bind (on_directive line_num open_blocks directive)
           (fun ob => scan_directives line_num ob rest)
  end.

(** The bracket count of one line. *)
Definition check_brackets (line_num : nat) (line : str) : res unit :=
  if negb (Nat.eqb (count "[" line) (count "]" line))
  then Err ("Line " ++ str_of_nat line_num ++ ": Unmatched brackets in chords")
  else Ok tt.

(** The body of [for line_num, line in enumerate(lines, 1)]. *)
Definition scan_line (line_num : nat) (open_blocks : list str)
    (line : str) : res (list str) :=
  bind (scan_directives line_num open_blocks (findall line))
       (fun ob => bind (check_brackets line_num line) (fun _ => Ok ob)).

Fixpoint scan_lines (line_num : nat) (open_blocks : list str)
    (lines : list str) : res (list str) :=
  match lines with
  | [] => Ok open_blocks
  | line :: rest =>
      bind (scan_line line_num open_blocks line)
           (fun ob => scan_lines (S line_num) ob rest)
  end.

Definition validate (content : str) : bool * option str :=
  if negb (nonempty content) || negb (nonempty (strip content)) then
    (false, Some ("Content cannot be empty" : str))
  else
    match scan_lines 1 [] (split NL content) with
    | Err msg => (false, Some msg)
    | Ok open_blocks =>
        if negb (is_nil open_blocks) then
          (false, Some ("Unclosed block(s): " ++ join ", " open_blocks))
        else (true, None)
    end.

(** ** [inject_metadata] *)

(** The [metadata_found] dictionary. *)
Record found : Type := mk_found {
  found_title : bool;
  found_artist : bool;
  found_capo : bool;
  found_key : bool
}.

Definition found_none : found := mk_found false false false false.

(** The f-string [{name:value}] of a directive. *)
Definition directive_line (name : string) (value : str) : str :=
  "{" ++ name ++ ":" ++ value ++ "}".

(** The value of a truthy [Optional[str]]. *)
Definition the (o : option str) : str :=
  match o with Some s => s | None => [] end.

Section Inject.

Variables (title artist : option str) (capo : option Z) (key : option str).

(** The [if]/[elif] chain of the inner loop, on the triple
    ([line], [is_metadata], [metadata_found]). *)
Definition on_meta_directive (st : str * bool * found) (d : str * str)
    : str * bool * found :=
  let '(line, is_metadata, mf) := st in
  let directive := fst d in
  if str_in directive ["title"; "t"] then
    (if truthy title then directive_line "title" (the title) else line,
     true,
     mk_found true (found_artist mf) (found_capo mf) (found_key mf))
  else if str_in directive ["artist"; "a"] then
    (if truthy artist then directive_line "artist" (the artist) else line,
     true,
     mk_found (found_title mf) true (found_capo mf) (found_key mf))
  else if str_eqb directive "capo" then
    (match capo with
     | Some c => directive_line "capo" (str_of_Z c)
     | None => line
     end,
     true,
     mk_found (found_title mf) (found_artist mf) true (found_key mf))
  else if str_eqb directive "key" then
    (if truthy key then directive_line "key" (the key) else line,
     true,
     mk_found (found_title mf) (found_artist mf) (found_capo mf) true)
  else st.

(** One turn of [for line in lines], on the triple ([metadata_lines],
    [content_lines], [metadata_found]); the directives are those of the
    line as read, whatever the inner loop assigns to [line]. *)
Definition classify_line (st : list str * list str * found) (line : str)
    : list str * list str * found :=
  let '(metadata_lines, content_lines, mf) := st in
  let directives := findall line in
  let '(line', is_metadata, mf') :=
    fold_left on_meta_directive directives (line, false, mf) in
  if is_metadata then (metadata_lines ++ [line'], content_lines, mf')
  else (metadata_lines, content_lines ++ [line'], mf').

(** The lines added for supplied fields that were not found. *)
Definition new_metadata (mf : found) : list str :=
  (if truthy title && negb (found_title mf)
   then [directive_line "title" (the title)] else [])
  ++ (if truthy artist && negb (found_artist mf)
      then [directive_line "artist" (the artist)] else [])
  ++ (match capo with
      | Some c =>
          if negb (found_capo mf)
          then [directive_line "capo" (str_of_Z c)] else []
      | None => []
      end)
  ++ (if truthy key && negb (found_key mf)
      then [directive_line "key" (the key)] else []).

(** The first loop, on the lines of the document. *)
Definition classify (content : str) : list str * list str * found :=
  let content := if negb (nonempty content) then ([] : str) else content in
  let lines := split NL content in
  fold_left classify_line lines ([], [], found_none).

(** The condition under which an empty line is put between the metadata
    and the content. *)
Definition needs_separator (result content_lines : list str) : bool :=
  negb (is_nil result) && negb (is_nil content_lines)
  && (0 <? length content_lines)%nat
  && existsb (fun line => nonempty (strip line)) content_lines.

(** The list that is joined at the end. *)
Definition inject_lines (content : str) : list str :=
  let '(metadata_lines, content_lines, mf) := classify content in
  let result := new_metadata mf ++ metadata_lines in
  let result :=
    if needs_separator result content_lines
    then result ++ [([] : str)] else result in
  result ++ content_lines.

Definition inject_metadata (content : str) : str :=
  join [NL] (inject_lines content).

(** Whether this call puts the empty line in. *)
Definition separator_inserted (content : str) : bool :=
  let '(metadata_lines, content_lines, mf) := classify content in
  needs_separator (new_metadata mf ++ metadata_lines) content_lines.

End Inject.

(** *** The merge with its error

    The only step of [inject_metadata] that can raise is the conversion of
    [capo] to decimal text in the f-string of the capo line: the
    interpreter refuses to convert an [int] of more than 4300 digits, the
    sign not counted, with a [ValueError].  The functions below are the
    functions above with this error threaded through; [inject_metadata] is
    what the merge returns when the conversion succeeds. *)

(** The interpreter's limit on the digits of an integer converted to or
    from decimal text. *)
Definition int_max_str_digits : nat := 4300.

(** The number of decimal digits of an [int]. *)
Definition digits_of (z : Z) : nat := length (str_of_Z (Z.abs z)).

(** The message of the [ValueError]. *)
Definition max_str_digits_error : string :=
  "Exceeds the limit (4300 digits) for integer string conversion; use sys.set_int_max_str_digits() to increase the limit".

(** [f"{capo}"]. *)
Definition format_int (z : Z) : res str :=
  if (int_max_str_digits <? digits_of z)%nat
  then Err max_str_digits_error
  else Ok (str_of_Z z).

(** A loop whose body can raise. *)
Fixpoint fold_res {A B : Type} (f : A -> B -> res A) (l : list B) (a : A)
    : res A :=
  match l with
  | [] => Ok a
  | x :: rest => bind (f a x) (fold_res f rest)
  end.

Section InjectRaising.

Variables (title artist : option str) (capo : option Z) (key : option str).

Definition on_meta_directive_res (st : str * bool * found) (d : str * str)
    : res (str * bool * found) :=
  let '(line, is_metadata, mf) := st in
  let directive := fst d in
  if str_in directive ["title"; "t"] then
    Ok (if truthy title then directive_line "title" (the title) else line,
        true,
        mk_found true (found_artist mf) (found_capo mf) (found_key mf))
  else if str_in directive ["artist"; "a"] then
    Ok (if truthy artist then directive_line "artist" (the artist) else line,
        true,
        mk_found (found_title mf) true (found_capo mf) (found_key mf))
  else if str_eqb directive "capo" then
    bind (match capo with
          | Some c =>
              bind (format_int c) (fun n => Ok (directive_line "capo" n))
          | None => Ok line
          end) (fun line =>
    Ok (line, true,
        mk_found (found_title mf) (found_artist mf) true (found_key mf)))
  else if str_eqb directive "key" then
    Ok (if truthy key then directive_line "key" (the key) else line,
        true,
        mk_found (found_title mf) (found_artist mf) (found_capo mf) true)
  else Ok st.

Definition classify_line_res (st : list str * list str * found) (line : str)
    : res (list str * list str * found) :=
  let '(metadata_lines, content_lines, mf) := st in
  let directives := findall line in
  bind (fold_res on_meta_directive_res directives (line, false, mf))
    (fun '(line', is_metadata, mf') =>
  Ok (if is_metadata then (metadata_lines ++ [line'], content_lines, mf')
      else (metadata_lines, content_lines ++ [line'], mf'))).

Definition new_metadata_res (mf : found) : res (list str) :=
  let new_title :=
    if truthy title && negb (found_title mf)
    then [directive_line "title" (the title)] else [] in
  let new_artist :=
    if truthy artist && negb (found_artist mf)
    then [directive_line "artist" (the artist)] else [] in
  bind (match capo with
        | Some c =>
            if negb (found_capo mf)
            then bind (format_int c)
                      (fun n => Ok [directive_line "capo" n])
            else Ok []
        | None => Ok []
        end) (fun new_capo =>
  let new_key :=
    if truthy key && negb (found_key mf)
    then [directive_line "key" (the key)] else [] in
  Ok (new_title ++ new_artist ++ new_capo ++ new_key)).

Definition classify_res (content : str)
    : res (list str * list str * found) :=
  let content := if negb (nonempty content) then ([] : str) else content in
  let lines := split NL content in
  fold_res classify_line_res lines ([], [], found_none).

Definition inject_metadata_res (content : str) : res str :=
  bind (classify_res content) (fun '(metadata_lines, content_lines, mf) =>
  bind (new_metadata_res mf) (fun new_metadata =>
  let result := new_metadata ++ metadata_lines in
  let result :=
    if needs_separator result content_lines
    then result ++ [([] : str)] else result in
  Ok (join [NL] (result ++ content_lines)))).

End InjectRaising.

(** ** [extract_metadata] *)

(** The returned dictionary; [None] is an unset field. *)
Record metadata : Type := mk_metadata {
  md_title : option str;
  md_artist : option str;
  md_capo : option Z;
  md_key : option str;
  md_tempo : option str;
  md_time : option str
}.

Definition metadata_unset : metadata :=
  mk_metadata None None None None None None.

Section Extract.

(** Python's [int(s)]: [Some n] when the text parses, [None] when it
    raises [ValueError]. *)
Variable int_of_str : str -> option Z.

(** [int(value) if value else 0], with [except ValueError] giving 0. *)
Definition capo_of (value : str) : Z :=
  if nonempty value then
    match int_of_str value with
    | Some n => n
    | None => 0%Z
    end
  else 0%Z.

Definition on_extract_directive (md : metadata) (d : str * str) : metadata :=
  let '(directive, value) := d in
  if str_in directive ["title"; "t"] then
    mk_metadata (Some (str_or value "")) (md_artist md) (md_capo md)
                (md_key md) (md_tempo md) (md_time md)
  else if str_in directive ["artist"; "a"] then
    mk_metadata (md_title md) (Some (str_or value "")) (md_capo md)
                (md_key md) (md_tempo md) (md_time md)
  else if str_eqb directive "capo" then
    mk_metadata (md_title md) (md_artist md) (Some (capo_of value))
                (md_key md) (md_tempo md) (md_time md)
  else if str_eqb directive "key" then
    mk_metadata (md_title md) (md_artist md) (md_capo md)
                (Some (str_or value "")) (md_tempo md) (md_time md)
  else if str_eqb directive "tempo" then
    mk_metadata (md_title md) (md_artist md) (md_capo md)
                (md_key md) (Some (str_or value "")) (md_time md)
  else if str_eqb directive "time" then
    mk_metadata (md_title md) (md_artist md) (md_capo md)
                (md_key md) (md_tempo md) (Some (str_or value ""))
  else md.

Definition extract_metadata (content : str) : metadata :=
  fold_left on_extract_directive (findall content) metadata_unset.

End Extract.

(** A model of [int(s)] for the characters represented here, used to run
    [extract_metadata]: blanks around the literal are skipped (of the
    characters below 128 only TAB, LF, VT, FF, CR and SPACE; NEL and NBSP
    also), then an optional sign and decimal digits, single underscores
    allowed between digits.  A literal of more than 4300 digits, leading
    zeros counted and underscores not, is refused like a malformed one:
    both raise [ValueError]. *)
Definition int_blank (c : ascii) : bool :=
  let n := nat_of_ascii c in
  (((9 <=? n) && (n <=? 13)) || (n =? 32) || (n =? 133) || (n =? 160))%nat.

Definition is_digit (c : ascii) : bool :=
  let n := nat_of_ascii c in ((48 <=? n) && (n <=? 57))%nat.

Definition digit_val (c : ascii) : Z := Z.of_nat (nat_of_ascii c - 48).

Fixpoint digits_from (acc : Z) (s : str) : option Z :=
  match s with
  | [] => Some acc
  | c :: r =>
      if is_digit c then digits_from (10 * acc + digit_val c) r
      else if Ascii.eqb c "_" then
        match r with
        | d :: r' =>
            if is_digit d then digits_from (10 * acc + digit_val d) r'
            else None
        | [] => None
        end
      else None
  end.

Definition digits (s : str) : option Z :=
  match s with
  | c :: r => if is_digit c then digits_from (digit_val c) r else None
  | [] => None
  end.

Definition py_int (s : str) : option Z :=
  let s := rev (dropwhile int_blank (rev (dropwhile int_blank s))) in
  if (int_max_str_digits <? length (filter is_digit s))%nat then None
  else
    match s with
    | c :: r =>
        if Ascii.eqb c "-" then option_map Z.opp (digits r)
        else if Ascii.eqb c "+" then digits r
        else digits s
    | [] => None
    end.

(** ** [parse_line] *)

Inductive seg_type : Type := text | chord.

(** The dictionary [{'type': ..., 'content': ...}]. *)
Record segment : Type := mk_segment {
  seg_kind : seg_type;
  seg_content : str
}.

(** One turn of [for match in CHORD_REGEX.finditer(line)], on the pair
    ([segments], [last_end]). *)
Definition on_match (line : str) (st : list segment * nat)
    (m : nat * nat * str) : list segment * nat :=
  let '(segments, last_end) := st in
  let '(start, end_, group1) := m in
  let segments :=
    if (last_end <? start)%nat then
      let t := slice line last_end start in
      if nonempty t then segments ++ [mk_segment text t] else segments
    else segments in
  (segments ++ [mk_segment chord group1], end_).

(** The statements after the loop, on the pair it ends with. *)
Definition trailing (line : str) (st : list segment * nat) : list segment :=
  let '(segments, last_end) := st in
  if (last_end <? length line)%nat then
    let t := skipn last_end line in
    if nonempty t then segments ++ [mk_segment text t] else segments
  else segments.

Definition parse_line (line : str) : list segment :=
  trailing line (fold_left (on_match line) (finditer line) ([], 0)).

(** ** [clean_content] *)

(** [content.replace('\r\n', '\n')]. *)
Fixpoint replace_crlf (s : str) : str :=
  match s with
  | [] => []
  | c :: r =>
      match r with
      | d :: r' =>
          if Ascii.eqb c CR && Ascii.eqb d NL then NL :: replace_crlf r'
          else c :: replace_crlf r
      | [] => [c]
      end
  end.

(** [content.replace('\r', '\n')]. *)
Definition replace_cr (s : str) : str :=
  map (fun c => if Ascii.eqb c CR then NL else c) s.

(** One turn of the loop that drops blank lines after the second of a
    run, on the pair ([cleaned_lines], [empty_count]). *)
Definition on_clean_line (st : list str * nat) (line : str) : list str * nat :=
  let '(cleaned_lines, empty_count) := st in
  if negb (nonempty line) then
    let empty_count := S empty_count in
    if (empty_count <=? 2)%nat then (cleaned_lines ++ [line], empty_count)
    else (cleaned_lines, empty_count)
  else (cleaned_lines ++ [line], 0).

(** [while cleaned_lines and not cleaned_lines[-1]: cleaned_lines.pop()],
    with the list given last element first. *)
Fixpoint pop_empty_rev (rev_lines : list str) : list str :=
  match rev_lines with
  | [] => []
  | l :: rest => if negb (nonempty l) then pop_empty_rev rest else rev_lines
  end.

Definition pop_trailing_empty (lines : list str) : list str :=
  rev (pop_empty_rev (rev lines)).

Definition clean_lines (content : str) : list str :=
  let content := replace_cr (replace_crlf content) in
  let lines := map rstrip (split NL content) in
  let '(cleaned_lines, _) := fold_left on_clean_line lines ([], 0) in
  pop_trailing_empty cleaned_lines.

Definition clean_content (content : str) : str :=
  join [NL] (clean_lines content).

(** ** Vocabulary of the specification *)

(** The block kind that a directive name closes, after the table of
    aliases: [eoc] and [end_of_chorus] close a chorus, and so on. *)
Definition close_alias (directive : str) : option string :=
  if str_in directive ["eoc"; "end_of_chorus"] then Some "chorus"
  else if str_in directive ["eov"; "end_of_verse"] then Some "verse"
  else if str_in directive ["eob"; "end_of_bridge"] then Some "bridge"
  else if str_in directive ["eot"; "end_of_tab"] then Some "tab"
  else None.

(** The field that a directive name stands for, after the table of
    aliases; a metadata line is a line with a directive of a tracked
    field. *)
Inductive field : Type := Title | Artist | Capo | Key.

Definition field_of (directive : str) : option field :=
  if str_in directive ["title"; "t"] then Some Title
  else if str_in directive ["artist"; "a"] then Some Artist
  else if str_eqb directive "capo" then Some Capo
  else if str_eqb directive "key" then Some Key
  else None.

Definition tracked (d : str * str) : bool :=
  match field_of (fst d) with Some _ => true | None => false end.

Definition is_metadata_line (line : str) : bool :=
  existsb tracked (findall line).

Definition is_content_line (line : str) : bool :=
  negb (is_metadata_line line).

Definition has_capo (line : str) : bool :=
  existsb (fun d => str_eqb (fst d) "capo") (findall line).

(** The tokenizer as the specification words it: a scan from left to
    right that holds the text read since the last chord span.  At a chord
    span the held text is emitted if it is not empty, then the chord; any
    other character joins the held text; at the end of the line the held
    text is emitted if it is not empty.  [tokens held rest segs]: scanning
    [rest] with [held] in hand emits [segs]. *)
Definition text_segment (t : str) : list segment :=
  if nonempty t then [mk_segment text t] else [].

Inductive tokens : str -> str -> list segment -> Prop :=
| tokens_end held :
    tokens held [] (text_segment held)
| tokens_chord held s body rest segs :
    chord_at s = Some (body, rest) ->
    tokens [] rest segs ->
    tokens held s (text_segment held ++ mk_segment chord body :: segs)
| tokens_char held c r segs :
    chord_at (c :: r) = None ->
    tokens (held ++ [c]) r segs ->
    tokens held (c :: r) segs.

(** The source text of a segment: a chord goes back between brackets. *)
Definition render (seg : segment) : str :=
  match seg_kind seg with
  | text => seg_content seg
  | chord => "[" ++ seg_content seg ++ "]"
  end.

(** The normalizer as the specification words it. *)

(** [CR LF] and a bare [CR] both become [LF], in one pass. *)
Fixpoint unify_newlines (s : str) : str :=
  match s with
  | [] => []
  | c :: r =>
      if Ascii.eqb c CR then
        NL :: match r with
              | d :: r' =>
                  if Ascii.eqb d NL then unify_newlines r'
                  else unify_newlines r
              | [] => []
              end
      else c :: unify_newlines r
  end.

(** A blank line that has two blank lines after it is one too many. *)
Fixpoint cap_blank_runs (lines : list str) : list str :=
  match lines with
  | [] => []
  | a :: r =>
      match r with
      | b :: c :: _ =>
          if is_nil a && is_nil b && is_nil c then cap_blank_runs r
          else a :: cap_blank_runs r
      | _ => a :: cap_blank_runs r
      end
  end.

(** The lines without the blank lines at the end. *)
Fixpoint drop_trailing_blank (lines : list str) : list str :=
  match lines with
  | [] => []
  | a :: r =>
      match drop_trailing_blank r with
      | [] => if is_nil a then [] else [a]
      | r' => a :: r'
      end
  end.

(** A line without its trailing white space: the characters up to the
    last one that is no white space. *)
Fixpoint strip_trailing (line : str) : str :=
  match line with
  | [] => []
  | c :: r =>
      match strip_trailing r with
      | [] => if isspace c then [] else [c]
      | r' => c :: r'
      end
  end.

Definition normalize_spec (s : str) : str :=
  join [NL]
       (drop_trailing_blank
          (cap_blank_runs (map strip_trailing (split NL (unify_newlines s))))).

(** A line that is empty or ends in a character that is no white space. *)
Definition ends_in_text (line : str) : Prop :=
  line = [] \/ isspace (last line " "%char) = false.

(** ** Loops as recursive functions

    The loops above append to the lists they build; these functions give
    what one loop adds, for the proofs. *)

(** The lines that the blank-line loop keeps, [empty_count] being [c]. *)
Fixpoint kept_lines (c : nat) (lines : list str) : list str :=
  match lines with
  | [] => []
  | line :: rest =>
      if negb (nonempty line) then
        if (S c <=? 2)%nat then line :: kept_lines (S c) rest
        else kept_lines (S c) rest
      else line :: kept_lines 0 rest
  end.

(** The inner loop of [inject_metadata], field by field: the line a field
    is rewritten to when a value is supplied for it, and the entry of
    [metadata_found] it sets. *)
Definition canonical (title artist : option str) (capo : option Z)
    (key : option str) (f : field) : option str :=
  match f with
  | Title =>
      if truthy title then Some (directive_line "title" (the title)) else None
  | Artist =>
      if truthy artist then Some (directive_line "artist" (the artist))
      else None
  | Capo =>
      match capo with
      | Some c => Some (directive_line "capo" (str_of_Z c))
      | None => None
      end
  | Key => if truthy key then Some (directive_line "key" (the key)) else None
  end.

Definition mark (f : field) (mf : found) : found :=
  match f with
  | Title => mk_found true (found_artist mf) (found_capo mf) (found_key mf)
  | Artist => mk_found (found_title mf) true (found_capo mf) (found_key mf)
  | Capo => mk_found (found_title mf) (found_artist mf) true (found_key mf)
  | Key => mk_found (found_title mf) (found_artist mf) (found_capo mf) true
  end.

Definition seen (f : field) (mf : found) : bool :=
  match f with
  | Title => found_title mf
  | Artist => found_artist mf
  | Capo => found_capo mf
  | Key => found_key mf
  end.

(** The tracked fields of a list of directives and of the directives of a
    line, in order. *)
Definition fields_of (ds : list (str * str)) : list field :=
  flat_map (fun d => match field_of (fst d) with
                     | Some f => [f]
                     | None => []
                     end) ds.

Definition line_fields (line : str) : list field := fields_of (findall line).

(** The line that the inner loop leaves in [line]: the canonical line of
    the last field of the line that has one. *)
Definition rewritten (title artist : option str) (capo : option Z)
    (key : option str) (line : str) : str :=
  fold_left (fun l f => match canonical title artist capo key f with
                        | Some c => c
                        | None => l
                        end) (line_fields line) line.

(** A supplied text value that can stand in a directive on one line: no
    line feed and no closing brace. *)
Definition plain (o : option str) : Prop :=
  forall v, o = Some v -> ~ In NL v /\ ~ In "}"%char v.

(** A line whose directives name at most one of the fields for which a
    value is supplied. *)
Definition one_supplied_field (title artist : option str) (capo : option Z)
    (key : option str) (line : str) : Prop :=
  forall f g c c',
    In f (line_fields line) -> In g (line_fields line) ->
    canonical title artist capo key f = Some c ->
    canonical title artist capo key g = Some c' ->
    f = g.

(** Three blank lines in a row somewhere in the list. *)
Fixpoint three_blank (lines : list str) : bool :=
  match lines with
  | [] => false
  | a :: r =>
      match r with
      | b :: c :: _ => (is_nil a && is_nil b && is_nil c) || three_blank r
      | _ => false
      end
  end.

(** ** Further vocabulary *)

(** The four block kinds that [validate] pushes. *)
Definition is_kind (k : str) : Prop :=
  In k (map list_ascii_of_string ["chorus"; "verse"; "bridge"; "tab"]).

(** A line with as many opening as closing brackets. *)
Definition balanced (line : str) : Prop := count "[" line = count "]" line.


(** Two text segments in a row somewhere in the list. *)
Definition is_text (seg : segment) : bool :=
  match seg_kind seg with text => true | chord => false end.

Fixpoint text_pair (segs : list segment) : bool :=
  match segs with
  | [] => false
  | a :: r =>
      match r with
      | b :: _ => (is_text a && is_text b) || text_pair r
      | [] => false
      end
  end.

(** A segment that [render] writes so that it is read back: it is not
    empty, a text has no opening bracket, a chord no closing bracket. *)
Definition seg_plain (seg : segment) : Prop :=
  seg_content seg <> []
  /\ match seg_kind seg with
     | text => ~ In "["%char (seg_content seg)
     | chord => ~ In "]"%char (seg_content seg)
     end.


(** The text fields of the metadata, the directive names that set each
    of them and the entry of the dictionary they set. *)
Inductive text_field : Type := FTitle | FArtist | FKey | FTempo | FTime.

Definition field_names (f : text_field) : list string :=
  match f with
  | FTitle => ["title"; "t"]
  | FArtist => ["artist"; "a"]
  | FKey => ["key"]
  | FTempo => ["tempo"]
  | FTime => ["time"]
  end.

Definition field_value (f : text_field) (md : metadata) : option str :=
  match f with
  | FTitle => md_title md
  | FArtist => md_artist md
  | FKey => md_key md
  | FTempo => md_tempo md
  | FTime => md_time md
  end.

(** A line in which every opening brace has a closing brace after it: an
    attempt of [DIRECTIVE_REGEX] that starts in the line ends in it. *)
Fixpoint closed (line : str) : bool :=
  match line with
  | [] => true
  | c :: r =>
      (negb (Ascii.eqb c "{") || existsb (Ascii.eqb "}") r) && closed r
  end.

(** What a scan of [validate] ends with, the message of an error
    forgotten: the open blocks, or nothing after an error. *)
Definition stack_of (r : res (list str)) : option (list str) :=
  match r with
  | Ok open_blocks => Some open_blocks
  | Err _ => None
  end.

(** The directive names that [validate] acts on: the names that open or
    close a chorus, a verse, a bridge or a tab. *)
Definition block_name (directive : str) : bool :=
  str_in directive ["soc"; "start_of_chorus"; "chorus"]
  || str_in directive ["eoc"; "end_of_chorus"]
  || str_in directive ["sov"; "start_of_verse"; "verse"]
  || str_in directive ["eov"; "end_of_verse"]
  || str_in directive ["sob"; "start_of_bridge"; "bridge"]
  || str_in directive ["eob"; "end_of_bridge"]
  || str_in directive ["sot"; "start_of_tab"; "tab"]
  || str_in directive ["eot"; "end_of_tab"].

(** * The song service: src/server/services/songs.py *)

(** [s.startswith(sub)] and [sub in s] on strings. *)
Fixpoint startswith (sub s : str) : bool :=
  match sub, s with
  | [], _ => true
  | a :: sub', b :: s' => Ascii.eqb a b && startswith sub' s'
  | _ :: _, [] => false
  end.

Fixpoint contains (sub s : str) : bool :=
  startswith sub s
  || match s with
     | [] => false
     | _ :: s' => contains sub s'
     end.

(** The columns of [Song] and [SongVersion] that the service writes; the
    keys and the time stamps are the database's. *)
Record Song := mk_Song {
  song_title : str;
  song_content_chordpro : str;
  song_folder_id : option Z;
  song_author : option str;
  song_capo : Z;
  song_transpose_semitones : Z;
  song_user_id : option Z
}.

Record SongVersion := mk_SongVersion {
  version_content_chordpro : str;
  version_capo : Z;
  version_transpose_semitones : Z
}.

(** The cleaning and the lenient check that [create_song] and
    [update_song] both run on a new content; [Err] is the [ValueError]
    raised. *)
Definition clean_and_check (content_chordpro : str) : res str :=
  let content_chordpro := clean_content content_chordpro in
  let '(is_valid, error) := validate content_chordpro in
  if negb is_valid && truthy error
     && negb (contains "Unclosed block" (the error))
  then Err ("Invalid ChordPro content: " ++ the error)
  else Ok content_chordpro.

(** [try: content_chordpro = inject_metadata(...)] with [except
    Exception: pass]: the content stays as it was when the merge raises. *)
Definition try_inject (content_chordpro : str) (merged : res str) : str :=
  match merged with
  | Ok merged => merged
  | Err _ => content_chordpro
  end.

(** [create_song]: the song and its first version. *)
Definition create_song (title content_chordpro : str) (folder_id : option Z)
    (author : option str) (capo transpose_semitones : Z)
    (user_id : option Z) : res (Song * SongVersion) :=
  bind (clean_and_check content_chordpro) (fun content_chordpro =>
  let content_chordpro :=
    try_inject content_chordpro
      (inject_metadata_res (Some title)
         (if truthy author then author else None)
         (Some (if negb (Z.eqb capo 0) then capo else 0%Z))
         None content_chordpro) in
  Ok (mk_Song title content_chordpro folder_id author capo
        transpose_semitones user_id,
      mk_SongVersion content_chordpro capo transpose_semitones)).

Definition set_title (v : str) (s : Song) : Song :=
  mk_Song v (song_content_chordpro s) (song_folder_id s) (song_author s)
    (song_capo s) (song_transpose_semitones s) (song_user_id s).

Definition set_content_chordpro (v : str) (s : Song) : Song :=
  mk_Song (song_title s) v (song_folder_id s) (song_author s)
    (song_capo s) (song_transpose_semitones s) (song_user_id s).

Definition set_folder_id (v : Z) (s : Song) : Song :=
  mk_Song (song_title s) (song_content_chordpro s) (Some v) (song_author s)
    (song_capo s) (song_transpose_semitones s) (song_user_id s).

Definition set_author (v : str) (s : Song) : Song :=
  mk_Song (song_title s) (song_content_chordpro s) (song_folder_id s)
    (Some v) (song_capo s) (song_transpose_semitones s) (song_user_id s).

Definition set_capo (v : Z) (s : Song) : Song :=
  mk_Song (song_title s) (song_content_chordpro s) (song_folder_id s)
    (song_author s) v (song_transpose_semitones s) (song_user_id s).

Definition set_transpose_semitones (v : Z) (s : Song) : Song :=
  mk_Song (song_title s) (song_content_chordpro s) (song_folder_id s)
    (song_author s) (song_capo s) v (song_user_id s).

(** [if v is not None: song.field = v]. *)
Definition assign {A : Type} (set : A -> Song -> Song) (v : option A)
    (s : Song) : Song :=
  match v with
  | Some x => set x s
  | None => s
  end.

(** [update_song] on the song found: the song as committed and the version
    saved on the way, if any. *)
Definition update_song (song : Song) (title content_chordpro : option str)
    (folder_id : option Z) (author : option str)
    (capo transpose_semitones : option Z) : res (Song * option SongVersion) :=
  let version :=
    if truthy content_chordpro
       && negb (str_eqb (the content_chordpro) (song_content_chordpro song))
    then Some (mk_SongVersion (song_content_chordpro song) (song_capo song)
                 (song_transpose_semitones song))
    else None in
  bind (if truthy content_chordpro
        then bind (clean_and_check (the content_chordpro))
                  (fun c => Ok (Some c))
        else Ok content_chordpro) (fun content_chordpro =>
  let song := assign set_title title song in
  let song :=
    match content_chordpro with
    | Some c =>
        set_content_chordpro
          (try_inject c
             (inject_metadata_res
                (Some (if truthy title then the title else song_title song))
                (match author with
                 | Some a => Some a
                 | None => song_author song
                 end)
                (Some (match capo with
                       | Some n => n
                       | None => song_capo song
                       end))
                None c))
          song
    | None => song
    end in
  let song := assign set_folder_id folder_id song in
  let song := assign set_author author song in
  let song := assign set_capo capo song in
  let song := assign set_transpose_semitones transpose_semitones song in
  Ok (song, version)).

(** [restore_version] on the song and the version found: the song as
    committed and the version that saves its state. *)
Definition restore_version (song : Song) (version : SongVersion)
    : Song * SongVersion :=
  let current_version :=
    mk_SongVersion (song_content_chordpro song) (song_capo song)
      (song_transpose_semitones song) in
  let song := set_content_chordpro (version_content_chordpro version) song in
  let song := set_capo (version_capo version) song in
  let song :=
    set_transpose_semitones (version_transpose_semitones version) song in
  (song, current_version).

(** * Properties *)

(** ** Strings *)

Lemma str_eqb_eq (a b : str) : str_eqb a b = true <-> a = b.
Proof.
  revert b; induction a as [|x a IH]; intros [|y b]; simpl;
    try (split; [discriminate | intros H; inversion H]); try tauto.
  rewrite andb_true_iff, Ascii.eqb_eq, IH.
  split; [intros [-> ->]; reflexivity | intros H; inversion H; auto].
Qed.

Lemma str_eqb_refl (a : str) : str_eqb a a = true.
Proof. apply str_eqb_eq; reflexivity. Qed.

Lemma str_eqb_neq (a b : str) : str_eqb a b = false <-> a <> b.
Proof.
  rewrite <- str_eqb_eq. destruct (str_eqb a b); split; congruence.
Qed.

Lemma str_in_In (x : str) (l : list string) :
  str_in x l = true <-> In x (map list_ascii_of_string l).
Proof.
  unfold str_in. rewrite existsb_exists, in_map_iff.
  split; intros [s [H1 H2]]; exists s.
  - apply str_eqb_eq in H2. auto.
  - split; [tauto|]. apply str_eqb_eq. symmetry; tauto.
Qed.

(** The decimal digits of a number. *)

Lemma string_of_uint_digits (d : Decimal.uint) :
  Forall (fun c => is_digit c = true)
         (list_ascii_of_string (NilEmpty.string_of_uint d)).
Proof.
  induction d; simpl; constructor; auto.
Qed.

Lemma str_of_nat_digits (n : nat) :
  Forall (fun c => is_digit c = true) (str_of_nat n).
Proof. apply string_of_uint_digits. Qed.

Lemma str_of_nat_inj (n m : nat) : str_of_nat n = str_of_nat m -> n = m.
Proof.
  unfold str_of_nat. intros H.
  apply (f_equal string_of_list_ascii) in H.
  rewrite !string_of_list_ascii_of_string in H.
  apply (f_equal NilEmpty.uint_of_string) in H.
  rewrite !NilEmpty.usu in H. inversion H as [H'].
  apply (f_equal Nat.of_uint) in H'.
  now rewrite !DecimalNat.Unsigned.of_to in H'.
Qed.

(** Two texts that agree up to a first occurrence of [c]. *)
Lemma app_first_occurrence (c : ascii) (a b x y : str) :
  ~ In c a -> ~ In c b -> a ++ c :: x = b ++ c :: y -> a = b /\ x = y.
Proof.
  revert b; induction a as [|p a IH]; intros [|q b] Ha Hb H; simpl in *.
  - inversion H; auto.
  - inversion H; subst. exfalso; apply Hb; auto.
  - inversion H; subst. exfalso; apply Ha; auto.
  - inversion H; subst.
    destruct (IH b) as [-> ->]; auto.
Qed.

Lemma digit_not_colon (s : str) :
  Forall (fun c => is_digit c = true) s -> ~ In ":"%char s.
Proof.
  intros H Hin. rewrite Forall_forall in H. apply H in Hin. discriminate.
Qed.

(** ** Splitting and joining *)

Lemma split_not_nil sep s : split sep s <> [].
Proof.
  destruct s as [|c r]; simpl; [discriminate|].
  destruct (Ascii.eqb c sep); [discriminate|].
  destruct (split sep r); discriminate.
Qed.

Lemma split_pieces sep s : Forall (fun x => ~ In sep x) (split sep s).
Proof.
  induction s as [|c r IH]; simpl.
  - constructor; auto.
  - destruct (Ascii.eqb_spec c sep) as [->|Hne].
    + constructor; auto.
    + destruct (split sep r) as [|h t]; inversion IH; subst;
        constructor; auto; simpl; intuition congruence.
Qed.

Lemma split_app_sep sep a b :
  ~ In sep a -> split sep (a ++ sep :: b) = a :: split sep b.
Proof.
  intros Ha. induction a as [|x a IH]; simpl.
  - now rewrite Ascii.eqb_refl.
  - destruct (Ascii.eqb_spec x sep) as [->|Hne].
    + exfalso. apply Ha. now left.
    + rewrite IH by (intros H; apply Ha; now right). reflexivity.
Qed.

Lemma split_no_sep sep a : ~ In sep a -> split sep a = [a].
Proof.
  intros Ha. induction a as [|x a IH]; simpl; [reflexivity|].
  destruct (Ascii.eqb_spec x sep) as [->|Hne].
  - exfalso. apply Ha. now left.
  - rewrite IH by (intros H; apply Ha; now right). reflexivity.
Qed.

Lemma join_cons sep x y l :
  join [sep] (x :: y :: l) = x ++ sep :: join [sep] (y :: l).
Proof. reflexivity. Qed.

(** Lines without line feed are recovered from their join. *)
Lemma split_join sep l :
  l <> [] -> Forall (fun x => ~ In sep x) l -> split sep (join [sep] l) = l.
Proof.
  induction l as [|x l IH]; [congruence|]. intros _ H.
  inversion H as [|? ? Hx Hl]; subst.
  destruct l as [|y l].
  - simpl. now apply split_no_sep.
  - rewrite join_cons, split_app_sep by assumption.
    f_equal. apply IH; [discriminate|assumption].
Qed.

(** In general the lines of a join are the lines of its pieces. *)
Lemma split_app sep a b :
  split sep (a ++ sep :: b) = split sep a ++ split sep b.
Proof.
  induction a as [|x a IH]; simpl.
  - now rewrite Ascii.eqb_refl.
  - destruct (Ascii.eqb x sep); simpl.
    + now rewrite IH.
    + rewrite IH. pose proof (split_not_nil sep a).
      destruct (split sep a); [congruence|reflexivity].
Qed.

Lemma split_join_pieces sep l :
  l <> [] -> split sep (join [sep] l) = flat_map (split sep) l.
Proof.
  induction l as [|x l IH]; [congruence|]. intros _.
  destruct l as [|y l].
  - simpl. now rewrite app_nil_r.
  - rewrite join_cons, split_app, IH by discriminate. reflexivity.
Qed.

Lemma join_inj sep l1 l2 :
  l1 <> [] -> l2 <> [] ->
  Forall (fun x => ~ In sep x) l1 -> Forall (fun x => ~ In sep x) l2 ->
  join [sep] l1 = join [sep] l2 -> l1 = l2.
Proof.
  intros N1 N2 F1 F2 H. apply (f_equal (split sep)) in H.
  now rewrite !split_join in H by assumption.
Qed.

Lemma in_join sep c l :
  In c (join sep l) -> In c sep \/ exists x, In x l /\ In c x.
Proof.
  induction l as [|x l IH]; simpl; [tauto|].
  destruct l as [|y l].
  - intros H. right. exists x. auto.
  - rewrite !in_app_iff. intros [H|[H|H]].
    + right. exists x. auto.
    + now left.
    + destruct (IH H) as [H'|[z [Hz Hc]]]; [now left|].
      right. exists z. auto.
Qed.

(** ** The regular expressions *)

Lemma span_app p s a b : span p s = (a, b) -> s = a ++ b.
Proof.
  revert a b; induction s as [|c r IH]; intros a b; simpl.
  - intros [= <- <-]; reflexivity.
  - destruct (p c).
    + destruct (span p r) as [a' b']. intros [= <- <-].
      simpl. f_equal. now apply IH.
    + intros [= <- <-]; reflexivity.
Qed.

Lemma span_all p s a b : span p s = (a, b) -> forallb p a = true.
Proof.
  revert a b; induction s as [|c r IH]; intros a b; simpl.
  - intros [= <- <-]; reflexivity.
  - destruct (p c) eqn:E.
    + destruct (span p r) as [a' b']. intros [= <- <-].
      simpl. rewrite E. eapply IH; eauto.
    + intros [= <- <-]; reflexivity.
Qed.

Lemma span_stop p s a c b : span p s = (a, c :: b) -> p c = false.
Proof.
  revert a; induction s as [|x r IH]; intros a; simpl.
  - discriminate.
  - destruct (p x) eqn:E.
    + destruct (span p r) as [a' b'] eqn:E'. intros [= <- ->].
      eapply IH; eauto.
    + intros [= <- <- <-]; assumption.
Qed.

(** A run over a class, closed by a character outside of it, is found. *)
Lemma span_run p a c b :
  forallb p a = true -> p c = false -> span p (a ++ c :: b) = (a, c :: b).
Proof.
  intros Ha Hc. induction a as [|x a IH]; simpl.
  - now rewrite Hc.
  - simpl in Ha. apply andb_true_iff in Ha. destruct Ha as [Hx Ha].
    rewrite Hx, (IH Ha). reflexivity.
Qed.

Lemma span_run_end p a :
  forallb p a = true -> span p a = (a, []).
Proof.
  intros Ha. induction a as [|x a IH]; simpl; auto.
  simpl in Ha. apply andb_true_iff in Ha. destruct Ha as [Hx Ha].
  rewrite Hx, (IH Ha). reflexivity.
Qed.

Lemma chord_at_inv s body rest :
  chord_at s = Some (body, rest) ->
  s = "["%char :: body ++ "]"%char :: rest /\ body <> [].
Proof.
  destruct s as [|c r]; simpl; [discriminate|].
  destruct (Ascii.eqb_spec c "["); [subst c|discriminate].
  destruct (span _ r) as [a b] eqn:E.
  destruct a as [|x a]; [discriminate|].
  destruct b as [|d b]; [discriminate|].
  destruct (Ascii.eqb_spec d "]"); [subst d|discriminate].
  intros [= <- <-]. apply span_app in E. subst r.
  split; [reflexivity|discriminate].
Qed.

Lemma directive_at_shorter s name value rest :
  directive_at s = Some (name, value, rest) -> length rest < length s.
Proof.
  destruct s as [|c r]; simpl; [discriminate|].
  destruct (Ascii.eqb c "{"); [|discriminate].
  destruct (span _ r) as [a b] eqn:E.
  destruct a as [|x a]; [discriminate|].
  destruct b as [|d b]; [discriminate|].
  apply span_app in E. subst r.
  destruct (Ascii.eqb d "}").
  - intros [= <- <- <-]. rewrite length_app. simpl. lia.
  - destruct (span _ b) as [v b'] eqn:E'.
    destruct b' as [|e b']; [discriminate|].
    apply span_app in E'. subst b.
    destruct (Ascii.eqb e "}"); [|discriminate].
    intros [= <- <- <-]. rewrite !length_app. simpl.
    rewrite length_app. simpl. lia.
Qed.

(** The scans never run out of attempts: any [fuel] from the length of the
    text on gives the same matches. *)
Lemma finditer_fuel_enough f1 f2 pos s :
  length s <= f1 -> length s <= f2 ->
  finditer_fuel f1 pos s = finditer_fuel f2 pos s.
Proof.
  revert f2 pos s; induction f1 as [|f1 IH]; intros f2 pos s H1 H2.
  - destruct s; [|simpl in H1; lia]. destruct f2; reflexivity.
  - destruct f2 as [|f2]; [destruct s; [reflexivity|simpl in H2; lia]|].
    destruct s as [|c r]; [reflexivity|].
    cbn [finditer_fuel]. simpl in H1, H2.
    destruct (chord_at (c :: r)) as [[body rest]|] eqn:E.
    + apply chord_at_inv in E. destruct E as [E _].
      injection E as -> ->. rewrite length_app in H1, H2. simpl in H1, H2.
      cbv zeta. f_equal. apply IH; lia.
    + apply IH; lia.
Qed.

Lemma findall_fuel_enough f1 f2 s :
  length s <= f1 -> length s <= f2 ->
  findall_fuel f1 s = findall_fuel f2 s.
Proof.
  revert f2 s; induction f1 as [|f1 IH]; intros f2 s H1 H2.
  - destruct s; [|simpl in H1; lia]. destruct f2; reflexivity.
  - destruct f2 as [|f2]; [destruct s; [reflexivity|simpl in H2; lia]|].
    destruct s as [|c r]; [reflexivity|].
    cbn [findall_fuel]. simpl in H1, H2.
    destruct (directive_at (c :: r)) as [[[name value] rest]|] eqn:E.
    + apply directive_at_shorter in E. simpl in E.
      f_equal. apply IH; lia.
    + apply IH; lia.
Qed.

Lemma finditer_from_cons pos c r :
  finditer_from pos (c :: r) =
  match chord_at (c :: r) with
  | Some (body, rest) =>
      (pos, pos + 2 + length body, body)
      :: finditer_from (pos + 2 + length body) rest
  | None => finditer_from (S pos) r
  end.
Proof.
  unfold finditer_from. cbn [length finditer_fuel].
  destruct (chord_at (c :: r)) as [[body rest]|] eqn:E; [|reflexivity].
  cbv zeta. f_equal.
  apply chord_at_inv in E. destruct E as [E _]. injection E as -> ->.
  apply finditer_fuel_enough; rewrite ?length_app; simpl; lia.
Qed.

Lemma findall_cons c r :
  findall (c :: r) =
  match directive_at (c :: r) with
  | Some (name, value, rest) => (name, value) :: findall rest
  | None => findall r
  end.
Proof.
  unfold findall. cbn [length findall_fuel].
  destruct (directive_at (c :: r)) as [[[name value] rest]|] eqn:E;
    [|reflexivity].
  f_equal. apply directive_at_shorter in E. simpl in E.
  apply findall_fuel_enough; lia.
Qed.

(** ** The validator *)

Lemma scan_directives_app n st d1 d2 :
  scan_directives n st (d1 ++ d2) =
  bind (scan_directives n st d1) (fun st' => scan_directives n st' d2).
Proof.
  revert st; induction d1 as [|[d v] d1 IH]; intros st; simpl; auto.
  destruct (on_directive n st d); simpl; auto.
Qed.

Lemma scan_lines_app n st l1 l2 :
  scan_lines n st (l1 ++ l2) =
  bind (scan_lines n st l1) (fun st' => scan_lines (n + length l1) st' l2).
Proof.
  revert n st; induction l1 as [|l l1 IH]; intros n st; simpl.
  - now rewrite Nat.add_0_r.
  - destruct (scan_line n st l); simpl; auto.
    rewrite IH. now rewrite Nat.add_succ_r.
Qed.

Lemma on_directive_close n st d kind :
  close_alias d = Some kind -> on_directive n st d = close_block n kind st.
Proof.
  unfold close_alias.
  repeat match goal with
  | |- context [if str_in d ?l then _ else _] =>
      let E := fresh "E" in
      destruct (str_in d l) eqn:E;
      [ apply str_in_In in E; simpl in E;
        intros H; inversion H; subst kind;
        repeat (destruct E as [E|E]; [subst d; reflexivity|]); contradiction
      | ]
  end.
  discriminate.
Qed.

Lemma strip_nonempty (content : str) :
  nonempty (strip content) = true -> nonempty content = true.
Proof. destruct content; [discriminate | reflexivity]. Qed.

Lemma validate_scan (content : str) :
  nonempty (strip content) = true ->
  validate content =
  match scan_lines 1 [] (split NL content) with
  | Err msg => (false, Some msg)
  | Ok open_blocks =>
      if is_nil open_blocks then (true, None)
      else (false, Some ("Unclosed block(s): " ++ join ", " open_blocks))
  end.
Proof.
  intros H. unfold validate.
  rewrite (strip_nonempty _ H), H. simpl.
  destruct (scan_lines 1 [] (split NL content)) as [ob|]; auto.
  destruct ob; reflexivity.
Qed.

(** C3. When the scan of a document that is not blank reaches the end of
    its lines with no hard error, [validate] answers by the block stack
    alone: [(True, None)] for an empty stack, and otherwise [False] with
    "Unclosed block(s): " followed by the open kinds, bottom of the stack
    first, joined by ", ".  The two documents of the specification give
    [(True, None)] and "Unclosed block(s): chorus". *)
Theorem validate_end_of_scan :
  (forall (content : str) (open_blocks : list str),
      nonempty (strip content) = true ->
      scan_lines 1 [] (split NL content) = Ok open_blocks ->
      validate content =
      if is_nil open_blocks then (true, None)
      else (false, Some ("Unclosed block(s): " ++ join ", " open_blocks)))
  /\ validate ("{soc}" ++ [NL] ++ "lyric" ++ [NL] ++ "{eoc}") = (true, None)
  /\ validate ("{soc}" ++ [NL] ++ "lyric")
     = (false, Some ("Unclosed block(s): chorus" : str)).
Proof.
  split; [|split; reflexivity].
  intros content ob Hne Hscan.
  rewrite (validate_scan _ Hne), Hscan. reflexivity.
Qed.

Lemma validate_end_of_scan_witness :
  validate ("{soc}{sov}" ++ [NL] ++ "[Am]lyric")
  = (false, Some ("Unclosed block(s): chorus, verse" : str)).
Proof.
  apply (proj1 validate_end_of_scan
           ("{soc}{sov}" ++ [NL] ++ "[Am]lyric")
           [("chorus" : str); ("verse" : str)]);
    reflexivity.
Defined.

(** C4. When the scan reaches, with no earlier hard error, a directive
    that closes kind [K] while the stack is empty or has another kind on
    top, [validate] returns [False] with "Line n: Unexpected end_of_K", [n]
    counting lines from 1, whatever follows on the line and in the
    document; [validate("{eoc}")] is "Line 1: Unexpected end_of_chorus". *)
Theorem validate_unexpected_close :
  (forall (content : str) (pre post : list str) (line : str)
          (before after : list (str * str)) (directive value : str)
          (kind : string) (stack stack' : list str),
      nonempty (strip content) = true ->
      split NL content = pre ++ line :: post ->
      scan_lines 1 [] pre = Ok stack ->
      findall line = before ++ (directive, value) :: after ->
      scan_directives (S (length pre)) stack before = Ok stack' ->
      close_alias directive = Some kind ->
      stack' = [] \/ last stack' [] <> (kind : str) ->
      validate content =
      (false, Some ("Line " ++ str_of_nat (S (length pre))
                    ++ ": Unexpected end_of_" ++ kind)))
  /\ validate "{eoc}"
     = (false, Some ("Line 1: Unexpected end_of_chorus" : str)).
Proof.
  split; [|reflexivity].
  intros content pre post line before after directive value kind
         stack stack' Hne Hsplit Hpre Hline Hbefore Hclose Htop.
  rewrite (validate_scan _ Hne), Hsplit, scan_lines_app, Hpre.
  simpl. unfold scan_line.
  rewrite Hline, scan_directives_app, Hbefore. simpl.
  rewrite (on_directive_close _ _ _ _ Hclose). unfold close_block.
  assert (E : is_nil stack' || negb (str_eqb (last stack' []) kind) = true).
  { destruct Htop as [->|Htop]; [reflexivity|].
    apply str_eqb_neq in Htop. rewrite Htop. apply orb_true_r. }
  rewrite E. reflexivity.
Qed.

Lemma validate_unexpected_close_witness :
  validate ("{sov}" ++ [NL] ++ "la {c:x}{eoc} la {eov}" ++ [NL] ++ "[")
  = (false, Some ("Line 2: Unexpected end_of_chorus" : str)).
Proof.
  apply (proj1 validate_unexpected_close
           ("{sov}" ++ [NL] ++ "la {c:x}{eoc} la {eov}" ++ [NL] ++ "[")
           [("{sov}" : str)] [("[" : str)] "la {c:x}{eoc} la {eov}"
           [(("c" : str), ("x" : str))] [(("eov" : str), ([] : str))]
           "eoc" [] "chorus" [("verse" : str)] [("verse" : str)]);
    try reflexivity.
  right. discriminate.
Defined.

(** A blank document is refused before the scan, and on one line a
    misplaced closing directive is reported before the brackets. *)
Example validate_before_the_checks :
  validate " " = (false, Some ("Content cannot be empty" : str))
  /\ validate "{eoc}["
     = (false, Some ("Line 1: Unexpected end_of_chorus" : str)).
Proof. split; reflexivity. Qed.

(** The messages of the scan. *)

Lemma Err_inj {A : Type} (a b : str) : @Err A a = Err b -> a = b.
Proof. congruence. Qed.

Lemma close_block_err n kind st msg :
  close_block n kind st = Err msg ->
  msg = "Line " ++ str_of_nat n ++ ": Unexpected end_of_" ++ kind.
Proof.
  unfold close_block.
  destruct (is_nil st || negb (str_eqb (last st []) kind));
    [|discriminate].
  intros H. injection H as H. now subst msg.
Qed.

Lemma on_directive_err n st d msg :
  on_directive n st d = Err msg ->
  exists kind : string,
    msg = "Line " ++ str_of_nat n ++ ": Unexpected end_of_" ++ kind.
Proof.
  unfold on_directive.
  repeat match goal with
  | |- context [if ?b then _ else _] => destruct b
  end; intros H; try discriminate H;
    apply close_block_err in H; eexists; exact H.
Qed.

Lemma scan_directives_err n st ds msg :
  scan_directives n st ds = Err msg ->
  exists kind : string,
    msg = "Line " ++ str_of_nat n ++ ": Unexpected end_of_" ++ kind.
Proof.
  revert st; induction ds as [|[d v] ds IH]; intros st; simpl.
  - discriminate.
  - destruct (on_directive n st d) eqn:E; simpl; eauto.
    intros H; inversion H; subst. eapply on_directive_err; eauto.
Qed.

Lemma unexpected_is_not_unmatched n m (kind : string) :
  "Line " ++ str_of_nat n ++ ": Unexpected end_of_" ++ kind
  <> "Line " ++ str_of_nat m ++ ": Unmatched brackets in chords".
Proof.
  simpl. intros H. do 5 (apply (f_equal (@tl ascii)) in H; simpl in H).
  apply app_first_occurrence in H;
    try (apply digit_not_colon, str_of_nat_digits).
  destruct H as [_ H]. discriminate.
Qed.

Lemma unmatched_line_number n m :
  "Line " ++ str_of_nat n ++ ": Unmatched brackets in chords"
  = "Line " ++ str_of_nat m ++ ": Unmatched brackets in chords" -> n = m.
Proof.
  simpl. intros H. do 5 (apply (f_equal (@tl ascii)) in H; simpl in H).
  apply app_first_occurrence in H;
    try (apply digit_not_colon, str_of_nat_digits).
  destruct H as [H _]. now apply str_of_nat_inj.
Qed.

(** An unmatched-brackets message names a line whose counts differ. *)
Lemma scan_lines_unmatched k st lines m :
  scan_lines k st lines
  = Err ("Line " ++ str_of_nat m ++ ": Unmatched brackets in chords") ->
  exists i line,
    m = k + i /\ nth_error lines i = Some line
    /\ count "[" line <> count "]" line.
Proof.
  revert k st; induction lines as [|l lines IH]; intros k st; simpl.
  - discriminate.
  - unfold scan_line.
    destruct (scan_directives k st (findall l)) as [ob|msg] eqn:E; simpl.
    + unfold check_brackets.
      destruct (Nat.eqb (count "[" l) (count "]" l)) eqn:C; simpl.
      * intros H. apply IH in H. destruct H as (i & line & -> & Hn & Hc).
        exists (S i), line. split; [lia|]. auto.
      * intros H. apply Err_inj, unmatched_line_number in H. subst m.
        exists 0, l. split; [lia|]. split; [reflexivity|].
        now apply Nat.eqb_neq.
    + intros H. apply scan_directives_err in E. destruct E as [kind ->].
      now apply Err_inj, unexpected_is_not_unmatched in H.
Qed.

(** C5. The scan compares the numbers of opening and closing brackets of
    each line it handles: where it reaches a line whose numbers differ, the
    directives of that line raising no error, [validate] returns [False]
    with "Line n: Unmatched brackets in chords"; and a line with equal
    numbers is never the line such a message names. *)
Theorem validate_unmatched_brackets :
  (forall (content : str) (pre post : list str) (line : str)
          (stack stack' : list str),
      nonempty (strip content) = true ->
      split NL content = pre ++ line :: post ->
      scan_lines 1 [] pre = Ok stack ->
      scan_directives (S (length pre)) stack (findall line) = Ok stack' ->
      count "[" line <> count "]" line ->
      validate content =
      (false, Some ("Line " ++ str_of_nat (S (length pre))
                    ++ ": Unmatched brackets in chords")))
  /\ (forall (content : str) (n : nat) (line : str),
      nth_error (split NL content) n = Some line ->
      count "[" line = count "]" line ->
      validate content <>
      (false, Some ("Line " ++ str_of_nat (S n)
                    ++ ": Unmatched brackets in chords"))).
Proof.
  split.
  - intros content pre post line stack stack' Hne Hsplit Hpre Hdir Hcount.
    rewrite (validate_scan _ Hne), Hsplit, scan_lines_app, Hpre.
    simpl. unfold scan_line. rewrite Hdir. simpl.
    unfold check_brackets.
    apply Nat.eqb_neq in Hcount. rewrite Hcount. reflexivity.
  - intros content n line Hnth Hcount.
    destruct (nonempty (strip content)) eqn:Hne.
    + rewrite (validate_scan _ Hne).
      destruct (scan_lines 1 [] (split NL content)) as [ob|msg] eqn:E.
      * destruct ob; simpl; discriminate.
      * intros H.
        assert (Hm : msg = "Line " ++ str_of_nat (S n)
                           ++ ": Unmatched brackets in chords")
          by congruence.
        rewrite Hm in E. clear H Hm.
        apply scan_lines_unmatched in E.
        destruct E as (i & line' & Hi & Hn & Hc).
        assert (i = n) by lia. subst i.
        rewrite Hnth in Hn. inversion Hn; subst. contradiction.
    + unfold validate. rewrite Hne, orb_true_r. discriminate.
Qed.

Lemma validate_unmatched_brackets_witness :
  validate ("{soc}" ++ [NL] ++ "[Am]la [C la{eoc}" ++ [NL] ++ "{eov}")
  = (false, Some ("Line 2: Unmatched brackets in chords" : str))
  /\ validate ("{soc}" ++ [NL] ++ "[Am]la [C la{eoc}" ++ [NL] ++ "{eov}")
     <> (false, Some ("Line 1: Unmatched brackets in chords" : str)).
Proof.
  split.
  - apply (proj1 validate_unmatched_brackets
             ("{soc}" ++ [NL] ++ "[Am]la [C la{eoc}" ++ [NL] ++ "{eov}")
             [("{soc}" : str)] [("{eov}" : str)] "[Am]la [C la{eoc}"
             [("chorus" : str)] []);
      try reflexivity.
    simpl. discriminate.
  - apply (proj2 validate_unmatched_brackets
             ("{soc}" ++ [NL] ++ "[Am]la [C la{eoc}" ++ [NL] ++ "{eov}")
             0 "{soc}");
      reflexivity.
Defined.

(** ** The tokenizer *)

Lemma slice_prefix (p s : str) (i : nat) :
  i <= length p -> slice (p ++ s) i (length p) = skipn i p.
Proof.
  intros H. unfold slice.
  rewrite skipn_app, firstn_app, length_skipn.
  replace (i - length p) with 0 by lia.
  replace (length p - i - (length p - i)) with 0 by lia.
  simpl. rewrite app_nil_r.
  apply firstn_all2. rewrite length_skipn. lia.
Qed.

Lemma text_segment_skipn (p : str) (i : nat) :
  i <= length p ->
  text_segment (skipn i p)
  = if (i <? length p)%nat then
      if nonempty (skipn i p) then [mk_segment text (skipn i p)] else []
    else [].
Proof.
  intros H. unfold text_segment.
  destruct (Nat.ltb_spec i (length p)) as [Hlt|Hge]; [reflexivity|].
  rewrite skipn_all2 by lia. reflexivity.
Qed.

(** The loop of [parse_line], started anywhere in the line, emits what the
    scan of the specification emits. *)
Lemma parse_line_loop (n : nat) :
  forall (p s : str) (segs : list segment) (last_end : nat),
    length s <= n -> last_end <= length p ->
    exists tail,
      trailing (p ++ s)
        (fold_left (on_match (p ++ s)) (finditer_from (length p) s)
                   (segs, last_end))
      = segs ++ tail
      /\ tokens (skipn last_end p) s tail.
Proof.
  induction n as [|n IH]; intros p s segs last_end Hn Hle.
  - destruct s; [|simpl in Hn; lia].
    exists (text_segment (skipn last_end p)). split; [|constructor].
    rewrite app_nil_r. simpl.
    rewrite text_segment_skipn by assumption.
    destruct (last_end <? length p)%nat; [|now rewrite app_nil_r].
    destruct (nonempty (skipn last_end p)); [reflexivity|].
    now rewrite app_nil_r.
  - destruct s as [|c r].
    + exists (text_segment (skipn last_end p)). split; [|constructor].
      rewrite app_nil_r. simpl.
      rewrite text_segment_skipn by assumption.
      destruct (last_end <? length p)%nat; [|now rewrite app_nil_r].
      destruct (nonempty (skipn last_end p)); [reflexivity|].
      now rewrite app_nil_r.
    + rewrite finditer_from_cons.
      destruct (chord_at (c :: r)) as [[body rest]|] eqn:E.
      * pose proof (chord_at_inv _ _ _ E) as [Es _].
        injection Es as -> ->.
        set (p' := p ++ "["%char :: body ++ ["]"%char]).
        assert (Hp' : length p' = length p + 2 + length body).
        { unfold p'. rewrite !length_app. simpl. rewrite length_app.
          simpl. lia. }
        assert (Hline : p ++ "["%char :: body ++ "]"%char :: rest
                        = p' ++ rest).
        { unfold p'. rewrite <- !app_assoc. simpl.
          rewrite <- app_assoc. reflexivity. }
        cbn [fold_left]. unfold on_match at 2.
        rewrite slice_prefix by assumption.
        rewrite <- Hp'. rewrite Hline.
        destruct (IH p' rest
                    ((if (last_end <? length p)%nat
                      then if nonempty (skipn last_end p)
                           then segs ++ [mk_segment text (skipn last_end p)]
                           else segs
                      else segs) ++ [mk_segment chord body])
                    (length p')) as [tail [Ht Htok]].
        { simpl in Hn. rewrite length_app in Hn. simpl in Hn. lia. }
        { lia. }
        rewrite skipn_all in Htok.
        exists (text_segment (skipn last_end p)
                ++ mk_segment chord body :: tail).
        split.
        -- rewrite Ht. rewrite text_segment_skipn by assumption.
           destruct (last_end <? length p)%nat;
             [destruct (nonempty (skipn last_end p))|];
             rewrite <- ?app_assoc; reflexivity.
        -- eapply tokens_chord; eauto.
      * replace (p ++ c :: r) with ((p ++ [c]) ++ r)
          by (rewrite <- app_assoc; reflexivity).
        replace (S (length p)) with (length (p ++ [c]))
          by (rewrite length_app; simpl; lia).
        destruct (IH (p ++ [c]) r segs last_end) as [tail [Ht Htok]].
        { simpl in Hn. lia. }
        { rewrite length_app. lia. }
        exists tail. split; [assumption|].
        apply tokens_char; [assumption|].
        rewrite skipn_app in Htok.
        replace (last_end - length p) with 0 in Htok by lia.
        exact Htok.
Qed.

Lemma parse_line_tokens (line : str) : tokens [] line (parse_line line).
Proof.
  unfold parse_line.
  destruct (parse_line_loop (length line) [] line [] 0) as [tail [Ht Htok]];
    [lia | simpl; lia |].
  simpl in Ht. unfold finditer. rewrite Ht. exact Htok.
Qed.

Lemma tokens_deterministic held s segs1 segs2 :
  tokens held s segs1 -> tokens held s segs2 -> segs1 = segs2.
Proof.
  intros H1; revert segs2.
  induction H1 as [held | held s body rest segs E _ IH | held c r segs E _ IH];
    intros segs2 H2; inversion H2; subst;
    try match goal with
        | H : chord_at [] = Some _ |- _ => discriminate H
        | H : chord_at ?s = Some _, H' : chord_at ?s = None |- _ =>
            rewrite H in H'; discriminate H'
        end.
  - reflexivity.
  - match goal with
    | H : chord_at _ = Some (?b, ?r) |- _ =>
        rewrite E in H; injection H as <- <-
    end.
    f_equal. f_equal. now apply IH.
  - now apply IH.
Qed.

Lemma render_text_segment (held : str) :
  concat (map render (text_segment held)) = held.
Proof.
  destruct held; [reflexivity|].
  unfold text_segment. simpl. unfold render. simpl.
  now rewrite app_nil_r.
Qed.

Lemma tokens_render held s segs :
  tokens held s segs -> concat (map render segs) = held ++ s.
Proof.
  induction 1 as [held | held s body rest segs E _ IH | held c r segs E _ IH].
  - rewrite app_nil_r. apply render_text_segment.
  - apply chord_at_inv in E. destruct E as [-> _].
    rewrite map_app, concat_app, render_text_segment.
    simpl in *. rewrite IH. unfold render. simpl.
    rewrite <- app_assoc. reflexivity.
  - rewrite IH, <- app_assoc. reflexivity.
Qed.

Lemma tokens_nonempty held s segs :
  tokens held s segs -> Forall (fun seg => seg_content seg <> []) segs.
Proof.
  assert (Ht : forall h, Forall (fun seg => seg_content seg <> [])
                                (text_segment h)).
  { intros [|x h]; unfold text_segment; simpl; repeat constructor.
    discriminate. }
  induction 1 as [held | held s body rest segs E _ IH | held c r segs E _ IH];
    auto.
  apply Forall_app. split; [apply Ht|].
  constructor; [|assumption].
  apply chord_at_inv in E. tauto.
Qed.

(** C6. [parse_line] is the left-to-right scan of the specification: it
    emits exactly the segments of that scan (held text before a chord span
    and at the end of the line only when it is not empty, the content of
    each span without its brackets), no segment is empty, the empty line
    gives no segment, and the line of the specification gives its five
    segments. *)
Theorem parse_line_is_scan :
  (forall line : str, tokens [] line (parse_line line))
  /\ (forall (line : str) (segs : list segment),
         tokens [] line segs -> segs = parse_line line)
  /\ (forall line : str,
         Forall (fun seg => seg_content seg <> []) (parse_line line))
  /\ parse_line "" = []
  /\ parse_line "Amazing [G]grace, how [C]sweet"
     = [mk_segment text "Amazing "; mk_segment chord "G";
        mk_segment text "grace, how "; mk_segment chord "C";
        mk_segment text "sweet"].
Proof.
  split; [exact parse_line_tokens|].
  split.
  { intros line segs H.
    exact (tokens_deterministic _ _ _ _ H (parse_line_tokens line)). }
  split.
  { intros line. exact (tokens_nonempty _ _ _ (parse_line_tokens line)). }
  split; reflexivity.
Qed.

(** C9. [parse_line] loses no character: the contents of its segments, in
    order, each chord put back between brackets, make up the line. *)
Theorem parse_line_lossless (line : str) :
  concat (map render (parse_line line)) = line.
Proof.
  exact (tokens_render _ _ _ (parse_line_tokens line)).
Qed.

(** ** The normalizer *)

Lemma replace_crlf_two c d r :
  replace_crlf (c :: d :: r) =
  if Ascii.eqb c CR && Ascii.eqb d NL then NL :: replace_crlf r
  else c :: replace_crlf (d :: r).
Proof. reflexivity. Qed.

Lemma unify_newlines_two c d r :
  unify_newlines (c :: d :: r) =
  if Ascii.eqb c CR then
    NL :: (if Ascii.eqb d NL then unify_newlines r
           else unify_newlines (d :: r))
  else c :: unify_newlines (d :: r).
Proof. reflexivity. Qed.

Lemma replace_cr_cons c r :
  replace_cr (c :: r) = (if Ascii.eqb c CR then NL else c) :: replace_cr r.
Proof. reflexivity. Qed.

Lemma replace_unify_bounded (n : nat) :
  forall s : str, length s <= n ->
    replace_cr (replace_crlf s) = unify_newlines s.
Proof.
  induction n as [|n IH]; intros s Hn.
  - destruct s; [reflexivity|simpl in Hn; lia].
  - destruct s as [|c [|d r]]; [reflexivity| |].
    + simpl. destruct (Ascii.eqb c CR); reflexivity.
    + rewrite replace_crlf_two, unify_newlines_two.
      simpl in Hn.
      destruct (Ascii.eqb c CR) eqn:Hc; destruct (Ascii.eqb d NL) eqn:Hd;
        cbn [andb]; rewrite replace_cr_cons, ?Hc;
        try change (Ascii.eqb NL CR) with false; cbv iota;
        f_equal; apply IH; simpl; lia.
Qed.

Lemma replace_unify (s : str) :
  replace_cr (replace_crlf s) = unify_newlines s.
Proof. apply (replace_unify_bounded (length s)). lia. Qed.

Lemma fold_on_clean_line lines acc c :
  fst (fold_left on_clean_line lines (acc, c)) = acc ++ kept_lines c lines.
Proof.
  revert acc c; induction lines as [|l lines IH]; intros acc c; simpl.
  - now rewrite app_nil_r.
  - destruct (negb (nonempty l)).
    + destruct c as [|[|c]]; simpl; rewrite IH, <- ?app_assoc; reflexivity.
    + rewrite IH, <- app_assoc. reflexivity.
Qed.

Lemma kept_lines_saturated c lines :
  2 <= c -> kept_lines c lines = kept_lines 2 lines.
Proof.
  revert c; induction lines as [|l lines IH]; intros c Hc; simpl; auto.
  destruct (negb (nonempty l)); [|reflexivity].
  destruct c as [|[|c]]; try lia. simpl.
  rewrite (IH (S (S (S c)))) by lia. rewrite (IH 3) by lia. reflexivity.
Qed.

Lemma cap_blank_runs_cons a r :
  cap_blank_runs (a :: r) =
  match r with
  | b :: c :: _ =>
      if is_nil a && is_nil b && is_nil c then cap_blank_runs r
      else a :: cap_blank_runs r
  | _ => a :: cap_blank_runs r
  end.
Proof. destruct r as [|b [|c r]]; reflexivity. Qed.

Lemma cap_blank_runs_text (x : ascii) (l : str) r :
  cap_blank_runs ((x :: l) :: r) = (x :: l) :: cap_blank_runs r.
Proof. rewrite cap_blank_runs_cons. destruct r as [|b [|c r]]; reflexivity. Qed.

Lemma cap_blank_runs_before_text a (x : ascii) (l : str) r :
  cap_blank_runs (a :: (x :: l) :: r) = a :: cap_blank_runs ((x :: l) :: r).
Proof.
  rewrite cap_blank_runs_cons. destruct r as [|c r]; [reflexivity|].
  destruct a; reflexivity.
Qed.

Lemma cap_blank_runs_kept c lines :
  c <= 2 ->
  cap_blank_runs (repeat [] c ++ lines) = repeat [] c ++ kept_lines c lines.
Proof.
  revert c; induction lines as [|l lines IH]; intros c Hc.
  - rewrite app_nil_r. destruct c as [|[|[|c]]]; try lia; reflexivity.
  - destruct l as [|x l].
    + (* a blank line *)
      destruct c as [|[|[|c]]]; try lia.
      * exact (IH 1 ltac:(lia)).
      * exact (IH 2 ltac:(lia)).
      * change (kept_lines 2 ([] :: lines)) with (kept_lines 3 lines).
        rewrite (kept_lines_saturated 3) by lia.
        rewrite <- (IH 2) by lia. reflexivity.
    + (* a line with text *)
      change (kept_lines c ((x :: l) :: lines))
        with ((x :: l) :: kept_lines 0 lines).
      pose proof (IH 0 (Nat.le_0_l 2)) as H0. cbn [repeat app] in H0.
      rewrite <- H0.
      destruct c as [|[|[|c]]]; try lia; cbn [repeat app].
      * apply cap_blank_runs_text.
      * now rewrite cap_blank_runs_before_text, cap_blank_runs_text.
      * rewrite cap_blank_runs_cons. cbn [is_nil andb].
        now rewrite cap_blank_runs_before_text, cap_blank_runs_text.
Qed.

Lemma pop_empty_rev_snoc x a :
  pop_empty_rev (x ++ [a]) =
  match pop_empty_rev x with
  | [] => if is_nil a then [] else [a]
  | y => y ++ [a]
  end.
Proof.
  induction x as [|l x IH]; simpl.
  - destruct a; reflexivity.
  - destruct l; simpl; [exact IH|reflexivity].
Qed.

Lemma pop_trailing_empty_spec lines :
  pop_trailing_empty lines = drop_trailing_blank lines.
Proof.
  unfold pop_trailing_empty. induction lines as [|a r IH]; [reflexivity|].
  cbn [rev drop_trailing_blank]. rewrite pop_empty_rev_snoc, <- IH.
  destruct (pop_empty_rev (rev r)) as [|h t] eqn:E.
  - destruct a; reflexivity.
  - rewrite rev_app_distr. cbn [rev app].
    destruct (rev t ++ [h]) eqn:E'; [|reflexivity].
    destruct (rev t); discriminate.
Qed.

Lemma clean_lines_spec (content : str) :
  clean_lines content
  = drop_trailing_blank
      (cap_blank_runs (map rstrip (split NL (unify_newlines content)))).
Proof.
  unfold clean_lines. rewrite replace_unify.
  pose proof (fold_on_clean_line
                (map rstrip (split NL (unify_newlines content))) [] 0) as H.
  destruct (fold_left on_clean_line _ _) as [cleaned n]. simpl in H.
  rewrite H, pop_trailing_empty_spec.
  f_equal. symmetry.
  exact (cap_blank_runs_kept 0 _ (Nat.le_0_l 2)).
Qed.

(** What the cleaned lines look like. *)

Lemma dropwhile_suffix p (s : str) : exists t, s = t ++ dropwhile p s.
Proof.
  induction s as [|c r [t IH]]; simpl.
  - now exists [].
  - destruct (p c); [|now exists []].
    exists (c :: t). simpl. now f_equal.
Qed.

Lemma dropwhile_idem p (s : str) :
  dropwhile p (dropwhile p s) = dropwhile p s.
Proof.
  induction s as [|c r IH]; simpl; auto.
  destruct (p c) eqn:E; auto. simpl. now rewrite E.
Qed.

Lemma rstrip_prefix (l : str) : exists t, l = rstrip l ++ t.
Proof.
  unfold rstrip. destruct (dropwhile_suffix isspace (rev l)) as [t H].
  exists (rev t). rewrite <- rev_app_distr, <- H. now rewrite rev_involutive.
Qed.

Lemma rstrip_idem (l : str) : rstrip (rstrip l) = rstrip l.
Proof.
  unfold rstrip. now rewrite rev_involutive, dropwhile_idem.
Qed.

Lemma in_rstrip c (l : str) : In c (rstrip l) -> In c l.
Proof.
  destruct (rstrip_prefix l) as [t H]. intros Hc.
  rewrite H. apply in_or_app. now left.
Qed.

Lemma in_split sep s x c : In x (split sep s) -> In c x -> In c s.
Proof.
  revert x; induction s as [|d r IH]; intros x; simpl.
  - intros [<-|[]]; auto.
  - destruct (Ascii.eqb d sep).
    + intros [<-|H] Hc; [destruct Hc|]. right. eapply IH; eauto.
    + destruct (split sep r) as [|h t] eqn:E.
      * intros [<-|[]] [<-|[]]. now left.
      * intros [<-|H] Hc.
        -- destruct Hc as [<-|Hc]; [now left|].
           right. apply (IH h); simpl; auto.
        -- right. apply (IH x); simpl; auto.
Qed.

Lemma in_cap_blank_runs x lines :
  In x (cap_blank_runs lines) -> In x lines.
Proof.
  induction lines as [|a r IH]; simpl; [tauto|].
  destruct r as [|b [|c r']];
    try (intros [H|H]; [now left | right; now apply IH]).
  destruct (is_nil a && is_nil b && is_nil c).
  - intros H. right. now apply IH.
  - intros [H|H]; [now left | right; now apply IH].
Qed.

Lemma drop_trailing_blank_prefix lines :
  exists q, lines = drop_trailing_blank lines ++ q.
Proof.
  induction lines as [|a r [q IH]]; simpl.
  - now exists [].
  - destruct (drop_trailing_blank r) as [|h t].
    + destruct a as [|c a]; simpl.
      * now exists ([] :: r).
      * exists r. reflexivity.
    + exists q. simpl in *. now f_equal.
Qed.

Lemma in_drop_trailing_blank x lines :
  In x (drop_trailing_blank lines) -> In x lines.
Proof.
  destruct (drop_trailing_blank_prefix lines) as [q H]. intros Hx.
  rewrite H. apply in_or_app. now left.
Qed.

Lemma drop_trailing_blank_last lines :
  drop_trailing_blank lines = []
  \/ last (drop_trailing_blank lines) [] <> [].
Proof.
  induction lines as [|a r IH]; simpl; [now left|].
  destruct (drop_trailing_blank r) as [|h t] eqn:E.
  - destruct a as [|c a]; simpl; [now left|]. right. discriminate.
  - right. destruct IH as [IH|IH]; [discriminate|]. exact IH.
Qed.

Lemma three_blank_tail a r : three_blank (a :: r) = false -> three_blank r = false.
Proof.
  simpl. destruct r as [|b [|c r']]; try reflexivity.
  intros H. apply orb_false_iff in H. tauto.
Qed.

Lemma three_blank_none lines :
  three_blank lines = false ->
  forall a b, lines <> a ++ [[]; []; []] ++ b.
Proof.
  intros H a; revert lines H; induction a as [|x a IH]; intros lines H b E.
  - subst lines. discriminate H.
  - subst lines. simpl in IH. apply three_blank_tail in H.
    exact (IH _ H b eq_refl).
Qed.

Lemma three_blank_text_line (l : str) lines :
  l <> [] -> three_blank lines = false -> three_blank (l :: lines) = false.
Proof.
  intros Hl H. destruct l as [|x l]; [congruence|].
  destruct lines as [|b [|c r]]; try reflexivity. exact H.
Qed.

Lemma kept_lines_no_three_blank c lines :
  c <= 2 -> three_blank (repeat [] c ++ kept_lines c lines) = false.
Proof.
  revert c; induction lines as [|l lines IH]; intros c Hc.
  - destruct c as [|[|[|c]]]; try lia; reflexivity.
  - destruct l as [|x l]; cbn [kept_lines nonempty negb].
    + destruct c as [|[|[|c]]]; try lia.
      * apply (IH 1). lia.
      * apply (IH 2). lia.
      * rewrite (kept_lines_saturated 3) by lia. apply (IH 2). lia.
    + assert (H : three_blank ((x :: l) :: kept_lines 0 lines) = false).
      { apply three_blank_text_line; [discriminate|]. apply (IH 0). lia. }
      destruct c as [|[|[|c]]]; try lia; simpl repeat; simpl app.
      * exact H.
      * simpl. destruct (kept_lines 0 lines); [reflexivity|exact H].
      * simpl. destruct (kept_lines 0 lines); [reflexivity|exact H].
Qed.

Lemma unify_newlines_no_cr (s : str) : ~ In CR (unify_newlines s).
Proof.
  rewrite <- replace_unify. unfold replace_cr. rewrite in_map_iff.
  intros [c [H _]]. destruct (Ascii.eqb_spec c CR); [discriminate|congruence].
Qed.

Lemma clean_lines_origin content x :
  In x (clean_lines content) ->
  exists y, In y (split NL (unify_newlines content)) /\ x = rstrip y.
Proof.
  rewrite clean_lines_spec. intros H.
  apply in_drop_trailing_blank, in_cap_blank_runs, in_map_iff in H.
  destruct H as [y [H1 H2]]. exists y. auto.
Qed.

Lemma clean_lines_chars content x c :
  In x (clean_lines content) -> In c x -> c <> NL /\ c <> CR.
Proof.
  intros Hx Hc. apply clean_lines_origin in Hx.
  destruct Hx as [y [Hy ->]]. apply in_rstrip in Hc. split; intros ->.
  - pose proof (split_pieces NL (unify_newlines content)) as H.
    rewrite Forall_forall in H. exact (H _ Hy Hc).
  - apply (unify_newlines_no_cr content). eapply in_split; eauto.
Qed.

(** The lines of the cleaned text are the cleaned lines; with none left the
    text is empty and has one empty line. *)
Lemma clean_content_lines content :
  split NL (clean_content content) =
  match clean_lines content with
  | [] => [[]]
  | _ :: _ => clean_lines content
  end.
Proof.
  unfold clean_content.
  destruct (clean_lines content) as [|l ls] eqn:E; [reflexivity|].
  apply split_join; [discriminate|].
  apply Forall_forall. intros x Hx Hc. rewrite <- E in Hx.
  now destruct (clean_lines_chars _ _ _ Hx Hc).
Qed.

Lemma clean_lines_no_three_blank content :
  three_blank (clean_lines content) = false.
Proof.
  rewrite clean_lines_spec.
  set (lines := map rstrip (split NL (unify_newlines content))).
  pose proof (kept_lines_no_three_blank 0 lines (Nat.le_0_l 2)) as H.
  pose proof (cap_blank_runs_kept 0 lines (Nat.le_0_l 2)) as K.
  cbn [repeat app] in H, K. rewrite <- K in H. clear K.
  destruct (drop_trailing_blank_prefix (cap_blank_runs lines)) as [q Hq].
  destruct (three_blank (drop_trailing_blank (cap_blank_runs lines))) eqn:T;
    [|reflexivity].
  exfalso. revert H T Hq.
  generalize (drop_trailing_blank (cap_blank_runs lines)).
  generalize (cap_blank_runs lines). intros full pre H T Hq. subst full.
  induction pre as [|a pre IH]; [discriminate|].
  apply three_blank_tail in H as H'. simpl in T, H.
  destruct pre as [|b [|c pre]]; try discriminate.
  simpl in H. apply orb_false_iff in H. destruct H as [H1 H2].
  rewrite H1 in T. simpl in T. apply IH; assumption.
Qed.

(** The stripping of the specification is the [rstrip] of the code, and
    it is the only way to cut a white-space end off a line so that what
    stays is empty or ends in text. *)
Lemma dropwhile_app_last p (s : str) c :
  dropwhile p (s ++ [c])
  = match dropwhile p s with
    | [] => if p c then [] else [c]
    | d => d ++ [c]
    end.
Proof.
  induction s as [|x s IH]; simpl; [reflexivity|].
  destruct (p x); [exact IH|reflexivity].
Qed.

Lemma rstrip_strip_trailing (line : str) : rstrip line = strip_trailing line.
Proof.
  unfold rstrip. induction line as [|c r IH]; [reflexivity|].
  cbn [rev strip_trailing]. rewrite dropwhile_app_last, <- IH.
  destruct (dropwhile isspace (rev r)) as [|x d] eqn:E.
  - cbn [rev]. now destruct (isspace c).
  - rewrite rev_app_distr. cbn [rev app].
    destruct (rev d ++ [x]) eqn:E'; [|reflexivity].
    destruct (rev d); discriminate E'.
Qed.

Lemma strip_trailing_ends_in_text (line : str) :
  ends_in_text (strip_trailing line).
Proof.
  unfold ends_in_text. induction line as [|c r IH]; [now left|].
  cbn [strip_trailing]. destruct (strip_trailing r) as [|x t].
  - destruct (isspace c) eqn:E; [now left|now right].
  - right. destruct IH as [IH|IH]; [discriminate|exact IH].
Qed.

Lemma strip_trailing_suffix (line : str) :
  exists w, line = strip_trailing line ++ w /\ forallb isspace w = true.
Proof.
  induction line as [|c r [w [E Hw]]]; [now exists []|].
  cbn [strip_trailing]. destruct (strip_trailing r) as [|x t].
  - destruct (isspace c) eqn:S.
    + exists (c :: w). cbn [app forallb]. rewrite S, Hw.
      split; [now f_equal|reflexivity].
    + exists w. cbn [app]. split; [now f_equal|assumption].
  - exists w. cbn [app] in *. split; [now f_equal|assumption].
Qed.

Lemma ends_in_text_unique (x x' w w' : str) :
  x ++ w = x' ++ w' ->
  forallb isspace w = true -> forallb isspace w' = true ->
  ends_in_text x -> ends_in_text x' -> x = x'.
Proof.
  revert x'. induction x as [|c x IH]; intros x' E Hw Hw' Hx Hx'.
  - destruct x' as [|c' x']; [reflexivity|]. exfalso.
    destruct Hx' as [Hx'|Hx']; [discriminate|].
    cbn [app] in E. subst w. rewrite forallb_forall in Hw.
    rewrite Hw in Hx'; [discriminate|].
    change (c' :: x' ++ w') with ((c' :: x') ++ w').
    apply in_or_app. left.
    clear. revert c'. induction x' as [|d x' IH]; intros c'; [now left|].
    right. apply IH.
  - destruct x' as [|c' x'].
    + exfalso. destruct Hx as [Hx|Hx]; [discriminate|].
      cbn [app] in E. subst w'. rewrite forallb_forall in Hw'.
      rewrite Hw' in Hx; [discriminate|].
      change (c :: x ++ w) with ((c :: x) ++ w).
      apply in_or_app. left.
      clear. revert c. induction x as [|d x IH]; intros c; [now left|].
      right. apply IH.
    + cbn [app] in E. injection E as <- E. f_equal.
      apply (IH x' E Hw Hw').
      * destruct x as [|d x]; [now left|]. right.
        destruct Hx as [Hx|Hx]; [discriminate|exact Hx].
      * destruct x' as [|d x']; [now left|]. right.
        destruct Hx' as [Hx'|Hx']; [discriminate|exact Hx'].
Qed.

Lemma clean_lines_nil_first a r :
  drop_trailing_blank (cap_blank_runs (a :: r)) = [] -> a = [].
Proof.
  rewrite cap_blank_runs_cons.
  assert (H : forall X, drop_trailing_blank (a :: X) = [] -> a = []).
  { intros X. cbn [drop_trailing_blank].
    destruct (drop_trailing_blank X); [|discriminate].
    destruct a; [reflexivity|discriminate]. }
  destruct r as [|b [|c r']]; try apply H.
  destruct a; [reflexivity|]. apply H.
Qed.

(** Every line of the cleaned text is a line of the text, after the
    newlines are unified, without a white-space end. *)
Lemma clean_content_line_origin content x :
  In x (split NL (clean_content content)) ->
  exists y w, In y (split NL (unify_newlines content))
              /\ y = x ++ w /\ forallb isspace w = true.
Proof.
  rewrite clean_content_lines.
  destruct (clean_lines content) as [|l ls] eqn:E.
  - intros [<-|[]]. rewrite clean_lines_spec in E.
    pose proof (split_not_nil NL (unify_newlines content)) as Hn.
    destruct (split NL (unify_newlines content)) as [|y ys]; [congruence|].
    cbn [map] in E. apply clean_lines_nil_first in E.
    destruct (strip_trailing_suffix y) as [w [Ey Hw]].
    rewrite <- rstrip_strip_trailing, E in Ey.
    exists y, w. split; [now left|]. split; assumption.
  - rewrite <- E. intros Hx. apply clean_lines_origin in Hx.
    destruct Hx as [y [Hy ->]].
    destruct (strip_trailing_suffix y) as [w [Ey Hw]].
    rewrite <- rstrip_strip_trailing in Ey. now exists y, w.
Qed.

(** C7. [clean_content] is the normalizer of the specification on every
    text: [CR LF] and bare [CR] become [LF], every line loses its trailing
    whitespace, a run of more than two blank lines is cut to two and the
    blank lines at the end are removed.  The cleaned text has no [CR], none
    of its lines ends in whitespace, it has no three blank lines in a row
    and, unless it is empty, its last line is not blank.  The stripping is
    stated on the characters: every line of the cleaned text is empty or
    ends in a character that is no white space, and it is a line of the
    text, newlines unified, from which only white space was cut at the
    end.  The empty text gives the empty text, the text of the
    specification gives "a\nb\n\n\nc", and a text with blanks and a tab at
    the ends of its lines loses them. *)
Theorem clean_content_normalizes :
  (forall content : str, clean_content content = normalize_spec content)
  /\ (forall content : str, ~ In CR (clean_content content))
  /\ (forall content : str,
         Forall (fun line => rstrip line = line)
                (split NL (clean_content content)))
  /\ (forall (content : str) (a b : list str),
         split NL (clean_content content) <> a ++ [[]; []; []] ++ b)
  /\ (forall content : str,
         clean_content content = []
         \/ last (split NL (clean_content content)) [] <> [])
  /\ clean_content "" = ""
  /\ clean_content ("a" ++ [CR; NL] ++ "b" ++ [CR; NL; CR; NL; CR; NL; CR; NL]
                    ++ "c" ++ [NL; NL])
     = "a" ++ [NL] ++ "b" ++ [NL; NL; NL] ++ "c"
  /\ (forall content : str,
         Forall (fun line => line = []
                             \/ isspace (last line " "%char) = false)
                (split NL (clean_content content)))
  /\ (forall content x : str,
         In x (split NL (clean_content content)) ->
         exists y w : str,
           In y (split NL (unify_newlines content))
           /\ y = x ++ w /\ forallb isspace w = true)
  /\ clean_content ("a  " ++ [NL] ++ " b" ++ ["009"%char; " "%char]
                    ++ [CR; NL] ++ "  ")
     = "a" ++ [NL] ++ " b".
Proof.
  split.
  { intros content. unfold clean_content, normalize_spec.
    rewrite clean_lines_spec.
    now rewrite (map_ext _ _ rstrip_strip_trailing). }
  split.
  { intros content H. unfold clean_content in H. apply in_join in H.
    destruct H as [[H|[]]|[x [Hx Hc]]]; [discriminate|].
    now destruct (clean_lines_chars _ _ _ Hx Hc). }
  split.
  { intros content. rewrite clean_content_lines.
    destruct (clean_lines content) as [|l ls] eqn:E.
    - repeat constructor.
    - rewrite <- E. apply Forall_forall. intros x Hx.
      apply clean_lines_origin in Hx. destruct Hx as [y [_ ->]].
      apply rstrip_idem. }
  split.
  { intros content. apply three_blank_none. rewrite clean_content_lines.
    pose proof (clean_lines_no_three_blank content) as H.
    destruct (clean_lines content); [reflexivity|exact H]. }
  split.
  { intros content. rewrite clean_content_lines.
    unfold clean_content.
    pose proof (drop_trailing_blank_last
                  (cap_blank_runs
                     (map rstrip (split NL (unify_newlines content))))) as H.
    rewrite <- clean_lines_spec in H.
    destruct (clean_lines content) as [|l ls]; [now left|].
    destruct H as [H|H]; [discriminate|now right]. }
  split; [reflexivity|].
  split; [reflexivity|].
  split.
  { intros content. rewrite clean_content_lines.
    destruct (clean_lines content) as [|l ls] eqn:E.
    - constructor; [now left|constructor].
    - rewrite <- E. apply Forall_forall. intros x Hx.
      apply clean_lines_origin in Hx. destruct Hx as [y [_ ->]].
      rewrite rstrip_strip_trailing. apply strip_trailing_ends_in_text. }
  split; [exact clean_content_line_origin|].
  reflexivity.
Qed.

(** ** The metadata extractor *)

Section ExtractProperties.

Variable int_of_str : str -> option Z.

Lemma on_extract_capo md value :
  md_capo (on_extract_directive int_of_str md ("capo" : str, value))
  = Some (capo_of int_of_str value).
Proof. reflexivity. Qed.

Lemma on_extract_other md directive value :
  directive <> ("capo" : str) ->
  md_capo (on_extract_directive int_of_str md (directive, value))
  = md_capo md.
Proof.
  intros H. apply str_eqb_neq in H. unfold on_extract_directive.
  rewrite H.
  repeat match goal with
  | |- context [if ?b then _ else _] => destruct b
  end; reflexivity.
Qed.

Lemma fold_extract_no_capo ds md :
  (forall d v, In (d, v) ds -> d <> ("capo" : str)) ->
  md_capo (fold_left (on_extract_directive int_of_str) ds md) = md_capo md.
Proof.
  revert md; induction ds as [|[d v] ds IH]; intros md H; simpl; auto.
  rewrite IH by (intros d' v' Hin; apply (H d' v'); now right).
  apply on_extract_other. apply (H d v). now left.
Qed.

Lemma fold_extract_last_capo pre value post md :
  (forall d v, In (d, v) post -> d <> ("capo" : str)) ->
  md_capo (fold_left (on_extract_directive int_of_str)
                     (pre ++ ("capo" : str, value) :: post) md)
  = Some (capo_of int_of_str value).
Proof.
  intros H. rewrite fold_left_app. simpl.
  rewrite fold_extract_no_capo by assumption.
  apply on_extract_capo.
Qed.

(** A list of directives has a last [capo] or none. *)
Lemma last_capo_or_none (ds : list (str * str)) :
  (forall d v, In (d, v) ds -> d <> ("capo" : str))
  \/ exists pre value post,
       ds = pre ++ ("capo" : str, value) :: post
       /\ (forall d v, In (d, v) post -> d <> ("capo" : str)).
Proof.
  induction ds as [|[d v] ds IH].
  - left. intros d v [].
  - destruct IH as [IH|(pre & value & post & -> & Hpost)].
    + destruct (str_eqb d "capo") eqn:E.
      * apply str_eqb_eq in E. subst d.
        right. exists [], v, ds. auto.
      * apply str_eqb_neq in E. left.
        intros d' v' [[= <- <-]|Hin]; eauto.
    + right. exists ((d, v) :: pre), value, post. auto.
Qed.

Lemma last_capo_unique (pre post pre' post' : list (str * str))
    (value value' : str) :
  pre ++ ("capo" : str, value) :: post
  = pre' ++ ("capo" : str, value') :: post' ->
  (forall d v, In (d, v) post -> d <> ("capo" : str)) ->
  (forall d v, In (d, v) post' -> d <> ("capo" : str)) ->
  value = value'.
Proof.
  intros E Hpost Hpost'. revert pre' E.
  induction pre as [|[d v] pre IH]; intros [|[d' v'] pre'] E;
    simpl in E.
  - now injection E.
  - injection E as _ _ E. exfalso.
    apply (Hpost ("capo" : str) value'); [|reflexivity].
    rewrite E. apply in_or_app. right. now left.
  - injection E as _ _ E. exfalso.
    apply (Hpost' ("capo" : str) value); [|reflexivity].
    rewrite <- E. apply in_or_app. right. now left.
  - injection E as _ _ E. eapply IH; eauto.
Qed.

(** C2, as the code has it.  The [capo] field is unset exactly for the
    documents without a [capo] directive.  When it is set it is 0 or an
    integer that [int] parsed from the value of a [capo] directive of the
    document, and it is 0 when the last [capo] directive has no value or
    a value that [int] rejects. *)
Theorem capo_field_of_extract (content : str) :
  (md_capo (extract_metadata int_of_str content) = None
   <-> forall d v, In (d, v) (findall content) -> d <> ("capo" : str))
  /\ (forall n : Z,
         md_capo (extract_metadata int_of_str content) = Some n ->
         n = 0%Z
         \/ exists value, In ("capo" : str, value) (findall content)
                          /\ int_of_str value = Some n)
  /\ (forall pre value post,
         findall content = pre ++ ("capo" : str, value) :: post ->
         (forall d v, In (d, v) post -> d <> ("capo" : str)) ->
         value = [] \/ int_of_str value = None ->
         md_capo (extract_metadata int_of_str content) = Some 0%Z).
Proof.
  unfold extract_metadata.
  destruct (last_capo_or_none (findall content))
    as [Hnone|(pre & value & post & E & Hpost)].
  - rewrite fold_extract_no_capo by assumption. simpl.
    split; [tauto|]. split; [discriminate|].
    intros pre value post E _ _. exfalso.
    apply (Hnone ("capo" : str) value); [|reflexivity].
    rewrite E. apply in_or_app. right. now left.
  - rewrite E, fold_extract_last_capo by assumption.
    split; [|split].
    + split; [discriminate|]. intros H. exfalso.
      apply (H ("capo" : str) value); [|reflexivity].
      apply in_or_app. right. now left.
    + intros n [= <-]. unfold capo_of.
      destruct (nonempty value); [|now left].
      destruct (int_of_str value) as [n|] eqn:En; [|now left].
      right. exists value. split; [|assumption].
      apply in_or_app. right. now left.
    + intros pre' value' post' E' Hpost' Hv.
      apply last_capo_unique in E'; [|assumption|assumption].
      subst value'. unfold capo_of.
      destruct Hv as [->|Hv]; [reflexivity|].
      rewrite Hv. now destruct (nonempty value).
Qed.

End ExtractProperties.

(** A document without a [capo] directive leaves the field unset. *)
Lemma capo_unset_without_directive :
  md_capo (extract_metadata py_int "{title:Grace}Amazing [G]grace") = None.
Proof. reflexivity. Qed.

Example capo_examples :
  md_capo (extract_metadata py_int "{capo: 3 }{key:G}") = Some 3%Z
  /\ md_capo (extract_metadata py_int "{capo:3}{capo:third}") = Some 0%Z
  /\ md_capo (extract_metadata py_int "{capo}") = Some 0%Z
  /\ md_capo (extract_metadata py_int "{capo:-1_0}") = Some (-10)%Z.
Proof. repeat split; reflexivity. Qed.

(** ** The metadata merger *)

Lemma fields_of_cons d ds :
  fields_of (d :: ds) =
  match field_of (fst d) with
  | Some f => f :: fields_of ds
  | None => fields_of ds
  end.
Proof. unfold fields_of. simpl. now destruct (field_of (fst d)). Qed.

Lemma no_tracked_no_fields ds :
  existsb tracked ds = false -> fields_of ds = [].
Proof.
  induction ds as [|d ds IH]; simpl; auto.
  unfold tracked at 1. destruct (field_of (fst d)); simpl; auto.
  discriminate.
Qed.

Lemma content_line_fields line :
  is_metadata_line line = false -> line_fields line = [].
Proof. apply no_tracked_no_fields. Qed.

Lemma seen_mark f g mf :
  seen f (mark g mf) = true <-> seen f mf = true \/ g = f.
Proof.
  destruct f, g; simpl; split; intros H; auto;
    try (destruct H as [H|H]; [assumption|discriminate]).
Qed.

Lemma seen_fold f fs mf :
  seen f (fold_left (fun m g => mark g m) fs mf) = true
  <-> seen f mf = true \/ In f fs.
Proof.
  revert mf; induction fs as [|g fs IH]; intros mf; simpl.
  - tauto.
  - rewrite IH, seen_mark. tauto.
Qed.

Lemma flat_map_split_free (l : list str) :
  Forall (fun x => ~ In NL x) l -> flat_map (split NL) l = l.
Proof.
  induction 1 as [|x l Hx _ IH]; simpl; [reflexivity|].
  rewrite (split_no_sep _ _ Hx), IH. reflexivity.
Qed.

Lemma filter_split_free (p : str -> bool) content :
  Forall (fun x => ~ In NL x) (filter p (split NL content)).
Proof.
  apply Forall_forall. intros x Hx. apply filter_In in Hx.
  pose proof (split_pieces NL content) as H.
  rewrite Forall_forall in H. apply H. tauto.
Qed.

Lemma filter_both_nil (p : str -> bool) (l : list str) :
  filter p l = [] -> filter (fun x => negb (p x)) l = [] -> l = [].
Proof.
  destruct l as [|x l]; simpl; auto.
  destruct (p x); simpl; discriminate.
Qed.

Section InjectProperties.

Variables (title artist : option str) (capo : option Z) (key : option str).

Let canon := canonical title artist capo key.
Let rewrite_line := rewritten title artist capo key.

Lemma on_meta_directive_field line b mf d :
  on_meta_directive title artist capo key (line, b, mf) d =
  match field_of (fst d) with
  | Some f =>
      (match canon f with Some c => c | None => line end, true, mark f mf)
  | None => (line, b, mf)
  end.
Proof.
  unfold on_meta_directive, field_of, canon, canonical.
  destruct (str_in (fst d) ["title"; "t"]).
  { simpl. destruct (truthy title); reflexivity. }
  destruct (str_in (fst d) ["artist"; "a"]).
  { simpl. destruct (truthy artist); reflexivity. }
  destruct (str_eqb (fst d) "capo").
  { simpl. destruct capo; reflexivity. }
  destruct (str_eqb (fst d) "key").
  { simpl. destruct (truthy key); reflexivity. }
  reflexivity.
Qed.

Lemma inner_loop ds line b mf :
  fold_left (on_meta_directive title artist capo key) ds (line, b, mf) =
  (fold_left (fun l f => match canon f with Some c => c | None => l end)
             (fields_of ds) line,
   b || existsb tracked ds,
   fold_left (fun m f => mark f m) (fields_of ds) mf).
Proof.
  revert line b mf; induction ds as [|d ds IH]; intros line b mf.
  - simpl. now rewrite orb_false_r.
  - cbn [fold_left]. rewrite on_meta_directive_field, fields_of_cons.
    cbn [existsb]. unfold tracked at 1.
    destruct (field_of (fst d)) as [f|]; rewrite IH; cbn [fold_left orb].
    + now rewrite orb_true_r.
    + reflexivity.
Qed.

Lemma classify_line_cases metadata_lines content_lines mf line :
  classify_line title artist capo key
                (metadata_lines, content_lines, mf) line =
  if is_metadata_line line then
    (metadata_lines ++ [rewrite_line line], content_lines,
     fold_left (fun m f => mark f m) (line_fields line) mf)
  else (metadata_lines, content_lines ++ [line], mf).
Proof.
  unfold classify_line. rewrite inner_loop. simpl.
  unfold is_metadata_line.
  destruct (existsb tracked (findall line)) eqn:E; [reflexivity|].
  rewrite (no_tracked_no_fields _ E). reflexivity.
Qed.

Lemma outer_loop lines metadata_lines content_lines mf :
  fold_left (classify_line title artist capo key) lines
            (metadata_lines, content_lines, mf) =
  (metadata_lines ++ map rewrite_line (filter is_metadata_line lines),
   content_lines ++ filter is_content_line lines,
   fold_left (fun m f => mark f m) (flat_map line_fields lines) mf).
Proof.
  revert metadata_lines content_lines mf.
  induction lines as [|l lines IH]; intros M C mf.
  - simpl. now rewrite !app_nil_r.
  - cbn [fold_left]. rewrite classify_line_cases.
    cbn [filter flat_map]. unfold is_content_line at 1.
    destruct (is_metadata_line l) eqn:E; rewrite IH; cbn [negb map].
    + rewrite fold_left_app, <- app_assoc. reflexivity.
    + rewrite (content_line_fields _ E), <- app_assoc. reflexivity.
Qed.

Lemma classify_spec content :
  classify title artist capo key content =
  (map rewrite_line (filter is_metadata_line (split NL content)),
   filter is_content_line (split NL content),
   fold_left (fun m f => mark f m) (flat_map line_fields (split NL content))
             found_none).
Proof.
  unfold classify.
  destruct content as [|c r]; exact (outer_loop _ [] [] found_none).
Qed.

(** The list that is joined, part by part. *)
Lemma inject_lines_spec content :
  let lines := split NL content in
  let M := map rewrite_line (filter is_metadata_line lines) in
  let C := filter is_content_line lines in
  let N := new_metadata title artist capo key
             (fold_left (fun m f => mark f m) (flat_map line_fields lines)
                        found_none) in
  inject_lines title artist capo key content =
  (N ++ M) ++ (if needs_separator (N ++ M) C then [[]] else []) ++ C.
Proof.
  intros lines M C N. unfold inject_lines. rewrite classify_spec.
  fold lines M C N.
  destruct (needs_separator (N ++ M) C);
    rewrite <- ?app_assoc; reflexivity.
Qed.

Lemma new_metadata_spec mf :
  new_metadata title artist capo key mf =
  flat_map (fun f => match canon f with
                     | Some c => if seen f mf then [] else [c]
                     | None => []
                     end) [Title; Artist; Capo; Key].
Proof.
  unfold new_metadata, canon, canonical. simpl.
  destruct (truthy title), (truthy artist), capo, (truthy key),
    (found_title mf), (found_artist mf), (found_capo mf), (found_key mf);
    reflexivity.
Qed.

(** The rewritten line. *)

Lemma rewrite_fold_none fs line :
  (forall f, In f fs -> canon f = None) ->
  fold_left (fun l f => match canon f with Some c => c | None => l end)
            fs line = line.
Proof.
  revert line; induction fs as [|f fs IH]; intros line H; simpl; auto.
  rewrite (H f) by now left. apply IH. intros g Hg. apply H. now right.
Qed.

Lemma rewrite_line_unsupplied line :
  (forall f, In f (line_fields line) -> canon f = None) ->
  rewrite_line line = line.
Proof. apply rewrite_fold_none. Qed.

Lemma rewrite_line_last line before f after c :
  line_fields line = before ++ f :: after ->
  canon f = Some c ->
  (forall g, In g after -> canon g = None) ->
  rewrite_line line = c.
Proof.
  intros E Hf Hafter. unfold rewrite_line, rewritten. fold canon.
  rewrite E, fold_left_app. simpl. rewrite Hf.
  now apply rewrite_fold_none.
Qed.

(** A line is left as it is or becomes the canonical line of a supplied
    field among its own. *)
Lemma fields_last_supplied fs :
  (forall f, In f fs -> canon f = None)
  \/ exists before f after c,
       fs = before ++ f :: after /\ canon f = Some c
       /\ (forall g, In g after -> canon g = None).
Proof.
  induction fs as [|g fs IH].
  - left. intros f [].
  - destruct IH as [IH|(before & f & after & c & -> & Hf & Ha)].
    + destruct (canon g) as [c|] eqn:E.
      * right. exists [], g, fs, c. auto.
      * left. intros f [<-|Hin]; auto.
    + right. exists (g :: before), f, after, c. auto.
Qed.

Lemma rewrite_line_cases line :
  rewrite_line line = line
  \/ exists f c, In f (line_fields line) /\ canon f = Some c
                 /\ rewrite_line line = c.
Proof.
  destruct (fields_last_supplied (line_fields line))
    as [H|(before & f & after & c & E & Hf & Ha)].
  - left. now apply rewrite_line_unsupplied.
  - right. exists f, c. split; [|split; [assumption|]].
    + rewrite E. apply in_or_app. right. now left.
    + eapply rewrite_line_last; eauto.
Qed.

(** Lines without line feed. *)

(** Whatever the document and the supplied values, the lines of the text
    that the merge returns end with the content lines of the document, the
    lines without a directive of a tracked field, each as it was, all of
    them and in their order. *)
Lemma inject_metadata_keeps_content (content : str) :
  exists header : list str,
    split NL (inject_metadata title artist capo key content)
    = header ++ filter is_content_line (split NL content).
Proof.
  unfold inject_metadata. rewrite inject_lines_spec. cbv zeta.
  set (C := filter is_content_line (split NL content)).
  match goal with |- context [(?r ++ ?sep ++ C)] => set (R := r ++ sep) end.
  replace (_ ++ _ ++ C) with (R ++ C) by (unfold R; now rewrite app_assoc).
  destruct (R ++ C) as [|x l] eqn:E.
  - apply app_eq_nil in E. destruct E as [_ ->]. now exists [[]].
  - rewrite <- E, split_join_pieces by (rewrite E; discriminate).
    rewrite flat_map_app.
    rewrite (flat_map_split_free C) by apply filter_split_free.
    now exists (flat_map (split NL) R).
Qed.

(** The merged list is never empty, and its lines have no line feed when
    the canonical lines of the supplied values have none. *)
Lemma inject_lines_not_nil content :
  inject_lines title artist capo key content <> [].
Proof.
  rewrite inject_lines_spec. cbv zeta. intros H.
  apply app_eq_nil in H. destruct H as [H1 H2].
  apply app_eq_nil in H1. destruct H1 as [_ H1].
  apply app_eq_nil in H2. destruct H2 as [_ H2].
  apply map_eq_nil in H1.
  apply (split_not_nil NL content).
  exact (filter_both_nil _ _ H1 H2).
Qed.

Lemma rewrite_line_free line :
  (forall f c, canon f = Some c -> ~ In NL c) ->
  ~ In NL line -> ~ In NL (rewrite_line line).
Proof.
  intros Hc Hl. destruct (rewrite_line_cases line) as [->|(f & c & _ & E & ->)].
  - assumption.
  - eapply Hc; eauto.
Qed.

Lemma inject_lines_free content :
  (forall f c, canon f = Some c -> ~ In NL c) ->
  Forall (fun x => ~ In NL x) (inject_lines title artist capo key content).
Proof.
  intros Hc. rewrite inject_lines_spec. cbv zeta.
  rewrite !Forall_app. repeat split.
  - rewrite new_metadata_spec. apply Forall_forall. intros x Hx.
    apply in_flat_map in Hx. destruct Hx as [f [_ Hx]].
    destruct (canon f) as [c|] eqn:E; [|destruct Hx].
    destruct (seen f _); [destruct Hx|].
    destruct Hx as [<-|[]]. eapply Hc; eauto.
  - apply Forall_forall. intros x Hx. apply in_map_iff in Hx.
    destruct Hx as [l [<- Hl]]. apply rewrite_line_free; [assumption|].
    pose proof (filter_split_free is_metadata_line content) as H.
    rewrite Forall_forall in H. now apply H.
  - destruct (needs_separator _ _); repeat constructor. intros [].
  - apply filter_split_free.
Qed.

End InjectProperties.

(** *** An empty string is no value, a capo of 0 is one *)

Lemma field_of_capo d : field_of d = Some Capo <-> d = ("capo" : str).
Proof.
  unfold field_of. split.
  - destruct (str_in d ["title"; "t"]); [discriminate|].
    destruct (str_in d ["artist"; "a"]); [discriminate|].
    destruct (str_eqb d "capo") eqn:E; [now apply str_eqb_eq in E|].
    destruct (str_eqb d "key"); discriminate.
  - intros ->. reflexivity.
Qed.

Lemma has_capo_fields line :
  has_capo line = true <-> In Capo (line_fields line).
Proof.
  unfold has_capo, line_fields, fields_of.
  rewrite existsb_exists, in_flat_map.
  split; intros [d [Hd H]]; exists d; split; auto.
  - apply str_eqb_eq in H. apply field_of_capo in H. rewrite H. now left.
  - destruct (field_of (fst d)) as [f|] eqn:E; [|destruct H].
    destruct H as [->|[]]. apply field_of_capo in E. now apply str_eqb_eq.
Qed.

Lemma has_capo_metadata line :
  has_capo line = true -> is_metadata_line line = true.
Proof.
  unfold has_capo, is_metadata_line. rewrite !existsb_exists.
  intros [d [Hd H]]. exists d. split; [assumption|].
  apply str_eqb_eq, field_of_capo in H. unfold tracked. now rewrite H.
Qed.

Lemma rewritten_capo0 line :
  rewritten None None (Some 0%Z) None line
  = if has_capo line then ("{capo:0}" : str) else line.
Proof.
  destruct (has_capo line) eqn:E.
  - apply has_capo_fields in E.
    destruct (fields_last_supplied None None (Some 0%Z) None
                (line_fields line))
      as [H|(before & f & after & c & E1 & Hf & Ha)].
    + specialize (H Capo E). discriminate H.
    + rewrite (rewrite_line_last _ _ _ _ _ _ _ _ _ E1 Hf Ha).
      destruct f; try discriminate Hf. now injection Hf as <-.
  - apply rewrite_line_unsupplied. intros f Hin.
    destruct f; try reflexivity.
    apply has_capo_fields in Hin. congruence.
Qed.

Lemma rewritten_nothing line : rewritten None None None None line = line.
Proof.
  apply rewrite_line_unsupplied. intros f _. destruct f; reflexivity.
Qed.

Lemma needs_separator_nil (r r' c : list str) :
  is_nil r = is_nil r' -> needs_separator r c = needs_separator r' c.
Proof. unfold needs_separator. now intros ->. Qed.

Lemma needs_separator_cons (r c : list str) (x : str) (r' : list str) :
  needs_separator r c = true -> needs_separator (x :: r') c = true.
Proof.
  unfold needs_separator. destruct (is_nil r); [discriminate|].
  intros H. exact H.
Qed.

Lemma found_capo_lines lines :
  found_capo (fold_left (fun m f => mark f m) (flat_map line_fields lines)
                        found_none) = existsb has_capo lines.
Proof.
  apply eq_true_iff_eq.
  change (found_capo ?m) with (seen Capo m).
  rewrite seen_fold, existsb_exists, in_flat_map. simpl.
  split.
  - intros [H|[l [Hl H]]]; [discriminate|].
    exists l. split; [assumption|]. now apply has_capo_fields.
  - intros [l [Hl H]]. right. exists l. split; [assumption|].
    now apply has_capo_fields.
Qed.

(** The merge without values and the merge with a capo of 0, as lists of
    lines. *)
Lemma inject_lines_nothing content :
  let M := filter is_metadata_line (split NL content) in
  let C := filter is_content_line (split NL content) in
  inject_lines None None None None content
  = M ++ (if needs_separator M C then [[]] else []) ++ C.
Proof.
  intros M C. rewrite inject_lines_spec. cbv zeta. fold M C.
  change (new_metadata None None None None _) with (@nil str).
  rewrite (map_ext _ (fun l => l)) by apply rewritten_nothing.
  now rewrite map_id.
Qed.

Lemma inject_lines_capo0 content :
  let lines := split NL content in
  let M := map (fun l => if has_capo l then ("{capo:0}" : str) else l)
               (filter is_metadata_line lines) in
  let C := filter is_content_line lines in
  let N := if existsb has_capo lines then [] else [("{capo:0}" : str)] in
  inject_lines None None (Some 0%Z) None content
  = (N ++ M) ++ (if needs_separator (N ++ M) C then [[]] else []) ++ C.
Proof.
  intros lines M C N. rewrite inject_lines_spec. cbv zeta. fold lines C.
  rewrite (map_ext _ _ rewritten_capo0). fold M.
  replace (new_metadata None None (Some 0%Z) None _) with N; [reflexivity|].
  unfold new_metadata, N. simpl. rewrite found_capo_lines. fold lines.
  now destruct (existsb has_capo lines).
Qed.

Lemma forallb_false {A : Type} (p : A -> bool) (l : list A) :
  forallb p l = false -> exists x, In x l /\ p x = false.
Proof.
  induction l as [|a l IH]; simpl; [discriminate|].
  destruct (p a) eqn:E.
  - intros H. destruct (IH H) as [x [Hx Hp]]. eauto.
  - intros _. eauto.
Qed.

Lemma map_fixes {A : Type} (f : A -> A) (l : list A) :
  map f l = l <-> forall x, In x l -> f x = x.
Proof.
  induction l as [|a l IH]; simpl.
  - split; [intros _ x []|reflexivity].
  - split.
    + intros [= Ha Hl] x [<-|Hx]; [assumption|]. now apply IH.
    + intros H. f_equal; [apply H; now left|].
      apply IH. intros x Hx. apply H. now right.
Qed.

Lemma inject_metadata_inj t1 a1 c1 k1 t2 a2 c2 k2 content1 content2 :
  (forall f c, canonical t1 a1 c1 k1 f = Some c -> ~ In NL c) ->
  (forall f c, canonical t2 a2 c2 k2 f = Some c -> ~ In NL c) ->
  inject_metadata t1 a1 c1 k1 content1 = inject_metadata t2 a2 c2 k2 content2 ->
  inject_lines t1 a1 c1 k1 content1 = inject_lines t2 a2 c2 k2 content2.
Proof.
  intros H1 H2. unfold inject_metadata.
  apply join_inj;
    auto using inject_lines_not_nil, inject_lines_free.
Qed.

Lemma capo0_canonical_free f c :
  canonical None None (Some 0%Z) None f = Some c -> ~ In NL c.
Proof.
  destruct f; try discriminate. intros [= <-]. simpl.
  intuition discriminate.
Qed.

Lemma nothing_canonical_free f c :
  canonical None None None None f = Some c -> ~ In NL c.
Proof. destruct f; discriminate. Qed.

(** C10.  An empty title, artist or key is treated as a value that was
    not supplied: the merge is the merge without them.  A capo of 0 is a
    supplied value: the merge with [capo=0] differs from the merge without
    values exactly when it adds a line, the document having no [capo]
    directive, or rewrites a line, the document having a line with a
    [capo] directive that is not already the text [{capo:0}]. *)
Theorem empty_values_unsupplied_capo_zero_supplied :
  (forall (content : str) (capo : option Z),
      inject_metadata (Some []) (Some []) capo (Some []) content
      = inject_metadata None None capo None content)
  /\ (forall content : str,
         inject_metadata None None (Some 0%Z) None content
         <> inject_metadata None None None None content
         <-> (forall line, In line (split NL content) -> has_capo line = false)
             \/ (exists line, In line (split NL content)
                              /\ has_capo line = true
                              /\ line <> ("{capo:0}" : str))).
Proof.
  split; [reflexivity|].
  intros content.
  set (lines := split NL content).
  set (M0 := filter is_metadata_line lines).
  set (C := filter is_content_line lines).
  set (f := fun l : str => if has_capo l then ("{capo:0}" : str) else l).
  assert (Hinj : inject_metadata None None (Some 0%Z) None content
                 = inject_metadata None None None None content ->
                 inject_lines None None (Some 0%Z) None content
                 = inject_lines None None None None content).
  { exact (inject_metadata_inj _ _ _ _ _ _ _ _ _ _
             capo0_canonical_free nothing_canonical_free). }
  rewrite inject_lines_capo0, inject_lines_nothing in Hinj.
  cbv zeta in Hinj. fold lines M0 C f in Hinj.
  destruct (existsb has_capo lines) eqn:Hex.
  - (* some line has a capo directive: nothing is added *)
    simpl app in Hinj.
    rewrite (needs_separator_nil (map f M0) M0) in Hinj
      by (destruct M0; reflexivity).
    destruct (forallb (fun l => negb (has_capo l) || str_eqb l "{capo:0}")
                      lines) eqn:Hall.
    + (* every such line is already [{capo:0}] *)
      assert (Hmap : map f M0 = M0).
      { apply map_fixes. intros x Hx. unfold M0 in Hx.
        apply filter_In in Hx. destruct Hx as [Hx _].
        rewrite forallb_forall in Hall. specialize (Hall x Hx).
        unfold f. destruct (has_capo x); [|reflexivity].
        simpl in Hall. apply str_eqb_eq in Hall. now subst x. }
      split.
      * intros Hne. exfalso. apply Hne. unfold inject_metadata.
        rewrite inject_lines_capo0, inject_lines_nothing. cbv zeta.
        fold lines M0 C f. rewrite Hex. simpl app.
        rewrite Hmap. reflexivity.
      * intros [Hnone|(l & Hl & Hc & Hne)].
        -- apply existsb_exists in Hex. destruct Hex as [l [Hl Hc]].
           rewrite (Hnone l Hl) in Hc. discriminate.
        -- rewrite forallb_forall in Hall. specialize (Hall l Hl).
           rewrite Hc in Hall. simpl in Hall.
           apply str_eqb_eq in Hall. contradiction.
    + (* some line with a capo directive is another text *)
      assert (Hq : exists l, In l lines /\ has_capo l = true
                             /\ l <> ("{capo:0}" : str)).
      { apply forallb_false in Hall. destruct Hall as [l [Hl Hp]].
        apply orb_false_iff in Hp. destruct Hp as [Hc Hs].
        exists l. split; [assumption|].
        split; [now destruct (has_capo l)|now apply str_eqb_neq]. }
      split; [intros _; now right|]. intros _ Heq.
      apply Hinj in Heq. apply app_inv_tail in Heq.
      destruct Hq as (l & Hl & Hc & Hne).
      assert (Hin : In l M0).
      { apply filter_In. split; [assumption|]. now apply has_capo_metadata. }
      apply (proj1 (map_fixes f M0) Heq) in Hin.
      unfold f in Hin. rewrite Hc in Hin. congruence.
  - (* no capo directive: a line is added *)
    split.
    + intros _. left. intros l Hl.
      destruct (has_capo l) eqn:Hc; [|reflexivity].
      assert (existsb has_capo lines = true)
        by (apply existsb_exists; eauto).
      congruence.
    + intros _ Heq. apply Hinj in Heq.
      apply (f_equal (@length str)) in Heq.
      rewrite !length_app, length_map in Heq.
      pose proof (needs_separator_cons M0 C "{capo:0}" (map f M0)) as Hs.
      change ([("{capo:0}" : str)] ++ map f M0)
        with (("{capo:0}" : str) :: map f M0) in Heq.
      destruct (needs_separator M0 C);
        [rewrite (Hs eq_refl) in Heq
        |destruct (needs_separator (_ :: map f M0) C)];
        simpl in Heq; lia.
Qed.

(** Where the only [capo] line is already [{capo:0}] nothing is added or
    changed, and the two merges agree. *)
Example capo_zero_line_already_there :
  has_capo "{capo:0}" = true
  /\ inject_metadata None None (Some 0%Z) None "{capo:0}"
     = inject_metadata None None None None "{capo:0}".
Proof. split; reflexivity. Qed.

(** *** Merging twice *)

(** The directive line of a name and a value without closing brace holds
    exactly that directive. *)
Lemma findall_directive_line (name : string) (value : str) :
  nonempty name = true ->
  forallb (fun x => negb (Ascii.eqb x ":" || Ascii.eqb x "}")) name = true ->
  ~ In "}"%char value ->
  findall (directive_line name value) = [(name : str, value)].
Proof.
  intros Hne Hname Hvalue. unfold directive_line.
  change (list_ascii_of_string "{") with ["{"%char].
  change (list_ascii_of_string ":") with [":"%char].
  change (list_ascii_of_string "}") with ["}"%char].
  cbn [app]. rewrite findall_cons. unfold directive_at.
  change (Ascii.eqb "{" "{") with true. cbv iota.
  rewrite (span_run (fun x => negb (Ascii.eqb x ":" || Ascii.eqb x "}"))
                    name ":"%char (value ++ ["}"%char]) Hname eq_refl).
  destruct (list_ascii_of_string name) as [|x xs] eqn:E; [discriminate|].
  change (Ascii.eqb ":" "}") with false. cbv iota.
  rewrite (span_run (fun x => negb (Ascii.eqb x "}")) value "}"%char []).
  - reflexivity.
  - apply forallb_forall. intros c Hc.
    destruct (Ascii.eqb_spec c "}"); [subst; contradiction|reflexivity].
  - reflexivity.
Qed.

Lemma str_of_Z_chars (z : Z) (c : ascii) :
  In c (str_of_Z z) -> is_digit c = true \/ c = "-"%char.
Proof.
  unfold str_of_Z, NilEmpty.string_of_int.
  destruct (Z.to_int z) as [d|d]; simpl.
  - intros H. left.
    pose proof (string_of_uint_digits d) as Hd.
    rewrite Forall_forall in Hd. now apply Hd.
  - intros [<-|H]; [now right|]. left.
    pose proof (string_of_uint_digits d) as Hd.
    rewrite Forall_forall in Hd. now apply Hd.
Qed.

Lemma in_directive_line c (name : string) value :
  In c (directive_line name value) ->
  c = "{"%char \/ In c (list_ascii_of_string name) \/ c = ":"%char
  \/ In c value \/ c = "}"%char.
Proof.
  unfold directive_line. rewrite !in_app_iff. simpl.
  intuition (subst; auto).
Qed.

Lemma truthy_the (o : option str) : truthy o = true -> o = Some (the o).
Proof. destruct o as [[|x v]|]; simpl; congruence. Qed.

Lemma fields_metadata line f :
  In f (line_fields line) -> is_metadata_line line = true.
Proof.
  unfold line_fields, fields_of, is_metadata_line.
  rewrite in_flat_map, existsb_exists. intros [d [Hd H]].
  exists d. split; [assumption|]. unfold tracked.
  destruct (field_of (fst d)); [reflexivity|destruct H].
Qed.

Lemma flat_map_all_nil {A B : Type} (g : A -> list B) (l : list A) :
  (forall x, g x = []) -> flat_map g l = [].
Proof.
  intros H. induction l as [|a l IH]; simpl; [reflexivity|].
  now rewrite H, IH.
Qed.

Lemma filter_all {A : Type} (p : A -> bool) (l : list A) :
  (forall x, In x l -> p x = true) -> filter p l = l.
Proof.
  induction l as [|a l IH]; simpl; intros H; [reflexivity|].
  rewrite (H a) by now left. f_equal. apply IH. intros x Hx. apply H.
  now right.
Qed.

Lemma filter_none {A : Type} (p : A -> bool) (l : list A) :
  (forall x, In x l -> p x = false) -> filter p l = [].
Proof.
  induction l as [|a l IH]; simpl; intros H; [reflexivity|].
  rewrite (H a) by now left. apply IH. intros x Hx. apply H. now right.
Qed.

Lemma filter_header_content (p : str -> bool) (h c : list str) :
  (forall x, In x h -> p x = true) -> (forall x, In x c -> p x = false) ->
  filter p (h ++ c) = h
  /\ filter (fun x => negb (p x)) (h ++ c) = c.
Proof.
  intros Hh Hc. rewrite !filter_app. split.
  - rewrite (filter_all p h Hh), (filter_none p c Hc). apply app_nil_r.
  - rewrite (filter_none (fun x => negb (p x)) h),
            (filter_all (fun x => negb (p x)) c).
    + reflexivity.
    + intros x Hx. now rewrite (Hc x Hx).
    + intros x Hx. now rewrite (Hh x Hx).
Qed.

Section MergeTwice.

Variables (title artist : option str) (capo : option Z) (key : option str).

Hypothesis plain_title : plain title.
Hypothesis plain_artist : plain artist.
Hypothesis plain_key : plain key.

Let canon := canonical title artist capo key.
Let rewrite_line := rewritten title artist capo key.

Lemma canonical_fields f c : canon f = Some c -> line_fields c = [f].
Proof.
  unfold canon, canonical, line_fields.
  destruct f.
  - destruct (truthy title) eqn:T; [|discriminate]. intros [= <-].
    rewrite findall_directive_line; try reflexivity.
    apply (plain_title _ (truthy_the _ T)).
  - destruct (truthy artist) eqn:T; [|discriminate]. intros [= <-].
    rewrite findall_directive_line; try reflexivity.
    apply (plain_artist _ (truthy_the _ T)).
  - destruct capo as [z|]; [|discriminate]. intros [= <-].
    rewrite findall_directive_line; try reflexivity.
    intros H. apply str_of_Z_chars in H. destruct H; discriminate.
  - destruct (truthy key) eqn:T; [|discriminate]. intros [= <-].
    rewrite findall_directive_line; try reflexivity.
    apply (plain_key _ (truthy_the _ T)).
Qed.

Lemma canonical_free f c : canon f = Some c -> ~ In NL c.
Proof.
  unfold canon, canonical. intros E Hin.
  assert (Hv : forall (name : string) v,
             ~ In NL (list_ascii_of_string name) -> ~ In NL v ->
             ~ In NL (directive_line name v)).
  { intros name v Hn Hv H. apply in_directive_line in H.
    destruct H as [H|[H|[H|[H|H]]]]; try discriminate; tauto. }
  destruct f.
  - destruct (truthy title) eqn:T; [|discriminate]. injection E as <-.
    revert Hin. apply Hv; [simpl; intuition discriminate|].
    apply (plain_title _ (truthy_the _ T)).
  - destruct (truthy artist) eqn:T; [|discriminate]. injection E as <-.
    revert Hin. apply Hv; [simpl; intuition discriminate|].
    apply (plain_artist _ (truthy_the _ T)).
  - destruct capo as [z|]; [|discriminate]. injection E as <-.
    revert Hin. apply Hv; [simpl; intuition discriminate|].
    intros H. apply str_of_Z_chars in H. destruct H; discriminate.
  - destruct (truthy key) eqn:T; [|discriminate]. injection E as <-.
    revert Hin. apply Hv; [simpl; intuition discriminate|].
    apply (plain_key _ (truthy_the _ T)).
Qed.

Lemma canonical_metadata f c : canon f = Some c -> is_metadata_line c = true.
Proof.
  intros E. apply (fields_metadata c f).
  rewrite (canonical_fields _ _ E). now left.
Qed.

Lemma canonical_fixed f c : canon f = Some c -> rewrite_line c = c.
Proof.
  intros E.
  apply (rewrite_line_last title artist capo key c [] f [] c);
    [apply (canonical_fields _ _ E) | exact E | intros g []].
Qed.

(** The parts of the first merge. *)

Variable content : str.

Hypothesis one_field :
  Forall (one_supplied_field title artist capo key) (split NL content).

Let lines := split NL content.
Let M := map rewrite_line (filter is_metadata_line lines).
Let C := filter is_content_line lines.
Let F := fold_left (fun m f => mark f m) (flat_map line_fields lines)
                   found_none.
Let N := new_metadata title artist capo key F.

Lemma new_line_canonical x :
  In x N -> exists f, canon f = Some x /\ seen f F = false.
Proof.
  unfold N. rewrite new_metadata_spec. intros Hx.
  apply in_flat_map in Hx. destruct Hx as [f [_ Hx]]. fold canon in Hx.
  destruct (canon f) as [c|] eqn:E; [|destruct Hx].
  destruct (seen f F) eqn:S; [destruct Hx|].
  destruct Hx as [<-|[]]. eauto.
Qed.

(** A rewritten metadata line is a metadata line that the rewrite leaves
    as it is. *)
Lemma header_line_stable x :
  In x (N ++ M) -> is_metadata_line x = true /\ rewrite_line x = x.
Proof.
  intros Hx. apply in_app_or in Hx. destruct Hx as [Hx|Hx].
  - apply new_line_canonical in Hx. destruct Hx as [f [E _]].
    split; [eapply canonical_metadata|eapply canonical_fixed]; eauto.
  - unfold M in Hx. apply in_map_iff in Hx. destruct Hx as [l [<- Hl]].
    apply filter_In in Hl. destruct Hl as [_ Hl].
    destruct (fields_last_supplied title artist capo key (line_fields l))
      as [H|(before & f & after & c & E & Hf & Ha)].
    + assert (R : rewrite_line l = l)
        by now apply rewrite_line_unsupplied.
      rewrite !R. auto.
    + assert (R : rewrite_line l = c)
        by (eapply rewrite_line_last; eauto).
      rewrite !R.
      split; [eapply canonical_metadata|eapply canonical_fixed]; eauto.
Qed.

Lemma content_lines_content x : In x C -> is_metadata_line x = false.
Proof.
  unfold C. intros H. apply filter_In in H. destruct H as [_ H].
  unfold is_content_line in H. now destruct (is_metadata_line x).
Qed.

(** Every supplied field is found in the merged lines. *)
Lemma supplied_field_found f c :
  canon f = Some c -> In f (flat_map line_fields ((N ++ M) ++ C)).
Proof.
  intros E. unfold canon in E. apply in_flat_map.
  destruct (seen f F) eqn:S.
  - (* the field was in the document: its line was rewritten to [c] *)
    unfold F in S. apply seen_fold in S.
    destruct S as [S|S]; [destruct f; discriminate S|].
    apply in_flat_map in S. destruct S as [l [Hl Hf]].
    exists c. split; [|rewrite (canonical_fields _ _ E); now left].
    apply in_or_app. left. apply in_or_app. right.
    unfold M. apply in_map_iff. exists l. split.
    + destruct (fields_last_supplied title artist capo key (line_fields l))
        as [H|(before & g & after & c' & Eg & Hg & Ha)].
      * rewrite (H f Hf) in E. discriminate.
      * assert (g = f).
        { pose proof one_field as H1. rewrite Forall_forall in H1.
          apply (H1 l Hl g f c' c); auto.
          rewrite Eg. apply in_or_app. right. now left. }
        subst g. rewrite E in Hg. injection Hg as <-.
        eapply rewrite_line_last; eauto.
    + apply filter_In. split; [assumption|].
      eapply fields_metadata; eauto.
  - (* the field was not in the document: [c] was added *)
    exists c. split; [|rewrite (canonical_fields _ _ E); now left].
    apply in_or_app. left. apply in_or_app. left.
    unfold N. rewrite new_metadata_spec. apply in_flat_map.
    exists f. split; [destruct f; simpl; tauto|].
    unfold canon. rewrite E, S. now left.
Qed.

Lemma nothing_new_second_time :
  new_metadata title artist capo key
    (fold_left (fun m f => mark f m)
               (flat_map line_fields ((N ++ M) ++ C)) found_none) = [].
Proof.
  rewrite new_metadata_spec. apply flat_map_all_nil. intros f.
  destruct (canonical title artist capo key f) as [c|] eqn:E;
    [|reflexivity].
  rewrite (proj2 (seen_fold f _ found_none)); [reflexivity|].
  right. eapply supplied_field_found; eauto.
Qed.

(** Without separator the second merge returns the lines of the first. *)
Lemma inject_lines_twice :
  separator_inserted title artist capo key content = false ->
  inject_lines title artist capo key
    (inject_metadata title artist capo key content)
  = inject_lines title artist capo key content.
Proof.
  intros Hsep.
  unfold separator_inserted in Hsep. rewrite classify_spec in Hsep.
  fold lines rewrite_line M C F N in Hsep.
  assert (E1 : inject_lines title artist capo key content = (N ++ M) ++ C).
  { rewrite inject_lines_spec. cbv zeta.
    fold lines rewrite_line M C F N. now rewrite Hsep. }
  assert (E2 : split NL (inject_metadata title artist capo key content)
               = (N ++ M) ++ C).
  { unfold inject_metadata. rewrite split_join.
    - exact E1.
    - apply inject_lines_not_nil.
    - apply inject_lines_free. apply canonical_free. }
  destruct (filter_header_content is_metadata_line (N ++ M) C)
    as [Hm Hc].
  { intros x Hx. now apply header_line_stable. }
  { apply content_lines_content. }
  rewrite inject_lines_spec. cbv zeta. rewrite E2.
  fold is_content_line in Hc.
  rewrite Hm, Hc, nothing_new_second_time.
  rewrite (proj2 (map_fixes (rewritten title artist capo key) (N ++ M)))
    by (intros x Hx; now apply header_line_stable).
  cbn [app]. rewrite Hsep, E1. reflexivity.
Qed.

End MergeTwice.

(** C1, as the code has it.  Merging the same values a second time
    returns the text of the first merge whenever the first merge puts no
    empty line between metadata and content (the document has no content
    line with text, or there is no metadata at all), the supplied title,
    artist and key have no line feed and no closing brace, and no line of
    the document names two of the supplied fields. *)
Theorem inject_metadata_twice (title artist : option str) (capo : option Z)
    (key : option str) (content : str) :
  plain title -> plain artist -> plain key ->
  Forall (one_supplied_field title artist capo key) (split NL content) ->
  separator_inserted title artist capo key content = false ->
  inject_metadata title artist capo key
    (inject_metadata title artist capo key content)
  = inject_metadata title artist capo key content.
Proof.
  intros Ht Ha Hk Hone Hsep.
  unfold inject_metadata at 1 3. f_equal.
  now apply inject_lines_twice.
Qed.

Lemma inject_metadata_twice_witness :
  inject_metadata (Some ("X" : str)) None (Some 2%Z) None
    (inject_metadata (Some ("X" : str)) None (Some 2%Z) None
       ("{t:Old}" ++ [NL] ++ "{key:G} {c:intro}" ++ [NL; NL]))
  = inject_metadata (Some ("X" : str)) None (Some 2%Z) None
      ("{t:Old}" ++ [NL] ++ "{key:G} {c:intro}" ++ [NL; NL]).
Proof.
  apply inject_metadata_twice.
  - intros v [= <-]. simpl. intuition discriminate.
  - intros v H. discriminate H.
  - intros v H. discriminate H.
  - repeat constructor; intros f g c c' Hf Hg Ec Ec';
      vm_compute in Hf, Hg; intuition congruence.
  - reflexivity.
Defined.

(** With a line of text in the document the second merge differs from the
    first: it has one more empty line after the title. *)
Lemma inject_metadata_twice_differs :
  inject_metadata (Some ("X" : str)) None None None
    (inject_metadata (Some ("X" : str)) None None None "hello")
  <> inject_metadata (Some ("X" : str)) None None None "hello".
Proof. vm_compute. discriminate. Qed.

Example inject_metadata_once_and_twice :
  inject_metadata (Some ("X" : str)) None None None "hello"
  = "{title:X}" ++ [NL; NL] ++ "hello"
  /\ inject_metadata (Some ("X" : str)) None None None
       ("{title:X}" ++ [NL; NL] ++ "hello")
     = "{title:X}" ++ [NL; NL; NL] ++ "hello".
Proof. split; reflexivity. Qed.

(** The other conditions are needed as well: a line that names two
    supplied fields keeps only the last one, and the other is added by the
    second merge; a value with a closing brace can hold a directive of
    another supplied field; a value with a line feed is split by the
    second merge. *)
Example inject_metadata_two_fields_on_a_line :
  inject_metadata (Some ("X" : str)) (Some ("Y" : str)) None None
    "{t:a}{artist:b}" = "{artist:Y}"
  /\ inject_metadata (Some ("X" : str)) (Some ("Y" : str)) None None
       "{artist:Y}" = "{title:X}" ++ [NL] ++ "{artist:Y}".
Proof. split; reflexivity. Qed.

Example inject_metadata_brace_in_value :
  inject_metadata (Some ("a}{artist:Z" : str)) (Some ("Y" : str)) None None ""
  = "{title:a}{artist:Z}" ++ [NL] ++ "{artist:Y}" ++ [NL]
  /\ inject_metadata (Some ("a}{artist:Z" : str)) (Some ("Y" : str)) None None
       ("{title:a}{artist:Z}" ++ [NL] ++ "{artist:Y}" ++ [NL])
     = "{artist:Y}" ++ [NL] ++ "{artist:Y}" ++ [NL].
Proof. split; reflexivity. Qed.

Example inject_metadata_line_feed_in_value :
  inject_metadata (Some ("a" ++ [NL] ++ "b")) None None None ""
  = "{title:a" ++ [NL] ++ "b}" ++ [NL]
  /\ inject_metadata (Some ("a" ++ [NL] ++ "b")) None None None
       ("{title:a" ++ [NL] ++ "b}" ++ [NL])
     <> "{title:a" ++ [NL] ++ "b}" ++ [NL].
Proof. split; [reflexivity|vm_compute; discriminate]. Qed.

(** Merging into the empty document and extracting again gives the values
    back. *)
Example merge_then_extract :
  let merged :=
    inject_metadata (Some ("Song" : str)) (Some ("Artist" : str))
                    (Some 2%Z) (Some ("G" : str)) "" in
  md_title (extract_metadata py_int merged) = Some ("Song" : str)
  /\ md_capo (extract_metadata py_int merged) = Some 2%Z.
Proof. split; reflexivity. Qed.

(** *** The merge and its error *)

Lemma fold_res_ok {A B : Type} (f : A -> B -> res A) (g : A -> B -> A)
    (l : list B) :
  (forall a x, In x l -> f a x = Ok (g a x)) ->
  forall a, fold_res f l a = Ok (fold_left g l a).
Proof.
  induction l as [|x l IH]; intros H a; [reflexivity|].
  cbn [fold_res fold_left]. rewrite (H a x) by now left. cbn [bind].
  apply IH. intros a' y Hy. apply H. now right.
Qed.

Lemma fold_res_err {A B : Type} (f : A -> B -> res A) (g : A -> B -> A)
    (bad : B -> bool) (m : str) (l : list B) :
  (forall a x, f a x = if bad x then Err m else Ok (g a x)) ->
  forall a,
    fold_res f l a
    = if existsb bad l then Err m else Ok (fold_left g l a).
Proof.
  intros H. induction l as [|x l IH]; intros a; [reflexivity|].
  cbn [fold_res fold_left existsb]. rewrite H.
  destruct (bad x); cbn [bind orb]; [reflexivity|apply IH].
Qed.

Lemma format_int_cases (c : Z) :
  ((digits_of c <= int_max_str_digits)%nat
   /\ format_int c = Ok (str_of_Z c))
  \/ ((int_max_str_digits < digits_of c)%nat
      /\ format_int c = Err max_str_digits_error).
Proof.
  unfold format_int.
  destruct (Nat.ltb_spec int_max_str_digits (digits_of c)); [right|left];
    auto.
Qed.

Section InjectRaisingProperties.

Variables (title artist : option str) (capo : option Z) (key : option str).

(** When the conversion of the capo succeeds, no step raises. *)
Section Converts.

Hypothesis converts : forall c, capo = Some c -> format_int c = Ok (str_of_Z c).

Lemma on_meta_directive_res_ok st d :
  on_meta_directive_res title artist capo key st d
  = Ok (on_meta_directive title artist capo key st d).
Proof.
  destruct st as [[line b] mf].
  unfold on_meta_directive_res, on_meta_directive.
  destruct (str_in (fst d) ["title"; "t"]); [reflexivity|].
  destruct (str_in (fst d) ["artist"; "a"]); [reflexivity|].
  destruct (str_eqb (fst d) "capo");
    [|destruct (str_eqb (fst d) "key"); reflexivity].
  destruct capo as [c|]; [|reflexivity].
  now rewrite (converts c eq_refl).
Qed.

Lemma classify_line_res_ok st line :
  classify_line_res title artist capo key st line
  = Ok (classify_line title artist capo key st line).
Proof.
  destruct st as [[ml cl] mf]. unfold classify_line_res, classify_line.
  rewrite (fold_res_ok _ (on_meta_directive title artist capo key))
    by (intros; apply on_meta_directive_res_ok).
  cbn [bind].
  now destruct (fold_left _ _ _) as [[line' b] mf'].
Qed.

Lemma new_metadata_res_ok mf :
  new_metadata_res title artist capo key mf
  = Ok (new_metadata title artist capo key mf).
Proof.
  unfold new_metadata_res, new_metadata.
  destruct capo as [c|]; [|reflexivity].
  destruct (found_capo mf); [reflexivity|]. cbn [negb].
  now rewrite (converts c eq_refl).
Qed.

Lemma inject_metadata_res_ok content :
  inject_metadata_res title artist capo key content
  = Ok (inject_metadata title artist capo key content).
Proof.
  unfold inject_metadata_res, classify_res, inject_metadata, inject_lines,
    classify.
  rewrite (fold_res_ok _ (classify_line title artist capo key))
    by (intros; apply classify_line_res_ok).
  cbn [bind].
  destruct (fold_left _ _ _) as [[ml cl] mf].
  rewrite new_metadata_res_ok. cbn [bind].
  now destruct (needs_separator _ _).
Qed.

End Converts.

(** When it fails, the first capo line raises, or the added capo line
    when the document has none. *)
Section Fails.

Variables (c : Z) (m : str).
Hypothesis capo_given : capo = Some c.
Hypothesis fails : format_int c = Err m.

Lemma on_meta_directive_res_err st d :
  on_meta_directive_res title artist capo key st d
  = if str_eqb (fst d) "capo" then Err m
    else Ok (on_meta_directive title artist capo key st d).
Proof.
  destruct st as [[line b] mf].
  unfold on_meta_directive_res, on_meta_directive.
  destruct (str_eqb (fst d) "capo") eqn:E.
  - apply str_eqb_eq in E. rewrite E.
    change (str_in ("capo" : str) ["title"; "t"]) with false.
    change (str_in ("capo" : str) ["artist"; "a"]) with false.
    cbv iota. rewrite capo_given, fails. reflexivity.
  - destruct (str_in (fst d) ["title"; "t"]); [reflexivity|].
    destruct (str_in (fst d) ["artist"; "a"]); [reflexivity|].
    destruct (str_eqb (fst d) "key"); reflexivity.
Qed.

Lemma classify_line_res_err st line :
  classify_line_res title artist capo key st line
  = if has_capo line then Err m
    else Ok (classify_line title artist capo key st line).
Proof.
  destruct st as [[ml cl] mf]. unfold classify_line_res, classify_line.
  rewrite (fold_res_err _ (on_meta_directive title artist capo key)
             (fun d => str_eqb (fst d) "capo") m)
    by (intros; apply on_meta_directive_res_err).
  fold (has_capo line). destruct (has_capo line); [reflexivity|].
  cbn [bind]. now destruct (fold_left _ _ _) as [[line' b] mf'].
Qed.

Lemma inject_metadata_res_err content :
  inject_metadata_res title artist capo key content = Err m.
Proof.
  assert (Ec : (if negb (nonempty content) then ([] : str) else content)
               = content) by now destruct content.
  unfold inject_metadata_res, classify_res. cbv zeta. rewrite Ec.
  rewrite (fold_res_err _ (classify_line title artist capo key) has_capo m)
    by (intros; apply classify_line_res_err).
  destruct (existsb has_capo (split NL content)) eqn:E; [reflexivity|].
  pose proof (classify_spec title artist capo key content) as S.
  unfold classify in S. cbv zeta in S. rewrite Ec in S.
  rewrite S. cbn [bind]. unfold new_metadata_res.
  rewrite found_capo_lines, E, capo_given, fails. reflexivity.
Qed.

End Fails.

(** The merge raises exactly when the capo does not convert, and returns
    the text of [inject_metadata] otherwise. *)
Lemma inject_metadata_res_spec content :
  inject_metadata_res title artist capo key content
  = match capo with
    | Some c =>
        bind (format_int c)
             (fun _ => Ok (inject_metadata title artist capo key content))
    | None => Ok (inject_metadata title artist capo key content)
    end.
Proof.
  destruct capo as [c|] eqn:E.
  - destruct (format_int_cases c) as [[_ H]|[_ H]]; rewrite H; cbn [bind].
    + rewrite <- E. apply inject_metadata_res_ok.
      intros c' E'. rewrite E in E'. now injection E' as <-.
    + rewrite <- E. now apply (inject_metadata_res_err c).
  - rewrite <- E. apply inject_metadata_res_ok.
    intros c' E'. rewrite E in E'. discriminate E'.
Qed.

(** C8, as the code has it.  On every document and for all values the
    merge returns a text unless the capo has more than 4300 decimal
    digits.  When it returns, the lines of the text end with the content
    lines of the document, the lines without a directive of a tracked
    field, each as it was, all of them and in their order.  For a capo of
    more than 4300 digits it raises the [ValueError] of the conversion to
    text, whatever the document. *)
Theorem inject_metadata_keeps_content_or_raises (content : str) :
  ((forall c, capo = Some c -> (digits_of c <= int_max_str_digits)%nat) ->
   exists (header : list str) (merged : str),
     inject_metadata_res title artist capo key content = Ok merged
     /\ split NL merged
        = header ++ filter is_content_line (split NL content))
  /\ (forall c, capo = Some c -> (int_max_str_digits < digits_of c)%nat ->
        inject_metadata_res title artist capo key content
        = Err max_str_digits_error).
Proof.
  split.
  - intros H.
    destruct (inject_metadata_keeps_content title artist capo key content)
      as [header E].
    exists header, (inject_metadata title artist capo key content).
    split; [|exact E].
    apply inject_metadata_res_ok. intros c Hc.
    destruct (format_int_cases c) as [[_ F]|[F _]]; [exact F|].
    specialize (H c Hc). lia.
  - intros c Hc H.
    apply (inject_metadata_res_err c); [assumption|].
    destruct (format_int_cases c) as [[F _]|[_ F]]; [lia|exact F].
Qed.

End InjectRaisingProperties.

Lemma inject_metadata_keeps_content_or_raises_witness :
  exists (header : list str) (merged : str),
    inject_metadata_res (Some ("X" : str)) None (Some 3%Z) None
      ("la" ++ [NL] ++ "{t:Old}" ++ [NL] ++ "{c:end}") = Ok merged
    /\ split NL merged = header ++ ["la" : str; "{c:end}" : str].
Proof.
  apply (proj1 (inject_metadata_keeps_content_or_raises
                  (Some ("X" : str)) None (Some 3%Z) None
                  ("la" ++ [NL] ++ "{t:Old}" ++ [NL] ++ "{c:end}"))).
  intros c [= <-]. apply Nat.leb_le. reflexivity.
Defined.

(** The merge raises: a capo of 4301 digits, whatever the document. *)
Lemma inject_metadata_raises :
  inject_metadata_res None None (Some (10 ^ 4300)%Z) None "hello"
  = Err max_str_digits_error.
Proof.
  apply (inject_metadata_res_err None None (Some (10 ^ 4300)%Z) None
           (10 ^ 4300)%Z); [reflexivity|].
  unfold format_int.
  assert (H : (int_max_str_digits <? digits_of (10 ^ 4300))%nat = true)
    by (vm_compute; reflexivity).
  now rewrite H.
Qed.

(** * Further properties *)

(** ** Cleaning a clean text *)

Lemma unify_newlines_fixed (s : str) : ~ In CR s -> unify_newlines s = s.
Proof.
  induction s as [|c r IH]; simpl; [reflexivity|]. intros H.
  destruct (Ascii.eqb_spec c CR) as [->|_]; [exfalso; apply H; now left|].
  f_equal. apply IH. intros Hr. apply H. now right.
Qed.

Lemma cap_blank_runs_fixed (lines : list str) :
  three_blank lines = false -> cap_blank_runs lines = lines.
Proof.
  induction lines as [|a r IH]; [reflexivity|]. intros H.
  pose proof (three_blank_tail _ _ H) as Hr.
  rewrite cap_blank_runs_cons. destruct r as [|b [|c r']].
  - reflexivity.
  - reflexivity.
  - simpl in H. apply orb_false_iff in H. destruct H as [H _].
    rewrite H, (IH Hr). reflexivity.
Qed.

Lemma drop_trailing_blank_fixed (lines : list str) :
  last lines [] <> [] -> drop_trailing_blank lines = lines.
Proof.
  induction lines as [|a r IH]; [reflexivity|]. intros H.
  destruct r as [|b r].
  - simpl in *. destruct a; [congruence|reflexivity].
  - change (last (a :: b :: r) []) with (last (b :: r) []) in H.
    cbn [drop_trailing_blank]. cbn [drop_trailing_blank] in IH.
    rewrite (IH H). reflexivity.
Qed.

Lemma clean_lines_rstripped content :
  map rstrip (clean_lines content) = clean_lines content.
Proof.
  apply map_fixes. intros x Hx. apply clean_lines_origin in Hx.
  destruct Hx as [y [_ ->]]. apply rstrip_idem.
Qed.

Lemma clean_lines_last content :
  clean_lines content = [] \/ last (clean_lines content) [] <> [].
Proof. rewrite clean_lines_spec. apply drop_trailing_blank_last. Qed.

Lemma clean_content_no_cr content : ~ In CR (clean_content content).
Proof.
  intros H. unfold clean_content in H. apply in_join in H.
  destruct H as [[H|[]]|[x [Hx Hc]]]; [discriminate|].
  now destruct (clean_lines_chars _ _ _ Hx Hc).
Qed.

Lemma clean_lines_twice content :
  clean_lines (clean_content content) = clean_lines content.
Proof.
  rewrite (clean_lines_spec (clean_content content)).
  rewrite unify_newlines_fixed by apply clean_content_no_cr.
  rewrite clean_content_lines.
  destruct (clean_lines content) as [|l ls] eqn:E; [reflexivity|].
  rewrite <- E, clean_lines_rstripped.
  rewrite cap_blank_runs_fixed by apply clean_lines_no_three_blank.
  apply drop_trailing_blank_fixed.
  destruct (clean_lines_last content) as [H|H]; [congruence|exact H].
Qed.

(** X1. Cleaning is idempotent: a cleaned text is left as it is. *)
Theorem clean_content_idempotent (content : str) :
  clean_content (clean_content content) = clean_content content.
Proof.
  unfold clean_content at 1 3. now rewrite clean_lines_twice.
Qed.

(** Only empty lines are removed. *)

Lemma filter_nonempty_cap_blank_runs (lines : list str) :
  filter nonempty (cap_blank_runs lines) = filter nonempty lines.
Proof.
  induction lines as [|a r IH]; [reflexivity|].
  rewrite cap_blank_runs_cons.
  destruct r as [|b [|c r']]; cbn [filter]; rewrite ?IH; try reflexivity.
  destruct a as [|x a]; [|cbn [is_nil andb filter nonempty]; now rewrite IH].
  destruct (is_nil [] && is_nil b && is_nil c);
    cbn [filter nonempty]; now rewrite IH.
Qed.

Lemma filter_nonempty_drop_trailing_blank (lines : list str) :
  filter nonempty (drop_trailing_blank lines) = filter nonempty lines.
Proof.
  induction lines as [|a r IH]; [reflexivity|].
  cbn [drop_trailing_blank filter]. rewrite <- IH.
  destruct (drop_trailing_blank r) as [|h t].
  - destruct a; reflexivity.
  - reflexivity.
Qed.

(** X2. Cleaning keeps every line that has text after its trailing
    whitespace is stripped, in order and as stripped: the non-empty lines
    of the cleaned text are the non-empty stripped lines of the text with
    its line ends unified. *)
Theorem clean_content_keeps_text_lines (content : str) :
  filter nonempty (split NL (clean_content content))
  = filter nonempty
      (map rstrip (split NL (replace_cr (replace_crlf content)))).
Proof.
  rewrite clean_content_lines, replace_unify.
  assert (H : filter nonempty (clean_lines content)
              = filter nonempty
                  (map rstrip (split NL (unify_newlines content)))).
  { rewrite clean_lines_spec, filter_nonempty_drop_trailing_blank.
    apply filter_nonempty_cap_blank_runs. }
  rewrite <- H. now destruct (clean_lines content).
Qed.

(** ** The verdicts of the validator *)

Lemma dropwhile_nil p (s : str) :
  dropwhile p s = [] <-> forallb p s = true.
Proof.
  induction s as [|c r IH]; simpl; [tauto|].
  destruct (p c); simpl; [exact IH|]. split; discriminate.
Qed.

Lemma dropwhile_head p (s : str) c r :
  dropwhile p s = c :: r -> p c = false.
Proof.
  induction s as [|x s IH]; simpl; [discriminate|].
  destruct (p x) eqn:E; [exact IH|]. now intros [= <- _].
Qed.

(** A text strips to nothing exactly when it is all whitespace. *)
Lemma strip_nil (s : str) : strip s = [] <-> forallb isspace s = true.
Proof.
  unfold strip, rstrip, lstrip. split.
  - intros H. apply (f_equal (@rev ascii)) in H.
    rewrite rev_involutive in H. simpl in H.
    apply dropwhile_nil in H. rewrite forallb_forall in H.
    apply dropwhile_nil.
    destruct (dropwhile isspace s) as [|c r] eqn:E; [reflexivity|].
    apply dropwhile_head in E. rewrite (H c) in E; [discriminate|].
    apply in_rev. rewrite rev_involutive. now left.
  - intros H. apply dropwhile_nil in H. now rewrite H.
Qed.

Lemma strip_nonempty_app (a b : str) :
  nonempty (strip a) = true -> nonempty (strip (a ++ b)) = true.
Proof.
  intros H. destruct (strip (a ++ b)) eqn:E; [|reflexivity].
  apply strip_nil in E. rewrite forallb_app in E.
  apply andb_true_iff in E. destruct E as [E _].
  apply strip_nil in E. now rewrite E in H.
Qed.

(** The three ways out of [validate]. *)
Lemma validate_cases (content : str) :
  (nonempty (strip content) = false
   /\ validate content = (false, Some ("Content cannot be empty" : str)))
  \/ (nonempty (strip content) = true
      /\ exists msg, scan_lines 1 [] (split NL content) = Err msg
                     /\ validate content = (false, Some msg))
  \/ (nonempty (strip content) = true
      /\ exists stack, scan_lines 1 [] (split NL content) = Ok stack
           /\ validate content =
              if is_nil stack then (true, None)
              else (false,
                    Some ("Unclosed block(s): " ++ join ", " stack))).
Proof.
  destruct (nonempty (strip content)) eqn:H.
  - right. rewrite (validate_scan _ H).
    destruct (scan_lines 1 [] (split NL content)) as [st|msg].
    + right. split; [reflexivity|]. exists st. auto.
    + left. split; [reflexivity|]. exists msg. auto.
  - left. split; [reflexivity|]. unfold validate.
    now rewrite H, orb_true_r.
Qed.

Lemma Forall_removelast {A : Type} (P : A -> Prop) (l : list A) :
  Forall P l -> Forall P (removelast l).
Proof.
  induction 1 as [|x l Hx Hl IH]; simpl; [constructor|].
  destruct l; [constructor|]. constructor; assumption.
Qed.

Lemma close_block_ok n kind st st' :
  close_block n kind st = Ok st' -> st' = removelast st.
Proof.
  unfold close_block.
  destruct (is_nil st || negb (str_eqb (last st []) kind));
    [discriminate|]. now intros [= <-].
Qed.

(** The stack holds block kinds only. *)
Lemma on_directive_stack n st d st' :
  on_directive n st d = Ok st' -> Forall is_kind st -> Forall is_kind st'.
Proof.
  unfold on_directive. intros H Hst.
  repeat match type of H with
  | (if ?b then _ else _) = _ => destruct b
  end;
  try (apply close_block_ok in H; subst st'; now apply Forall_removelast);
  injection H as <-; try assumption;
  apply Forall_app;
  (split;
   [assumption
   |constructor; [unfold is_kind; simpl; tauto|constructor]]).
Qed.

Lemma scan_directives_stack n st ds st' :
  scan_directives n st ds = Ok st' -> Forall is_kind st -> Forall is_kind st'.
Proof.
  revert st; induction ds as [|[d v] ds IH]; intros st; simpl.
  - now intros [= <-].
  - destruct (on_directive n st d) as [ob|] eqn:E; simpl; [|discriminate].
    intros H Hst. apply (IH ob H). eapply on_directive_stack; eauto.
Qed.

Lemma on_directive_err_kind n st d msg :
  on_directive n st d = Err msg ->
  exists kind : string,
    is_kind kind
    /\ msg = "Line " ++ str_of_nat n ++ ": Unexpected end_of_" ++ kind.
Proof.
  unfold on_directive.
  repeat match goal with
  | |- context [if ?b then _ else _] => destruct b
  end; intros H; try discriminate H;
    apply close_block_err in H; eexists; (split; [|exact H]);
    unfold is_kind; simpl; tauto.
Qed.

Lemma scan_directives_err_kind n st ds msg :
  scan_directives n st ds = Err msg ->
  exists kind : string,
    is_kind kind
    /\ msg = "Line " ++ str_of_nat n ++ ": Unexpected end_of_" ++ kind.
Proof.
  revert st; induction ds as [|[d v] ds IH]; intros st; simpl.
  - discriminate.
  - destruct (on_directive n st d) eqn:E; simpl; eauto.
    intros H. apply Err_inj in H. subst. eapply on_directive_err_kind; eauto.
Qed.

(** What a line contributes to the scan. *)
Lemma scan_line_ok n st line st' :
  scan_line n st line = Ok st' ->
  balanced line /\ scan_directives n st (findall line) = Ok st'.
Proof.
  unfold scan_line, check_brackets, balanced.
  destruct (scan_directives n st (findall line)) as [ob|]; simpl;
    [|discriminate].
  destruct (Nat.eqb_spec (count "[" line) (count "]" line)); simpl;
    [|discriminate].
  now intros [= <-].
Qed.

Lemma scan_line_err n st line msg :
  scan_line n st line = Err msg ->
  msg = "Line " ++ str_of_nat n ++ ": Unmatched brackets in chords"
  \/ exists kind : string,
       is_kind kind
       /\ msg = "Line " ++ str_of_nat n ++ ": Unexpected end_of_" ++ kind.
Proof.
  unfold scan_line, check_brackets.
  destruct (scan_directives n st (findall line)) as [ob|m] eqn:E; simpl.
  - destruct (Nat.eqb (count "[" line) (count "]" line)); simpl;
      [discriminate|].
    intros H. apply Err_inj in H. now left.
  - intros H. apply Err_inj in H. subst m. right.
    eapply scan_directives_err_kind; eauto.
Qed.

Lemma scan_lines_ok k st lines st' :
  scan_lines k st lines = Ok st' ->
  Forall balanced lines /\ (Forall is_kind st -> Forall is_kind st').
Proof.
  revert k st; induction lines as [|l lines IH]; intros k st; simpl.
  - intros [= <-]. split; [constructor|auto].
  - destruct (scan_line k st l) as [ob|] eqn:E; simpl; [|discriminate].
    intros H. apply IH in H. destruct H as [Hb Hk].
    apply scan_line_ok in E. destruct E as [Hl Hd].
    split; [now constructor|]. intros Hst. apply Hk.
    eapply scan_directives_stack; eauto.
Qed.

Lemma scan_lines_err k st lines msg :
  scan_lines k st lines = Err msg ->
  exists i, i < length lines
    /\ (msg = "Line " ++ str_of_nat (k + i)
               ++ ": Unmatched brackets in chords"
        \/ exists kind : string,
             is_kind kind
             /\ msg = "Line " ++ str_of_nat (k + i)
                       ++ ": Unexpected end_of_" ++ kind).
Proof.
  revert k st; induction lines as [|l lines IH]; intros k st; simpl.
  - discriminate.
  - destruct (scan_line k st l) as [ob|m] eqn:E; simpl.
    + intros H. apply IH in H. destruct H as [i [Hi H]].
      exists (S i). split; [lia|].
      now rewrite Nat.add_succ_r.
    + intros H. apply Err_inj in H. subst m.
      exists 0. split; [lia|]. rewrite Nat.add_0_r.
      eapply scan_line_err; eauto.
Qed.

(** X3. A document that [validate] accepts, or for which it reports
    unclosed blocks only, has as many opening as closing brackets on every
    line. *)
Theorem validate_accepted_lines_balanced (content : str) :
  validate content = (true, None)
  \/ (exists blocks,
         validate content
         = (false, Some ("Unclosed block(s): " ++ join ", " blocks))) ->
  Forall balanced (split NL content).
Proof.
  intros H.
  destruct (validate_cases content)
    as [[_ E]|[[_ [msg [Hs E]]]|[_ [st [Hs E]]]]].
  - rewrite E in H. destruct H as [H|[blocks H]]; discriminate H.
  - rewrite E in H. destruct H as [H|[blocks H]]; [discriminate H|].
    apply scan_lines_err in Hs.
    destruct Hs as [i [_ [->|[kind [_ ->]]]]]; discriminate H.
  - now apply scan_lines_ok in Hs.
Qed.

Lemma validate_accepted_lines_balanced_witness :
  Forall balanced (split NL ("{sov}" ++ [NL] ++ "[Am]la [C]la")).
Proof.
  apply validate_accepted_lines_balanced.
  right. exists [("verse" : str)]. reflexivity.
Defined.

(** X4. The errors of [validate]: the document is blank; or a line that
    exists, counted from 1, closes a block kind that is not the open one or
    has unmatched brackets; or, at the end, block kinds are still open, and
    the message lists them. *)
Theorem validate_error_shapes (content msg : str) :
  validate content = (false, Some msg) ->
  msg = "Content cannot be empty"
  \/ (exists (n : nat) (kind : string),
         1 <= n <= length (split NL content) /\ is_kind kind
         /\ msg = "Line " ++ str_of_nat n ++ ": Unexpected end_of_" ++ kind)
  \/ (exists n : nat,
         1 <= n <= length (split NL content)
         /\ msg = "Line " ++ str_of_nat n ++ ": Unmatched brackets in chords")
  \/ (exists blocks : list str,
         blocks <> [] /\ Forall is_kind blocks
         /\ msg = "Unclosed block(s): " ++ join ", " blocks).
Proof.
  intros H.
  destruct (validate_cases content)
    as [[_ E]|[[_ [m [Hs E]]]|[_ [st [Hs E]]]]];
    rewrite E in H.
  - left. congruence.
  - assert (m = msg) by congruence. subst m.
    apply scan_lines_err in Hs. destruct Hs as [i [Hi [->|[kind [Hk ->]]]]].
    + right. right. left. exists (1 + i). split; [lia|reflexivity].
    + right. left. exists (1 + i), kind. split; [lia|]. auto.
  - destruct st as [|k st]; [discriminate H|].
    right. right. right. exists (k :: st).
    split; [discriminate|]. split; [|cbn [is_nil] in H; congruence].
    apply scan_lines_ok in Hs. apply Hs. constructor.
Qed.

Lemma validate_error_shapes_witness :
  ("Line 2: Unmatched brackets in chords" : str) = "Content cannot be empty"
  \/ (exists (n : nat) (kind : string),
         1 <= n <= length (split NL ("{soc}" ++ [NL] ++ "la [C la"))
         /\ is_kind kind
         /\ ("Line 2: Unmatched brackets in chords" : str)
            = "Line " ++ str_of_nat n ++ ": Unexpected end_of_" ++ kind)
  \/ (exists n : nat,
         1 <= n <= length (split NL ("{soc}" ++ [NL] ++ "la [C la"))
         /\ ("Line 2: Unmatched brackets in chords" : str)
            = "Line " ++ str_of_nat n ++ ": Unmatched brackets in chords")
  \/ (exists blocks : list str,
         blocks <> [] /\ Forall is_kind blocks
         /\ ("Line 2: Unmatched brackets in chords" : str)
            = "Unclosed block(s): " ++ join ", " blocks).
Proof.
  apply (validate_error_shapes ("{soc}" ++ [NL] ++ "la [C la")).
  reflexivity.
Defined.

(** X5. An error that names a line stays the verdict when the document
    goes on with further lines. *)
Theorem validate_line_error_stable (content rest more : str) :
  validate content = (false, Some ("Line " ++ rest)) ->
  validate (content ++ NL :: more) = (false, Some ("Line " ++ rest)).
Proof.
  intros H.
  destruct (validate_cases content)
    as [[_ E]|[[Hne [m [Hs E]]]|[_ [st [Hs E]]]]];
    rewrite E in H.
  - discriminate H.
  - assert (m = "Line " ++ rest) by congruence. subst m.
    rewrite validate_scan by now apply strip_nonempty_app.
    now rewrite split_app, scan_lines_app, Hs.
  - destruct st; discriminate H.
Qed.

Lemma validate_line_error_stable_witness :
  validate ("la {eov}" ++ NL :: "[G]la" ++ [NL] ++ "{sov}")
  = (false, Some ("Line " ++ "1: Unexpected end_of_verse")).
Proof.
  apply (validate_line_error_stable "la {eov}"). reflexivity.
Defined.

(** ** The segments of a line *)

Lemma text_pair_cons_chord c segs :
  text_pair (mk_segment chord c :: segs) = text_pair segs.
Proof. destruct segs as [|b segs]; reflexivity. Qed.

Lemma text_pair_text_segment held c segs :
  text_pair (text_segment held ++ mk_segment chord c :: segs)
  = text_pair segs.
Proof.
  destruct held as [|x held]; destruct segs as [|b segs]; reflexivity.
Qed.

Lemma tokens_no_text_pair held s segs :
  tokens held s segs -> text_pair segs = false.
Proof.
  induction 1 as [held | held s body rest segs E _ IH | held c r segs E _ IH].
  - destruct held; reflexivity.
  - now rewrite text_pair_text_segment.
  - exact IH.
Qed.

Lemma chord_at_no_bracket s body rest :
  chord_at s = Some (body, rest) -> ~ In "]"%char body.
Proof.
  destruct s as [|c r]; simpl; [discriminate|].
  destruct (Ascii.eqb c "["); [|discriminate].
  destruct (span _ r) as [a b] eqn:E.
  destruct a as [|x a]; [discriminate|].
  destruct b as [|d b]; [discriminate|].
  destruct (Ascii.eqb d "]"); [|discriminate].
  intros [= <- <-] Hin. apply span_all in E.
  rewrite forallb_forall in E. apply E in Hin. discriminate Hin.
Qed.

Lemma tokens_chords_closed held s segs :
  tokens held s segs ->
  Forall (fun seg => seg_kind seg = chord -> ~ In "]"%char (seg_content seg))
         segs.
Proof.
  induction 1 as [held | held s body rest segs E _ IH | held c r segs E _ IH].
  - destruct held; unfold text_segment; simpl; repeat constructor.
    discriminate.
  - apply Forall_app. split.
    + destruct held; unfold text_segment; simpl; repeat constructor.
      discriminate.
    + constructor; [|exact IH]. intros _. simpl.
      eapply chord_at_no_bracket; eauto.
  - exact IH.
Qed.

Lemma text_pair_tail x segs :
  text_pair (x :: segs) = false -> text_pair segs = false.
Proof.
  simpl. destruct segs as [|b segs]; [reflexivity|].
  intros H. apply orb_false_iff in H. tauto.
Qed.

Lemma text_pair_none segs :
  text_pair segs = false ->
  forall (a b : list segment) (s t : str),
    segs <> a ++ [mk_segment text s; mk_segment text t] ++ b.
Proof.
  intros H a; revert segs H; induction a as [|x a IH]; intros segs H b s t E.
  - subst segs. discriminate H.
  - subst segs. simpl in IH. apply text_pair_tail in H.
    exact (IH _ H b s t eq_refl).
Qed.

(** X6. The segments of a line are never empty, a chord never holds a
    closing bracket, and no two text segments follow each other: the text
    between two chords is one segment. *)
Theorem parse_line_segments_shape (line : str) :
  Forall (fun seg => seg_content seg <> []
                     /\ (seg_kind seg = chord ->
                         ~ In "]"%char (seg_content seg)))
         (parse_line line)
  /\ forall (a b : list segment) (s t : str),
       parse_line line
       <> a ++ [mk_segment text s; mk_segment text t] ++ b.
Proof.
  pose proof (parse_line_tokens line) as H. split.
  - pose proof (tokens_nonempty _ _ _ H) as H1.
    pose proof (tokens_chords_closed _ _ _ H) as H2.
    rewrite Forall_forall in *. intros seg Hseg. split; auto.
  - apply tokens_no_text_pair in H. now apply text_pair_none.
Qed.

(** A line in which no chord can open or close is one text. *)
Lemma tokens_plain held s :
  ~ In "]"%char s -> tokens held s (text_segment (held ++ s)).
Proof.
  revert held; induction s as [|c r IH]; intros held H.
  - rewrite app_nil_r. constructor.
  - apply tokens_char.
    + destruct (chord_at (c :: r)) as [[body rest]|] eqn:E; [|reflexivity].
      apply chord_at_inv in E. destruct E as [E _]. exfalso. apply H.
      rewrite E. right. apply in_or_app. right. now left.
    + replace (held ++ c :: r) with ((held ++ [c]) ++ r)
        by (rewrite <- app_assoc; reflexivity).
      apply IH. intros Hr. apply H. now right.
Qed.

Lemma chord_at_needs_open s : ~ In "["%char s -> chord_at s = None.
Proof.
  destruct s as [|c r]; [reflexivity|]. intros H. simpl.
  destruct (Ascii.eqb_spec c "["); [|reflexivity].
  exfalso. apply H. now left.
Qed.

Lemma tokens_text held t s segs :
  ~ In "["%char t -> tokens (held ++ t) s segs -> tokens held (t ++ s) segs.
Proof.
  revert held; induction t as [|c t IH]; intros held H Ht.
  - now rewrite app_nil_r in Ht.
  - simpl. apply tokens_char.
    + simpl. destruct (Ascii.eqb_spec c "["); [|reflexivity].
      exfalso. apply H. now left.
    + apply IH; [intros Hc; apply H; now right|].
      now rewrite <- app_assoc.
Qed.

(** X7. A line without closing bracket, or without opening bracket, is
    one text segment holding the line, and no segment when it is empty. *)
Theorem parse_line_plain (line : str) :
  ~ In "["%char line \/ ~ In "]"%char line ->
  parse_line line = text_segment line.
Proof.
  intros H. symmetry.
  apply (tokens_deterministic [] line); [|apply parse_line_tokens].
  destruct H as [H|H].
  - change line with ([] ++ line) at 2.
    rewrite <- (app_nil_r line) at 1.
    apply tokens_text; [assumption|]. simpl. constructor.
  - now apply (tokens_plain []).
Qed.

Lemma parse_line_plain_witness :
  parse_line "Amazing grace, [how sweet" = text_segment "Amazing grace, [how sweet".
Proof.
  apply parse_line_plain. right. simpl. intuition discriminate.
Defined.

(** Reading back what [render] writes. *)

Lemma chord_at_render (c rest : str) :
  c <> [] -> ~ In "]"%char c ->
  chord_at ("["%char :: c ++ "]"%char :: rest) = Some (c, rest).
Proof.
  intros Hne Hc. simpl.
  rewrite (span_run (fun x => negb (Ascii.eqb x "]")) c "]"%char rest).
  - destruct c; [congruence|reflexivity].
  - apply forallb_forall. intros x Hx.
    destruct (Ascii.eqb_spec x "]"); [subst; contradiction|reflexivity].
  - reflexivity.
Qed.

Lemma tokens_rendered (segs : list segment) :
  Forall seg_plain segs -> text_pair segs = false ->
  forall held : str,
    held = [] \/ match segs with
                 | seg :: _ => seg_kind seg = chord
                 | [] => True
                 end ->
    tokens held (concat (map render segs)) (text_segment held ++ segs).
Proof.
  induction segs as [|[k c] rest IH]; intros Hplain Hpair held Hheld.
  - rewrite app_nil_r. constructor.
  - inversion Hplain as [|? ? [Hne Hc] Hrest]; subst.
    pose proof (text_pair_tail _ _ Hpair) as Hpair'.
    simpl in Hne, Hc. destruct k.
    + (* a text: nothing is held *)
      destruct Hheld as [->|Hk]; [|discriminate Hk].
      simpl. unfold render at 1. simpl.
      apply tokens_text; [assumption|]. simpl.
      replace (mk_segment text c :: rest) with (text_segment c ++ rest)
        by (destruct c; [congruence|reflexivity]).
      apply IH; try assumption.
      right. destruct rest as [|[k' c'] rest']; [exact I|].
      simpl in Hpair. destruct k'; [discriminate Hpair|reflexivity].
    + (* a chord *)
      simpl. unfold render at 1. simpl. rewrite <- app_assoc. simpl.
      eapply tokens_chord.
      * now apply chord_at_render.
      * apply (IH Hrest Hpair' []). now left.
Qed.

(** X8. Segments that are not empty, with texts free of opening brackets,
    chords free of closing brackets and no two texts in a row, are read
    back by [parse_line] from the line they render to. *)
Theorem parse_line_of_rendered (segs : list segment) :
  Forall seg_plain segs -> text_pair segs = false ->
  parse_line (concat (map render segs)) = segs.
Proof.
  intros Hplain Hpair. symmetry.
  apply (tokens_deterministic [] (concat (map render segs)));
    [|apply parse_line_tokens].
  apply (tokens_rendered segs Hplain Hpair []). now left.
Qed.

Lemma parse_line_of_rendered_witness :
  parse_line (concat (map render
                [mk_segment chord "Am7"; mk_segment chord "G/B";
                 mk_segment text "la] la "; mk_segment chord "[C"]))
  = [mk_segment chord "Am7"; mk_segment chord "G/B";
     mk_segment text "la] la "; mk_segment chord "[C"].
Proof.
  apply parse_line_of_rendered; [|reflexivity].
  repeat constructor; simpl; try discriminate; intuition discriminate.
Defined.

(** ** The text fields of the extractor *)

Lemma str_or_empty (v : str) : str_or v "" = v.
Proof. destruct v; reflexivity. Qed.

Lemma str_in_one (d : str) (name : string) :
  str_in d [name] = str_eqb d name.
Proof. unfold str_in. simpl. apply orb_false_r. Qed.

Section ExtractFields.

Variable int_of_str : str -> option Z.

Lemma on_extract_named f md d v :
  str_in d (field_names f) = true ->
  field_value f (on_extract_directive int_of_str md (d, v)) = Some v.
Proof.
  intros H. apply str_in_In in H.
  destruct f; simpl in H;
    repeat (destruct H as [H|H]; [subst d; simpl; apply f_equal,
                                  str_or_empty|]);
    contradiction.
Qed.

Lemma on_extract_unnamed f md d v :
  str_in d (field_names f) = false ->
  field_value f (on_extract_directive int_of_str md (d, v))
  = field_value f md.
Proof.
  intros H. unfold on_extract_directive.
  destruct f; cbn [field_names] in H; rewrite ?str_in_one in H;
    repeat match goal with
    | |- context [if ?b then _ else _] => destruct b eqn:?
    end; try reflexivity; congruence.
Qed.

Lemma fold_extract_unnamed f ds md :
  (forall d v, In (d, v) ds -> str_in d (field_names f) = false) ->
  field_value f (fold_left (on_extract_directive int_of_str) ds md)
  = field_value f md.
Proof.
  revert md; induction ds as [|[d v] ds IH]; intros md H; simpl; auto.
  rewrite IH by (intros d' v' Hin; apply (H d' v'); now right).
  apply on_extract_unnamed. apply (H d v). now left.
Qed.

Lemma last_named_or_none f (ds : list (str * str)) :
  (forall d v, In (d, v) ds -> str_in d (field_names f) = false)
  \/ exists pre d v post,
       ds = pre ++ (d, v) :: post
       /\ str_in d (field_names f) = true
       /\ (forall d' v', In (d', v') post ->
                         str_in d' (field_names f) = false).
Proof.
  induction ds as [|[d v] ds IH].
  - left. intros d v [].
  - destruct IH as [IH|(pre & d0 & v0 & post & -> & Hd & Hpost)].
    + destruct (str_in d (field_names f)) eqn:E.
      * right. exists [], d, v, ds. auto.
      * left. intros d' v' [[= <- <-]|Hin]; eauto.
    + right. exists ((d, v) :: pre), d0, v0, post. auto.
Qed.

Lemma fold_extract_last f pre d v post md :
  str_in d (field_names f) = true ->
  (forall d' v', In (d', v') post -> str_in d' (field_names f) = false) ->
  field_value f (fold_left (on_extract_directive int_of_str)
                           (pre ++ (d, v) :: post) md) = Some v.
Proof.
  intros Hd Hpost. rewrite fold_left_app. simpl.
  rewrite fold_extract_unnamed by assumption.
  now apply on_extract_named.
Qed.

(** X9. Each text field of the extracted metadata is unset exactly when
    no directive of the document has one of its names, and holds the value
    of the last directive that has: later occurrences win. *)
Theorem extract_metadata_last_wins (f : text_field) (content : str) :
  (field_value f (extract_metadata int_of_str content) = None
   <-> forall d v, In (d, v) (findall content) ->
                   str_in d (field_names f) = false)
  /\ (forall pre d v post,
         findall content = pre ++ (d, v) :: post ->
         str_in d (field_names f) = true ->
         (forall d' v', In (d', v') post ->
                        str_in d' (field_names f) = false) ->
         field_value f (extract_metadata int_of_str content) = Some v).
Proof.
  unfold extract_metadata. split.
  - destruct (last_named_or_none f (findall content))
      as [Hnone|(pre & d & v & post & E & Hd & Hpost)].
    + rewrite fold_extract_unnamed by assumption.
      split; [auto|]. intros _. destruct f; reflexivity.
    + rewrite E, fold_extract_last by assumption.
      split; [discriminate|]. intros H.
      rewrite (H d v) in Hd; [discriminate|].
      apply in_or_app. right. now left.
  - intros pre d v post E Hd Hpost.
    rewrite E. now apply fold_extract_last.
Qed.

End ExtractFields.

(** ** What the merge writes *)

Lemma join_nil_cons sep (l : list str) :
  l <> [] -> join [sep] ([] :: l) = sep :: join [sep] l.
Proof. destruct l; [congruence|reflexivity]. Qed.

Lemma join_head_cons sep c (h : str) (t : list str) :
  join [sep] ((c :: h) :: t) = c :: join [sep] (h :: t).
Proof. destruct t; reflexivity. Qed.

Lemma join_split sep (s : str) : join [sep] (split sep s) = s.
Proof.
  induction s as [|c r IH]; [reflexivity|].
  pose proof (split_not_nil sep r) as Hn.
  cbn [split]. destruct (Ascii.eqb_spec c sep) as [->|Hne].
  - rewrite join_nil_cons by assumption. now rewrite IH.
  - destruct (split sep r) as [|h t] eqn:E; [congruence|].
    rewrite join_head_cons. now rewrite IH.
Qed.

Lemma in_split_join sep (l : list str) (x : str) :
  In x l -> ~ In sep x -> In x (split sep (join [sep] l)).
Proof.
  intros Hx Hfree.
  rewrite split_join_pieces by (intros ->; destruct Hx).
  apply in_flat_map. exists x. split; [assumption|].
  rewrite split_no_sep by assumption. now left.
Qed.

Section MergeOutput.

Variables (title artist : option str) (capo : option Z) (key : option str).

(** X10. With no value to set (no title, artist or key, or empty ones,
    and no capo) and no metadata line in the document, the merge returns
    the document. *)
Theorem inject_metadata_nothing_to_merge (content : str) :
  truthy title = false -> truthy artist = false -> capo = None ->
  truthy key = false ->
  Forall (fun line => is_metadata_line line = false) (split NL content) ->
  inject_metadata title artist capo key content = content.
Proof.
  intros Ht Ha Hc Hk Hlines. rewrite Forall_forall in Hlines.
  unfold inject_metadata. rewrite inject_lines_spec. cbv zeta.
  rewrite new_metadata_spec.
  rewrite flat_map_all_nil
    by (intros f; unfold canonical; destruct f; rewrite ?Ht, ?Ha, ?Hc, ?Hk;
        reflexivity).
  rewrite (filter_none is_metadata_line) by assumption.
  rewrite (filter_all is_content_line)
    by (intros x Hx; unfold is_content_line; now rewrite (Hlines x Hx)).
  simpl. apply join_split.
Qed.

End MergeOutput.

Lemma inject_metadata_nothing_to_merge_witness :
  inject_metadata (Some []) None None None
    ("{c:Intro}" ++ [NL] ++ "[G]la {soc}" ++ [NL; NL] ++ " la")
  = "{c:Intro}" ++ [NL] ++ "[G]la {soc}" ++ [NL; NL] ++ " la".
Proof.
  apply inject_metadata_nothing_to_merge; try reflexivity.
  repeat constructor.
Defined.

Section MergeHeader.

Variables (title artist : option str) (capo : option Z) (key : option str).

Hypothesis plain_title : plain title.
Hypothesis plain_artist : plain artist.
Hypothesis plain_key : plain key.

Variable content : str.

(** The canonical line of a supplied field is among the header lines: it
    is added when the document has no line of the field, and a line of the
    field is rewritten to it when the line names no other supplied field. *)
Lemma supplied_line_in_header f c :
  Forall (one_supplied_field title artist capo key) (split NL content) ->
  canonical title artist capo key f = Some c ->
  In c (new_metadata title artist capo key
          (fold_left (fun m f => mark f m)
             (flat_map line_fields (split NL content)) found_none)
        ++ map (rewritten title artist capo key)
             (filter is_metadata_line (split NL content))).
Proof.
  intros Hone E. apply in_or_app.
  set (F := fold_left _ _ _).
  destruct (seen f F) eqn:S.
  - right. unfold F in S. apply seen_fold in S.
    destruct S as [S|S]; [destruct f; discriminate S|].
    apply in_flat_map in S. destruct S as [l [Hl Hf]].
    apply in_map_iff. exists l. split.
    + destruct (fields_last_supplied title artist capo key (line_fields l))
        as [H|(before & g & after & c' & Eg & Hg & Ha)].
      * rewrite (H f Hf) in E. discriminate.
      * assert (g = f).
        { rewrite Forall_forall in Hone.
          apply (Hone l Hl g f c' c); auto.
          rewrite Eg. apply in_or_app. right. now left. }
        subst g. rewrite E in Hg. injection Hg as <-.
        eapply rewrite_line_last; eauto.
    + apply filter_In. split; [assumption|].
      eapply fields_metadata; eauto.
  - left. rewrite new_metadata_spec. apply in_flat_map.
    exists f. split; [destruct f; simpl; tauto|].
    rewrite E, S. now left.
Qed.

Lemma merged_lines :
  split NL (inject_metadata title artist capo key content)
  = inject_lines title artist capo key content.
Proof.
  unfold inject_metadata. apply split_join.
  - apply inject_lines_not_nil.
  - apply inject_lines_free. now apply canonical_free.
Qed.

(** X11. Every supplied value is in the merged text, on a line of its own
    in the canonical form, when the title, artist and key have no line
    feed and no closing brace and no line of the document names two of the
    supplied fields. *)
Theorem inject_metadata_writes_values :
  Forall (one_supplied_field title artist capo key) (split NL content) ->
  let merged := split NL (inject_metadata title artist capo key content) in
  (forall v, title = Some v -> v <> [] -> In ("{title:" ++ v ++ "}") merged)
  /\ (forall v, artist = Some v -> v <> [] ->
        In ("{artist:" ++ v ++ "}") merged)
  /\ (forall c, capo = Some c -> In ("{capo:" ++ str_of_Z c ++ "}") merged)
  /\ (forall v, key = Some v -> v <> [] -> In ("{key:" ++ v ++ "}") merged).
Proof.
  intros Hone merged.
  assert (H : forall f c, canonical title artist capo key f = Some c ->
                          In c merged).
  { intros f c E. unfold merged. rewrite merged_lines, inject_lines_spec.
    cbv zeta. apply in_or_app. left.
    now apply (supplied_line_in_header f). }
  repeat split.
  - intros v -> Hv. apply (H Title). destruct v; [congruence|reflexivity].
  - intros v -> Hv. apply (H Artist). destruct v; [congruence|reflexivity].
  - intros c ->. apply (H Capo). reflexivity.
  - intros v -> Hv. apply (H Key). destruct v; [congruence|reflexivity].
Qed.

(** X12. The merged text is a header of metadata lines, then at most one
    empty line, then the content lines of the document: no metadata line
    stays below a content line. *)
Theorem inject_metadata_header_on_top :
  exists header separator : list str,
    split NL (inject_metadata title artist capo key content)
    = header ++ separator ++ filter is_content_line (split NL content)
    /\ Forall (fun line => is_metadata_line line = true) header
    /\ (separator = [] \/ separator = [[]]).
Proof.
  rewrite merged_lines, inject_lines_spec. cbv zeta.
  eexists. eexists. split; [reflexivity|]. split.
  - apply Forall_forall. intros x Hx.
    now apply (header_line_stable title artist capo key plain_title
                 plain_artist plain_key content x).
  - destruct (needs_separator _ _); auto.
Qed.

End MergeHeader.

Lemma inject_metadata_writes_values_witness :
  let merged :=
    split NL (inject_metadata (Some ("X" : str)) None (Some 2%Z) None
                ("{t:Old}" ++ [NL] ++ "{key:G} {c:intro}" ++ [NL] ++ "la"))
  in In ("{title:X}" : str) merged /\ In ("{capo:2}" : str) merged.
Proof.
  intros merged.
  destruct (inject_metadata_writes_values
              (Some ("X" : str)) None (Some 2%Z) None)
    with (content := "{t:Old}" ++ [NL] ++ "{key:G} {c:intro}" ++ [NL] ++ "la")
    as (Ht & _ & Hc & _).
  - intros v [= <-]. simpl. intuition discriminate.
  - intros v H. discriminate H.
  - intros v H. discriminate H.
  - repeat constructor; intros f g c c' Hf Hg Ec Ec';
      vm_compute in Hf, Hg; intuition congruence.
  - split.
    + apply (Ht ("X" : str) eq_refl). discriminate.
    + apply (Hc 2%Z eq_refl).
Defined.

Lemma inject_metadata_header_on_top_witness :
  exists header separator : list str,
    split NL (inject_metadata (Some ("X" : str)) None None None
                ("la" ++ [NL] ++ "{t:Old}" ++ [NL] ++ "{c:end}"))
    = header ++ separator ++ ["la" : str; "{c:end}" : str]
    /\ Forall (fun line => is_metadata_line line = true) header
    /\ (separator = [] \/ separator = [[]]).
Proof.
  apply (inject_metadata_header_on_top (Some ("X" : str)) None None None).
  - intros v [= <-]. simpl. intuition discriminate.
  - intros v H. discriminate H.
  - intros v H. discriminate H.
Defined.

(** ** A blank text *)

Lemma in_unify_newlines_bounded (n : nat) :
  forall (s : str) c, length s <= n ->
    In c (unify_newlines s) -> c = NL \/ In c s.
Proof.
  induction n as [|n IH]; intros s c Hn.
  - destruct s; [intros []|simpl in Hn; lia].
  - destruct s as [|x r]; [intros []|]. simpl in Hn.
    cbn [unify_newlines]. destruct (Ascii.eqb x CR).
    + intros [H|H]; [now left|].
      destruct r as [|d r']; [destruct H|].
      simpl in Hn. destruct (Ascii.eqb d NL).
      * destruct (IH r' c) as [E|E]; [lia|assumption|now left|].
        right. right. now right.
      * destruct (IH (d :: r') c) as [E|E]; [simpl; lia|assumption|now left|].
        right. now right.
    + intros [H|H]; [right; now left|].
      destruct (IH r c) as [E|E]; [lia|assumption|now left|].
      right. now right.
Qed.

Lemma unify_newlines_in_bounded (n : nat) :
  forall (s : str) c, length s <= n ->
    In c s -> c <> CR -> c <> NL -> In c (unify_newlines s).
Proof.
  induction n as [|n IH]; intros s c Hn.
  - destruct s; [intros []|simpl in Hn; lia].
  - destruct s as [|x r]; [intros []|]. simpl in Hn.
    intros Hin Hcr Hnl. cbn [unify_newlines].
    destruct (Ascii.eqb_spec x CR) as [->|Hx].
    + destruct Hin as [E|Hin]; [congruence|]. right.
      destruct r as [|d r']; [destruct Hin|]. simpl in Hn.
      destruct (Ascii.eqb_spec d NL) as [->|Hd].
      * destruct Hin as [E|Hin]; [congruence|]. apply IH; auto; lia.
      * apply IH; auto. simpl; lia.
    + destruct Hin as [E|Hin]; [now left|]. right. apply IH; auto; lia.
Qed.

Lemma split_in sep (s : str) c :
  In c s -> c <> sep -> exists x, In x (split sep s) /\ In c x.
Proof.
  intros Hin Hc. induction s as [|d r IH]; [destruct Hin|].
  pose proof (split_not_nil sep r) as Hn. cbn [split].
  destruct (Ascii.eqb_spec d sep) as [->|Hd].
  - destruct Hin as [E|Hin]; [congruence|].
    destruct (IH Hin) as [x [Hx Hcx]]. exists x. split; [now right|assumption].
  - destruct (split sep r) as [|h t]; [congruence|].
    destruct Hin as [E|Hin].
    + exists (d :: h). split; [now left|now left].
    + destruct (IH Hin) as [x [[<-|Hx] Hcx]].
      * exists (d :: h). split; [now left|now right].
      * exists x. split; [now right|assumption].
Qed.

Lemma dropwhile_keeps p (s : str) c :
  In c s -> p c = false -> In c (dropwhile p s).
Proof.
  intros Hin Hp. induction s as [|x s IH]; [destruct Hin|]. simpl.
  destruct (p x) eqn:E.
  - destruct Hin as [->|Hin]; [congruence|auto].
  - assumption.
Qed.

Lemma rstrip_keeps (s : str) c :
  In c s -> isspace c = false -> In c (rstrip s).
Proof.
  intros Hin Hc. unfold rstrip. apply -> in_rev.
  apply dropwhile_keeps; [|assumption]. now apply -> in_rev.
Qed.

Lemma rstrip_blank (s : str) : forallb isspace s = true -> rstrip s = [].
Proof.
  intros H. unfold rstrip.
  assert (E : dropwhile isspace (rev s) = []).
  { apply dropwhile_nil. apply forallb_forall. intros c Hc.
    rewrite forallb_forall in H. apply H. now apply in_rev. }
  now rewrite E.
Qed.

Lemma join_in sep (l : list str) x c :
  In x l -> In c x -> In c (join sep l).
Proof.
  intros Hx Hc. induction l as [|y l IH]; [destruct Hx|].
  destruct l as [|z l].
  - destruct Hx as [->|[]]. exact Hc.
  - change (join sep (y :: z :: l)) with (y ++ sep ++ join sep (z :: l)).
    destruct Hx as [->|Hx].
    + apply in_or_app. now left.
    + apply in_or_app. right. apply in_or_app. right. now apply IH.
Qed.

Lemma clean_lines_text content :
  filter nonempty (clean_lines content)
  = filter nonempty (map rstrip (split NL (unify_newlines content))).
Proof.
  rewrite clean_lines_spec, filter_nonempty_drop_trailing_blank.
  apply filter_nonempty_cap_blank_runs.
Qed.

Lemma last_in {A : Type} (l : list A) d : l <> [] -> In (last l d) l.
Proof.
  induction l as [|a l IH]; [congruence|]. intros _.
  destruct l as [|b l]; [now left|].
  right. apply IH. discriminate.
Qed.

(** A character that is no white space stays in the cleaned text. *)
Lemma clean_content_keeps_chars (content : str) c :
  In c content -> isspace c = false -> In c (clean_content content).
Proof.
  intros Hc S.
  assert (Hcr : c <> CR) by (intros ->; discriminate S).
  assert (Hnl : c <> NL) by (intros ->; discriminate S).
  pose proof (unify_newlines_in_bounded (length content) content c
                (le_n _) Hc Hcr Hnl) as Hu.
  destruct (split_in NL _ c Hu Hnl) as [y [Hy Hcy]].
  assert (Hr : In c (rstrip y)) by now apply rstrip_keeps.
  assert (Hl : In (rstrip y) (filter nonempty (clean_lines content))).
  { rewrite clean_lines_text. apply filter_In. split.
    - now apply in_map.
    - destruct (rstrip y); [destruct Hr|reflexivity]. }
  apply filter_In in Hl. destruct Hl as [Hl _].
  exact (join_in [NL] _ _ c Hl Hr).
Qed.

Lemma clean_content_blank (content : str) :
  forallb isspace content = true -> clean_content content = [].
Proof.
  intros H. rewrite forallb_forall in H.
  assert (Hf : filter nonempty (clean_lines content) = []).
  { rewrite clean_lines_text. apply filter_none. intros x Hx.
    apply in_map_iff in Hx. destruct Hx as [y [<- Hy]].
    rewrite rstrip_blank; [reflexivity|].
    apply forallb_forall. intros c Hc.
    pose proof (in_split NL _ y c Hy Hc) as Hu.
    apply (in_unify_newlines_bounded (length content)) in Hu; [|lia].
    destruct Hu as [->|Hu]; [reflexivity|auto]. }
  unfold clean_content.
  destruct (clean_lines_last content) as [->|Hlast]; [reflexivity|].
  exfalso.
  destruct (clean_lines content) as [|a l] eqn:E; [now apply Hlast|].
  assert (Hin : In (last (a :: l) []) (filter nonempty (a :: l))).
  { apply filter_In. split; [apply last_in; discriminate|].
    destruct (last (a :: l) []); [congruence|reflexivity]. }
  rewrite Hf in Hin. destruct Hin.
Qed.

Lemma blank_of_cleaned_blank (content : str) :
  forallb isspace (clean_content content) = true ->
  forallb isspace content = true.
Proof.
  intros H. rewrite forallb_forall in H. apply forallb_forall. intros c Hc.
  destruct (isspace c) eqn:S; [reflexivity|].
  rewrite <- S. apply H. now apply clean_content_keeps_chars.
Qed.

(** X13. The cleaned text is empty exactly when the text is made of
    white space only (the empty text included). *)
Theorem clean_content_empty_iff_blank (content : str) :
  clean_content content = [] <-> forallb isspace content = true.
Proof.
  split.
  - intros E. apply blank_of_cleaned_blank. now rewrite E.
  - apply clean_content_blank.
Qed.

(** ** Storing a song *)

Lemma contains_skip (sub s : str) c u :
  Ascii.eqb u c = false -> contains (u :: sub) (c :: s) = contains (u :: sub) s.
Proof. intros H. cbn [contains startswith]. now rewrite H. Qed.

Lemma contains_after_digits (sub d rest : str) u :
  is_digit u = false ->
  Forall (fun c => is_digit c = true) d ->
  contains (u :: sub) (d ++ rest) = contains (u :: sub) rest.
Proof.
  intros Hu Hd. induction Hd as [|c d Hc _ IH]; [reflexivity|].
  cbn [app]. rewrite contains_skip; [exact IH|].
  destruct (Ascii.eqb_spec u c) as [->|]; [congruence|reflexivity].
Qed.

(** The message of a line error does not name an unclosed block. *)
Lemma line_error_not_unclosed k st lines msg :
  scan_lines k st lines = Err msg ->
  contains "Unclosed block" msg = false /\ exists rest, msg = "Line " ++ rest.
Proof.
  intros H. apply scan_lines_err in H.
  destruct H as [i [_ [->|[kind [Hk ->]]]]].
  - split; [|eexists; reflexivity].
    change (list_ascii_of_string "Unclosed block")
      with ("U"%char :: list_ascii_of_string "nclosed block").
    change (list_ascii_of_string "Line ")
      with ["L"; "i"; "n"; "e"; " "]%char.
    cbn [app]. rewrite !contains_skip by reflexivity.
    rewrite contains_after_digits;
      [reflexivity|reflexivity|apply str_of_nat_digits].
  - split; [|eexists; reflexivity].
    change (list_ascii_of_string "Unclosed block")
      with ("U"%char :: list_ascii_of_string "nclosed block").
    change (list_ascii_of_string "Line ")
      with ["L"; "i"; "n"; "e"; " "]%char.
    cbn [app]. rewrite !contains_skip by reflexivity.
    rewrite contains_after_digits;
      [|reflexivity|apply str_of_nat_digits].
    unfold is_kind in Hk. simpl in Hk.
    destruct Hk as [E|[E|[E|[E|[]]]]]; rewrite <- E; reflexivity.
Qed.

Lemma clean_and_check_cases (content : str) :
  (forallb isspace content = true
   /\ clean_and_check content
      = Err ("Invalid ChordPro content: Content cannot be empty" : str))
  \/ (exists rest,
        validate (clean_content content) = (false, Some ("Line " ++ rest))
        /\ clean_and_check content
           = Err ("Invalid ChordPro content: Line " ++ rest))
  \/ (nonempty (strip (clean_content content)) = true
      /\ (exists stack,
            scan_lines 1 [] (split NL (clean_content content)) = Ok stack)
      /\ clean_and_check content = Ok (clean_content content)).
Proof.
  unfold clean_and_check.
  destruct (validate_cases (clean_content content))
    as [[Hb ->]|[[Hn [msg [Hs ->]]]|[Hn [stack [Hs ->]]]]].
  - left. split; [|reflexivity]. apply blank_of_cleaned_blank.
    apply strip_nil. now destruct (strip (clean_content content)).
  - right. left. destruct (line_error_not_unclosed _ _ _ _ Hs) as [Hc [rest ->]].
    exists rest. split; [reflexivity|].
    cbn [negb andb the]. rewrite Hc. reflexivity.
  - right. right. split; [assumption|]. split; [now exists stack|].
    destruct (is_nil stack); reflexivity.
Qed.

(** X14. [create_song] raises for two reasons only: a text of white space
    only, and a line error of the validator on the cleaned text (a block
    end that closes nothing, or unmatched brackets).  The message is the
    validator's after a fixed prefix.  Unclosed blocks do not stop it. *)
Theorem create_song_raises (title content : str) (folder_id : option Z)
    (author : option str) (capo transpose_semitones : Z)
    (user_id : option Z) (msg : str) :
  create_song title content folder_id author capo transpose_semitones user_id
  = Err msg
  <-> (forallb isspace content = true
       /\ msg = "Invalid ChordPro content: Content cannot be empty")
      \/ (exists rest,
            validate (clean_content content)
            = (false, Some ("Line " ++ rest))
            /\ msg = "Invalid ChordPro content: Line " ++ rest).
Proof.
  unfold create_song.
  destruct (clean_and_check_cases content)
    as [[Hb E]|[[rest [Hv E]]|[Hn [[stack Hs] E]]]]; rewrite E; cbn [bind].
  - split.
    + intros H. apply Err_inj in H. left. auto.
    + intros [[_ ->]|[rest [Hv ->]]]; [reflexivity|].
      apply clean_content_blank in Hb. rewrite Hb in Hv. discriminate Hv.
  - split.
    + intros H. apply Err_inj in H. right. exists rest. auto.
    + intros [[Hb ->]|[rest' [Hv' ->]]].
      * apply clean_content_blank in Hb. rewrite Hb in Hv. discriminate Hv.
      * rewrite Hv in Hv'. injection Hv' as <-. reflexivity.
  - split; [discriminate|].
    intros [[Hb _]|[rest [Hv _]]].
    + apply clean_content_blank in Hb. rewrite Hb in Hn. discriminate Hn.
    + destruct (validate_cases (clean_content content))
        as [[Hb _]|[[_ [m [Hm _]]]|[_ [st [Hst Hv']]]]].
      * congruence.
      * congruence.
      * rewrite Hv in Hv'. destruct (is_nil st); discriminate Hv'.
Qed.

(** The merge depends on the values through their canonical lines only. *)
Lemma rewritten_ext t a c k t' a' c' k' :
  (forall f, canonical t a c k f = canonical t' a' c' k' f) ->
  forall line, rewritten t a c k line = rewritten t' a' c' k' line.
Proof.
  intros H line. unfold rewritten.
  generalize (line_fields line), line at 2 4.
  intros fs. induction fs as [|f fs IH]; intros l; [reflexivity|].
  cbn [fold_left]. rewrite H. apply IH.
Qed.

Lemma inject_metadata_ext t a c k t' a' c' k' content :
  (forall f, canonical t a c k f = canonical t' a' c' k' f) ->
  inject_metadata t a c k content = inject_metadata t' a' c' k' content.
Proof.
  intros H. unfold inject_metadata. f_equal.
  rewrite !inject_lines_spec. cbv zeta. rewrite !new_metadata_spec.
  rewrite (map_ext _ _ (rewritten_ext _ _ _ _ _ _ _ _ H)).
  rewrite (flat_map_ext _
             (fun f => match canonical t' a' c' k' f with
                       | Some c0 =>
                           if seen f
                                (fold_left (fun m f0 => mark f0 m)
                                   (flat_map line_fields (split NL content))
                                   found_none)
                           then [] else [c0]
                       | None => []
                       end)); [reflexivity|].
  intros f. now rewrite H.
Qed.

Lemma inject_metadata_artist_falsy t (a : option str) c k content :
  inject_metadata t (if truthy a then a else None) c k content
  = inject_metadata t a c k content.
Proof.
  apply inject_metadata_ext. intros f.
  destruct a as [[|x r]|]; destruct f; reflexivity.
Qed.

Lemma inject_metadata_res_artist_falsy t (a : option str) c k content :
  inject_metadata_res t (if truthy a then a else None) c k content
  = inject_metadata_res t a c k content.
Proof.
  rewrite !inject_metadata_res_spec.
  now rewrite inject_metadata_artist_falsy.
Qed.

Lemma capo_or_zero (n : Z) : (if negb (Z.eqb n 0) then n else 0%Z) = n.
Proof. destruct (Z.eqb_spec n 0); simpl; congruence. Qed.

(** X15. A song updated with a new, non-empty content is the song that
    [create_song] makes of this content and of the title, folder, author,
    capo and transposition that the song has after the update; and the
    update raises on the contents on which [create_song] raises, with the
    same message. *)
Theorem update_song_as_created (song : Song) (title : option str)
    (content : str) (folder_id : option Z) (author : option str)
    (capo transpose_semitones : option Z) :
  content <> [] ->
  (forall s v,
      update_song song title (Some content) folder_id author capo
        transpose_semitones = Ok (s, v) ->
      exists v',
        create_song (song_title s) content (song_folder_id s) (song_author s)
          (song_capo s) (song_transpose_semitones s) (song_user_id s)
        = Ok (s, v'))
  /\ (forall msg title' folder_id' author' capo' transpose' user_id',
         update_song song title (Some content) folder_id author capo
           transpose_semitones = Err msg
         <-> create_song title' content folder_id' author' capo' transpose'
               user_id' = Err msg).
Proof.
  intros Hne.
  assert (T : truthy (Some content) = true)
    by (destruct content; [congruence|reflexivity]).
  unfold update_song, create_song. rewrite T. cbn [the].
  destruct (clean_and_check content) as [cleaned|m]; cbn [bind].
  - split.
    + intros s v H.
      exists (mk_SongVersion (song_content_chordpro s) (song_capo s)
                (song_transpose_semitones s)).
      injection H as <- _.
      rewrite inject_metadata_res_artist_falsy, capo_or_zero.
      destruct song as [t0 c0 f0 a0 k0 tr0 u0].
      destruct title as [[|x t]|], folder_id, author, capo,
        transpose_semitones; reflexivity.
    + intros msg title' folder_id' author' capo' transpose' user_id'.
      split; discriminate.
  - split.
    + intros s v H. discriminate H.
    + intros msg title' folder_id' author' capo' transpose' user_id'.
      split; intros H; apply Err_inj in H; now subst.
Qed.

Lemma update_song_as_created_witness :
  exists v',
    create_song "New" ("[G]la" ++ [CR; NL] ++ "la  ") None
      (Some ("me" : str)) 2 0 None
    = Ok (mk_Song "New"
            ("{title:New}" ++ [NL] ++ "{artist:me}" ++ [NL] ++ "{capo:2}"
             ++ [NL; NL] ++ "[G]la" ++ [NL] ++ "la")
            None (Some ("me" : str)) 2 0 None, v').
Proof.
  apply (proj1 (update_song_as_created
                  (mk_Song "Old" "x" None (Some ("me" : str)) 2 0 None)
                  (Some ("New" : str)) ("[G]la" ++ [CR; NL] ++ "la  ")
                  None None None None ltac:(discriminate))
           (mk_Song "New"
              ("{title:New}" ++ [NL] ++ "{artist:me}" ++ [NL] ++ "{capo:2}"
               ++ [NL; NL] ++ "[G]la" ++ [NL] ++ "la")
              None (Some ("me" : str)) 2 0 None)
           (Some (mk_SongVersion "x" 2 0))).
  reflexivity.
Defined.

Lemma inject_metadata_empty t a c k :
  inject_metadata t a c k []
  = join [NL] (new_metadata t a c k found_none ++ [[]]).
Proof.
  unfold inject_metadata, inject_lines.
  change (classify t a c k []) with (@nil str, [@nil ascii], found_none).
  cbv iota beta. unfold needs_separator.
  change (existsb (fun line => nonempty (strip line)) [[]]) with false.
  rewrite andb_false_r. now rewrite app_nil_r.
Qed.

Lemma try_inject_empty t a (n : Z) :
  try_inject [] (inject_metadata_res t a (Some n) None [])
  = if (int_max_str_digits <? digits_of n)%nat then []
    else join [NL] (new_metadata t a (Some n) None found_none ++ [[]]).
Proof.
  rewrite inject_metadata_res_spec. unfold format_int.
  destruct (int_max_str_digits <? digits_of n)%nat; cbn [bind try_inject];
    [reflexivity|apply inject_metadata_empty].
Qed.

(** X16. [update_song] does not check an empty content: given the empty
    string it never raises and saves no version.  It stores the header
    lines of the title, author and capo that the song has after the
    update, each followed by a line feed; when the capo has more than
    4300 digits the merge raises, the error is caught and the empty
    content is stored as it is. *)
Theorem update_song_empty_content (song : Song) (title : option str)
    (folder_id : option Z) (author : option str)
    (capo transpose_semitones : option Z) :
  exists s,
    update_song song title (Some []) folder_id author capo
      transpose_semitones = Ok (s, None)
    /\ song_content_chordpro s
       = if (int_max_str_digits <? digits_of (song_capo s))%nat then []
         else join [NL]
                (new_metadata (Some (song_title s)) (song_author s)
                   (Some (song_capo s)) None found_none ++ [[]]).
Proof.
  unfold update_song. cbn [truthy andb the bind].
  eexists. split; [reflexivity|].
  destruct song as [t0 c0 f0 a0 k0 tr0 u0].
  destruct title as [[|x t]|], folder_id, author, capo,
    transpose_semitones; cbn -[inject_metadata_res digits_of new_metadata
                               int_max_str_digits Nat.ltb join];
    apply try_inject_empty.
Qed.

(** X17. Restoring the version that an update saved undoes the update of
    the content, the capo and the transposition; the title, the author
    and the folder stay as the update left them. *)
Theorem update_song_then_restore (song : Song) (title content : option str)
    (folder_id : option Z) (author : option str)
    (capo transpose_semitones : option Z) (s : Song) (v : SongVersion) :
  update_song song title content folder_id author capo transpose_semitones
  = Ok (s, Some v) ->
  let restored := fst (restore_version s v) in
  song_content_chordpro restored = song_content_chordpro song
  /\ song_capo restored = song_capo song
  /\ song_transpose_semitones restored = song_transpose_semitones song
  /\ song_title restored = song_title s
  /\ song_author restored = song_author s
  /\ song_folder_id restored = song_folder_id s.
Proof.
  unfold update_song.
  destruct (truthy content
            && negb (str_eqb (the content) (song_content_chordpro song)));
    [|destruct (if truthy content then _ else _); discriminate].
  destruct (if truthy content then _ else _) as [c|m]; [|discriminate].
  cbn [bind]. intros H. injection H as <- <-.
  destruct song as [t0 c0 f0 a0 k0 tr0 u0].
  destruct title, c, folder_id, author, capo, transpose_semitones;
    repeat split; reflexivity.
Qed.

Lemma update_song_then_restore_witness :
  song_content_chordpro
    (fst (restore_version
            (mk_Song "Old"
               ("{title:Old}" ++ [NL] ++ "{capo:5}" ++ [NL; NL] ++ "la")
               None None 5 0 None)
            (mk_SongVersion "x" 2 1)))
  = "x".
Proof.
  apply (update_song_then_restore
           (mk_Song "Old" "x" None None 2 1 None)
           None (Some ("la" : str)) None None (Some 5%Z) (Some 0%Z)).
  reflexivity.
Defined.

(** X18. A restore can be undone: restoring the version that
    [restore_version] saved gives the song as it was, and saves the
    version that had been restored. *)
Theorem restore_version_undone (song : Song) (version : SongVersion) :
  restore_version (fst (restore_version song version))
                  (snd (restore_version song version))
  = (song, version).
Proof. destruct song, version. reflexivity. Qed.

(** ** Reading back what the merge wrote *)

Lemma existsb_closing (r : str) :
  existsb (Ascii.eqb "}") r = true <-> In "}"%char r.
Proof.
  rewrite existsb_exists. split.
  - intros [x [Hx E]]. apply Ascii.eqb_eq in E. now subst x.
  - intros H. exists "}"%char. split; [assumption|reflexivity].
Qed.

(** A run that stops inside [s] is the same run when [s] is continued. *)
Lemma span_stops_app p (s t : str) c :
  In c s -> p c = false ->
  exists a d b, span p s = (a, d :: b) /\ span p (s ++ t) = (a, d :: b ++ t).
Proof.
  intros Hin Hc. induction s as [|x s IH]; [destruct Hin|].
  cbn [span app]. destruct (p x) eqn:E.
  - destruct Hin as [->|Hin]; [congruence|].
    destruct (IH Hin) as (a & d & b & -> & ->).
    exists (x :: a), d, b. auto.
  - exists [], x, s. auto.
Qed.

Lemma directive_at_app (r t : str) :
  In "}"%char r ->
  directive_at ("{"%char :: r ++ t)
  = match directive_at ("{"%char :: r) with
    | Some (name, value, rest) => Some (name, value, rest ++ t)
    | None => None
    end.
Proof.
  intros Hin. unfold directive_at.
  change (Ascii.eqb "{" "{") with true. cbv iota.
  destruct (span_stops_app
              (fun x => negb (Ascii.eqb x ":" || Ascii.eqb x "}")) r t
              "}"%char Hin eq_refl) as (a & d & b & E & ->).
  rewrite E. destruct a as [|x a]; [reflexivity|].
  destruct (Ascii.eqb_spec d "}") as [->|Hd]; [reflexivity|].
  assert (Hb : In "}"%char b).
  { pose proof (span_all _ _ _ _ E) as Ha. apply span_app in E. subst r.
    apply in_app_or in Hin. destruct Hin as [Hin|[Hin|Hin]].
    - rewrite forallb_forall in Ha. apply Ha in Hin. discriminate Hin.
    - congruence.
    - assumption. }
  destruct (span_stops_app (fun x => negb (Ascii.eqb x "}")) b t
              "}"%char Hb eq_refl) as (v & e & b' & E' & ->).
  rewrite E'. now destruct (Ascii.eqb e "}").
Qed.

Lemma directive_at_suffix s name value rest :
  directive_at s = Some (name, value, rest) -> exists pre, s = pre ++ rest.
Proof.
  destruct s as [|c r]; simpl; [discriminate|].
  destruct (Ascii.eqb c "{"); [|discriminate].
  destruct (span _ r) as [a b] eqn:E.
  destruct a as [|x a]; [discriminate|].
  destruct b as [|d b]; [discriminate|].
  apply span_app in E. subst r.
  destruct (Ascii.eqb d "}").
  - intros [= <- <- <-]. exists (c :: (x :: a) ++ [d]).
    cbn [app]. now rewrite <- app_assoc.
  - destruct (span _ b) as [v b'] eqn:E'.
    destruct b' as [|e b']; [discriminate|].
    apply span_app in E'. subst b.
    destruct (Ascii.eqb e "}"); [|discriminate].
    intros [= <- <- <-]. exists (c :: (x :: a) ++ d :: v ++ [e]).
    cbn [app]. rewrite <- ?app_assoc. cbn [app]. rewrite <- ?app_assoc.
    reflexivity.
Qed.

Lemma closed_app_r (a b : str) : closed (a ++ b) = true -> closed b = true.
Proof.
  induction a as [|c a IH]; [auto|]. cbn [app closed].
  intros H. apply andb_true_iff in H. now apply IH.
Qed.

Lemma directive_at_not_open c r :
  Ascii.eqb c "{" = false -> directive_at (c :: r) = None.
Proof. intros H. unfold directive_at. now rewrite H. Qed.

(** The scan of a closed line does not depend on what follows the line. *)
Lemma findall_closed_app_bounded (n : nat) :
  forall line t : str, length line <= n -> closed line = true ->
    findall (line ++ t) = findall line ++ findall t.
Proof.
  induction n as [|n IH]; intros line t Hn Hc.
  - destruct line; [reflexivity|simpl in Hn; lia].
  - destruct line as [|c r]; [reflexivity|]. simpl in Hn.
    cbn [closed] in Hc. apply andb_true_iff in Hc. destruct Hc as [Hc Hr].
    cbn [app]. rewrite !findall_cons.
    destruct (Ascii.eqb_spec c "{") as [->|Hne].
    + cbn [negb orb] in Hc. apply existsb_closing in Hc.
      rewrite directive_at_app by assumption.
      destruct (directive_at ("{"%char :: r)) as [[[name value] rest]|] eqn:E.
      * cbn [app]. f_equal.
        pose proof (directive_at_shorter _ _ _ _ E) as Hl. simpl in Hl.
        apply directive_at_suffix in E. destruct E as [pre E].
        apply IH; [lia|].
        apply (closed_app_r pre). rewrite <- E. cbn [closed].
        apply andb_true_iff. split; [|assumption].
        apply existsb_closing in Hc. now rewrite Hc.
      * apply IH; [lia|assumption].
    + assert (E : Ascii.eqb c "{" = false)
        by (destruct (Ascii.eqb_spec c "{"); congruence).
      rewrite !directive_at_not_open by assumption.
      apply IH; [lia|assumption].
Qed.

Lemma findall_join_closed (lines : list str) :
  Forall (fun line => closed line = true) lines ->
  findall (join [NL] lines) = flat_map findall lines.
Proof.
  induction 1 as [|x l Hx Hl IH]; [reflexivity|].
  destruct l as [|y l].
  - cbn [join flat_map]. now rewrite app_nil_r.
  - rewrite join_cons.
    rewrite (findall_closed_app_bounded (length x)) by auto.
    rewrite findall_cons, directive_at_not_open by reflexivity.
    rewrite IH. reflexivity.
Qed.

Lemma closed_end (s : str) : closed (s ++ ["}"%char]) = true.
Proof.
  induction s as [|c s IH]; [reflexivity|].
  cbn [app closed]. rewrite IH, andb_true_r.
  assert (H : existsb (Ascii.eqb "}") (s ++ ["}"%char]) = true).
  { apply existsb_closing. apply in_or_app. right. now left. }
  rewrite H. apply orb_true_r.
Qed.

Lemma directive_line_closed (name : string) value :
  closed (directive_line name value) = true.
Proof.
  unfold directive_line.
  change (list_ascii_of_string "}") with ["}"%char].
  rewrite !app_assoc. apply closed_end.
Qed.

Lemma str_of_Z_nonempty (z : Z) : nonempty (str_of_Z z) = true.
Proof.
  unfold str_of_Z. destruct z as [|p|p]; [reflexivity| |reflexivity].
  cbn [Z.to_int NilEmpty.string_of_int].
  pose proof (DecimalPos.Unsigned.to_uint_nonnil p) as H.
  destruct (Pos.to_uint p); [congruence|reflexivity..].
Qed.

Lemma canonical_closed t a c k f x :
  canonical t a c k f = Some x -> closed x = true.
Proof.
  unfold canonical. destruct f.
  - destruct (truthy t); [|discriminate]. intros [= <-].
    apply directive_line_closed.
  - destruct (truthy a); [|discriminate]. intros [= <-].
    apply directive_line_closed.
  - destruct c; [|discriminate]. intros [= <-].
    apply directive_line_closed.
  - destruct (truthy k); [|discriminate]. intros [= <-].
    apply directive_line_closed.
Qed.

Lemma field_in_line d v (x : str) f :
  In (d, v) (findall x) -> field_of d = Some f -> In f (line_fields x).
Proof.
  intros Hin Hf. unfold line_fields, fields_of. apply in_flat_map.
  exists (d, v). split; [assumption|]. cbn [fst]. rewrite Hf. now left.
Qed.

Lemma field_of_names (F : text_field) d :
  str_in d (field_names F) = true ->
  match F with
  | FTitle => field_of d = Some Title
  | FArtist => field_of d = Some Artist
  | FKey => field_of d = Some Key
  | _ => True
  end.
Proof.
  intros H. apply str_in_In in H.
  destruct F; simpl in H;
    repeat (destruct H as [H|H]; [subst d; try reflexivity; exact I|]);
    contradiction.
Qed.

Section ReadBack.

Variable int_of_str : str -> option Z.

Lemma extract_text_field_value F (ds : list (str * str)) (v0 : str) :
  (exists d, In (d, v0) ds /\ str_in d (field_names F) = true) ->
  (forall d v, In (d, v) ds -> str_in d (field_names F) = true -> v = v0) ->
  field_value F (fold_left (on_extract_directive int_of_str) ds
                   metadata_unset) = Some v0.
Proof.
  intros [d0 [Hin0 Hd0]] Hall.
  destruct (last_named_or_none F ds)
    as [Hnone|(pre & d & v & post & E & Hd & Hpost)].
  - rewrite (Hnone d0 v0 Hin0) in Hd0. discriminate.
  - rewrite E, fold_extract_last by assumption. f_equal.
    apply (Hall d); [|assumption]. rewrite E. apply in_or_app. right.
    now left.
Qed.

Lemma extract_capo_value (ds : list (str * str)) (v0 : str) :
  In ("capo" : str, v0) ds ->
  (forall v, In ("capo" : str, v) ds -> v = v0) ->
  md_capo (fold_left (on_extract_directive int_of_str) ds metadata_unset)
  = Some (capo_of int_of_str v0).
Proof.
  intros Hin0 Hall.
  destruct (last_capo_or_none ds) as [Hnone|(pre & v & post & E & Hpost)].
  - exfalso. now apply (Hnone _ _ Hin0).
  - rewrite E, fold_extract_last_capo by assumption. do 2 f_equal.
    apply Hall. rewrite E. apply in_or_app. right. now left.
Qed.

Variables (title artist : option str) (capo : option Z) (key : option str).

Hypothesis plain_title : plain title.
Hypothesis plain_artist : plain artist.
Hypothesis plain_key : plain key.

Variable content : str.

Hypothesis closed_lines :
  Forall (fun line => closed line = true) (split NL content).
Hypothesis one_field :
  Forall (one_supplied_field title artist capo key) (split NL content).

Lemma merged_lines_closed :
  Forall (fun line => closed line = true)
         (inject_lines title artist capo key content).
Proof.
  pose proof closed_lines as Hc. rewrite Forall_forall in Hc.
  rewrite inject_lines_spec. cbv zeta. rewrite !Forall_app. repeat split.
  - apply Forall_forall. intros x Hx. apply new_line_canonical in Hx.
    destruct Hx as [f [E _]]. eapply canonical_closed; eauto.
  - apply Forall_forall. intros x Hx. apply in_map_iff in Hx.
    destruct Hx as [l [<- Hl]]. apply filter_In in Hl. destruct Hl as [Hl _].
    destruct (rewrite_line_cases title artist capo key l)
      as [->|(f & c & _ & E & ->)]; [auto|].
    eapply canonical_closed; eauto.
  - destruct (needs_separator _ _); repeat constructor.
  - apply Forall_forall. intros x Hx. apply filter_In in Hx. now apply Hc.
Qed.

Lemma findall_merged :
  findall (inject_metadata title artist capo key content)
  = flat_map findall (inject_lines title artist capo key content).
Proof. apply findall_join_closed, merged_lines_closed. Qed.

(** A directive of a supplied field in the merged text is the directive of
    the field's canonical line. *)
Lemma merged_directive d v f c :
  In (d, v) (findall (inject_metadata title artist capo key content)) ->
  field_of d = Some f ->
  canonical title artist capo key f = Some c ->
  In (d, v) (findall c).
Proof.
  intros Hin Hf Hc. rewrite findall_merged in Hin.
  apply in_flat_map in Hin. destruct Hin as [x [Hx Hin]].
  pose proof (field_in_line _ _ _ _ Hin Hf) as Hfx.
  rewrite inject_lines_spec in Hx. cbv zeta in Hx.
  assert (Hcanon : forall g y,
             canonical title artist capo key g = Some y ->
             In f (line_fields y) -> y = c).
  { intros g y Hg Hy.
    rewrite (canonical_fields title artist capo key plain_title
               plain_artist plain_key g y Hg) in Hy.
    destruct Hy as [->|[]]. congruence. }
  apply in_app_or in Hx. destruct Hx as [Hx|Hx];
    [apply in_app_or in Hx; destruct Hx as [Hx|Hx]
    |apply in_app_or in Hx; destruct Hx as [Hx|Hx]].
  - apply new_line_canonical in Hx. destruct Hx as [g [Hg _]].
    now rewrite <- (Hcanon g x Hg Hfx).
  - apply in_map_iff in Hx. destruct Hx as [l [E Hl]].
    destruct (fields_last_supplied title artist capo key (line_fields l))
      as [H|(before & g & after & c' & Eg & Hg & Ha)].
    + rewrite (rewrite_line_unsupplied title artist capo key l H) in E.
      subst l. rewrite (H f Hfx) in Hc. discriminate.
    + rewrite (rewrite_line_last title artist capo key l before g after c'
                 Eg Hg Ha) in E. subst c'.
      now rewrite <- (Hcanon g x Hg Hfx).
  - destruct (needs_separator _ _); [|destruct Hx].
    destruct Hx as [<-|[]]. destruct Hin.
  - apply filter_In in Hx. destruct Hx as [_ Hx].
    unfold is_content_line in Hx.
    rewrite (fields_metadata x f Hfx) in Hx. discriminate.
Qed.

Lemma merged_directive_found f c d v :
  canonical title artist capo key f = Some c ->
  findall c = [(d, v)] ->
  In (d, v) (findall (inject_metadata title artist capo key content)).
Proof.
  intros Hc Hd. rewrite findall_merged, inject_lines_spec. cbv zeta.
  apply in_flat_map. exists c. split; [|rewrite Hd; now left].
  apply in_or_app. left.
  now apply (supplied_line_in_header title artist capo key content f).
Qed.

Lemma merged_text_field F f (name : string) (v : str) :
  (forall d, str_in d (field_names F) = true -> field_of d = Some f) ->
  str_in name (field_names F) = true ->
  canonical title artist capo key f = Some (directive_line name v) ->
  findall (directive_line name v) = [(name : str, v)] ->
  field_value F
    (extract_metadata int_of_str
       (inject_metadata title artist capo key content)) = Some v.
Proof.
  intros Hnames Hname Hc Hd. unfold extract_metadata.
  apply extract_text_field_value.
  - exists name. split; [|assumption].
    eapply merged_directive_found; eauto.
  - intros d v' Hin Hd'.
    pose proof (merged_directive d v' f _ Hin (Hnames d Hd') Hc) as H.
    rewrite Hd in H. destruct H as [[= _ <-]|[]]. reflexivity.
Qed.

(** X19. The extractor reads back what the merge wrote: the metadata of
    the merged text has the supplied title, artist, capo and key, when
    every opening brace of the document has a closing brace after it on
    its line, no line names two of the supplied fields, the values have
    no line feed and no closing brace, and [int] reads the capo back from
    its decimal text. *)
Theorem extract_metadata_of_merged :
  (forall c, capo = Some c -> int_of_str (str_of_Z c) = Some c) ->
  let md :=
    extract_metadata int_of_str
      (inject_metadata title artist capo key content) in
  (forall v, title = Some v -> v <> [] -> md_title md = Some v)
  /\ (forall v, artist = Some v -> v <> [] -> md_artist md = Some v)
  /\ (forall c, capo = Some c -> md_capo md = Some c)
  /\ (forall v, key = Some v -> v <> [] -> md_key md = Some v).
Proof.
  intros Hint md. unfold md. repeat split.
  - intros v E Hv.
    assert (T : truthy title = true)
      by (subst title; destruct v; [congruence|reflexivity]).
    apply (merged_text_field FTitle Title "title" v).
    + intros d Hd. exact (field_of_names FTitle d Hd).
    + reflexivity.
    + unfold canonical. rewrite T. now subst title.
    + apply findall_directive_line; try reflexivity.
      now apply (plain_title v).
  - intros v E Hv.
    assert (T : truthy artist = true)
      by (subst artist; destruct v; [congruence|reflexivity]).
    apply (merged_text_field FArtist Artist "artist" v).
    + intros d Hd. exact (field_of_names FArtist d Hd).
    + reflexivity.
    + unfold canonical. rewrite T. now subst artist.
    + apply findall_directive_line; try reflexivity.
      now apply (plain_artist v).
  - intros c E.
    assert (Hd : findall (directive_line "capo" (str_of_Z c))
                 = [("capo" : str, str_of_Z c)]).
    { apply findall_directive_line; try reflexivity.
      intros H. apply str_of_Z_chars in H. destruct H; discriminate. }
    assert (Hc : canonical title artist capo key Capo
                 = Some (directive_line "capo" (str_of_Z c)))
      by now subst capo.
    unfold extract_metadata.
    rewrite (extract_capo_value _ (str_of_Z c)).
    + unfold capo_of. now rewrite str_of_Z_nonempty, (Hint c E).
    + eapply merged_directive_found; eauto.
    + intros v Hin.
      pose proof (merged_directive _ v Capo _ Hin eq_refl Hc) as H.
      rewrite Hd in H. destruct H as [[= <-]|[]]. reflexivity.
  - intros v E Hv.
    assert (T : truthy key = true)
      by (subst key; destruct v; [congruence|reflexivity]).
    apply (merged_text_field FKey Key "key" v).
    + intros d Hd. exact (field_of_names FKey d Hd).
    + reflexivity.
    + unfold canonical. rewrite T. now subst key.
    + apply findall_directive_line; try reflexivity.
      now apply (plain_key v).
Qed.

End ReadBack.

Lemma extract_metadata_of_merged_witness :
  let md :=
    extract_metadata py_int
      (inject_metadata (Some ("X" : str)) None (Some 2%Z) None
         ("{t:Old}" ++ [NL] ++ "{key:G} {c:intro}" ++ [NL] ++ "la")) in
  md_title md = Some ("X" : str) /\ md_capo md = Some 2%Z.
Proof.
  intros md.
  destruct (extract_metadata_of_merged py_int
              (Some ("X" : str)) None (Some 2%Z) None)
    with (content := "{t:Old}" ++ [NL] ++ "{key:G} {c:intro}" ++ [NL] ++ "la")
    as (Ht & _ & Hc & _).
  - intros v [= <-]. simpl. intuition discriminate.
  - intros v H. discriminate H.
  - intros v H. discriminate H.
  - repeat constructor.
  - repeat constructor; intros f g c c' Hf Hg Ec Ec';
      vm_compute in Hf, Hg; intuition congruence.
  - intros c [= <-]. reflexivity.
  - split.
    + apply (Ht ("X" : str) eq_refl). discriminate.
    + apply (Hc 2%Z eq_refl).
Defined.

(** Without the closing braces the round trip fails: a brace left open
    on a metadata line swallows the title line below it. *)
Example extract_metadata_of_merged_open_brace :
  md_title
    (extract_metadata py_int
       (inject_metadata (Some ("X" : str)) None None None
          ("{key:G} {oops" ++ [NL] ++ "{title:Old}")))
  = None.
Proof. reflexivity. Qed.

(** ** Validating a cleaned text *)

Lemma close_block_number n m kind st :
  stack_of (close_block n kind st) = stack_of (close_block m kind st).
Proof.
  unfold close_block.
  now destruct (is_nil st || negb (str_eqb (last st []) kind)).
Qed.

Lemma on_directive_number n m st d :
  stack_of (on_directive n st d) = stack_of (on_directive m st d).
Proof.
  unfold on_directive.
  repeat match goal with
  | |- context [if ?b then _ else _] => destruct b
  end; try reflexivity; apply close_block_number.
Qed.

Lemma scan_directives_number n m ds :
  forall st,
    stack_of (scan_directives n st ds) = stack_of (scan_directives m st ds).
Proof.
  induction ds as [|[d v] ds IH]; intros st; [reflexivity|].
  cbn [scan_directives].
  pose proof (on_directive_number n m st d) as H.
  destruct (on_directive n st d), (on_directive m st d);
    cbn [stack_of bind] in *; try discriminate; [|reflexivity].
  injection H as <-. apply IH.
Qed.

Lemma scan_line_number n m st line :
  stack_of (scan_line n st line) = stack_of (scan_line m st line).
Proof.
  unfold scan_line.
  pose proof (scan_directives_number n m (findall line) st) as H.
  destruct (scan_directives n st (findall line)),
           (scan_directives m st (findall line));
    cbn [stack_of bind] in *; try discriminate; [|reflexivity].
  injection H as <-. unfold check_brackets.
  now destruct (negb (Nat.eqb (count "[" line) (count "]" line))).
Qed.

Lemma scan_lines_number lines :
  forall k k' st,
    stack_of (scan_lines k st lines) = stack_of (scan_lines k' st lines).
Proof.
  induction lines as [|l lines IH]; intros k k' st; [reflexivity|].
  cbn [scan_lines].
  pose proof (scan_line_number k k' st l) as H.
  destruct (scan_line k st l), (scan_line k' st l);
    cbn [stack_of bind] in *; try discriminate; [|reflexivity].
  injection H as <-. apply IH.
Qed.

(** Empty lines do not count, but for the line numbers. *)
Lemma scan_lines_nonempty lines :
  forall k k' st,
    stack_of (scan_lines k st lines)
    = stack_of (scan_lines k' st (filter nonempty lines)).
Proof.
  induction lines as [|l lines IH]; intros k k' st; [reflexivity|].
  destruct l as [|c l].
  - cbn [filter nonempty]. change (scan_lines k st ([] :: lines))
      with (scan_lines (S k) st lines). apply IH.
  - cbn [filter nonempty scan_lines].
    pose proof (scan_line_number k k' st (c :: l)) as H.
    destruct (scan_line k st (c :: l)), (scan_line k' st (c :: l));
      cbn [stack_of bind] in *; try discriminate; [|reflexivity].
    injection H as <-. apply IH.
Qed.

Lemma directive_at_closes s name value rest :
  directive_at s = Some (name, value, rest) -> In "}"%char s.
Proof.
  destruct s as [|c r]; simpl; [discriminate|].
  destruct (Ascii.eqb c "{"); [|discriminate].
  destruct (span _ r) as [a b] eqn:E.
  destruct a as [|x a]; [discriminate|].
  destruct b as [|d b]; [discriminate|].
  apply span_app in E. subst r.
  destruct (Ascii.eqb_spec d "}") as [->|_].
  - intros _. right. apply in_or_app. right. now left.
  - destruct (span _ b) as [v b'] eqn:E'.
    destruct b' as [|e b']; [discriminate|].
    apply span_app in E'. subst b.
    destruct (Ascii.eqb_spec e "}") as [->|_]; [|discriminate].
    intros _. right. apply in_or_app. right. right.
    apply in_or_app. right. now left.
Qed.

Lemma findall_no_closing (s : str) : ~ In "}"%char s -> findall s = [].
Proof.
  induction s as [|c r IH]; [reflexivity|]. intros H.
  rewrite findall_cons.
  destruct (directive_at (c :: r)) as [[[name value] rest]|] eqn:E.
  - apply directive_at_closes in E. contradiction.
  - apply IH. intros Hr. apply H. now right.
Qed.

(** Text without closing brace after a line adds no directive to it. *)
Lemma findall_tail_bounded (n : nat) :
  forall s w : str, length s <= n -> ~ In "}"%char w ->
    findall (s ++ w) = findall s.
Proof.
  induction n as [|n IH]; intros s w Hn Hw.
  - destruct s; [|simpl in Hn; lia]. now apply findall_no_closing.
  - destruct s as [|c r]; [now apply findall_no_closing|]. simpl in Hn.
    cbn [app]. rewrite !findall_cons.
    destruct (Ascii.eqb_spec c "{") as [->|Hne].
    + destruct (in_dec ascii_dec "}"%char r) as [Hin|Hout].
      * rewrite directive_at_app by assumption.
        destruct (directive_at ("{"%char :: r))
          as [[[name value] rest]|] eqn:E.
        -- f_equal. apply directive_at_shorter in E. simpl in E.
           apply IH; [lia|assumption].
        -- apply IH; [lia|assumption].
      * destruct (directive_at ("{"%char :: r ++ w))
          as [[[name value] rest]|] eqn:E.
        { apply directive_at_closes in E.
          destruct E as [E|E]; [discriminate|].
          apply in_app_or in E. tauto. }
        destruct (directive_at ("{"%char :: r))
          as [[[name value] rest]|] eqn:E'.
        { apply directive_at_closes in E'.
          destruct E' as [E'|E']; [discriminate|contradiction]. }
        apply IH; [lia|assumption].
    + assert (E : Ascii.eqb c "{" = false)
        by (destruct (Ascii.eqb_spec c "{"); congruence).
      rewrite !directive_at_not_open by assumption.
      apply IH; [lia|assumption].
Qed.

Lemma dropwhile_split p (s : str) :
  exists t, s = t ++ dropwhile p s /\ forallb p t = true.
Proof.
  induction s as [|c r IH]; [now exists []|]. simpl.
  destruct (p c) eqn:E.
  - destruct IH as [t [Ht Hp]]. exists (c :: t). simpl.
    rewrite E, Hp. split; [now f_equal|reflexivity].
  - now exists [].
Qed.

Lemma rstrip_split (l : str) :
  exists w, l = rstrip l ++ w /\ forallb isspace w = true.
Proof.
  unfold rstrip. destruct (dropwhile_split isspace (rev l)) as [t [Ht Hp]].
  exists (rev t). split.
  - rewrite <- rev_app_distr, <- Ht. now rewrite rev_involutive.
  - apply forallb_forall. intros c Hc. rewrite forallb_forall in Hp.
    apply Hp. now apply in_rev.
Qed.

Lemma count_blank c (w : str) :
  isspace c = false -> forallb isspace w = true -> count c w = 0.
Proof.
  intros Hc Hw. unfold count. rewrite (filter_none (Ascii.eqb c));
    [reflexivity|].
  intros x Hx. rewrite forallb_forall in Hw.
  destruct (Ascii.eqb_spec c x) as [->|]; [|reflexivity].
  rewrite (Hw x Hx) in Hc. discriminate.
Qed.

Lemma count_rstrip c (l : str) :
  isspace c = false -> count c (rstrip l) = count c l.
Proof.
  intros Hc. destruct (rstrip_split l) as [w [E Hw]].
  rewrite E at 2. unfold count. rewrite filter_app, length_app.
  fold (count c w). rewrite (count_blank c w Hc Hw). lia.
Qed.

Lemma findall_rstrip (l : str) : findall (rstrip l) = findall l.
Proof.
  destruct (rstrip_split l) as [w [E Hw]]. rewrite E at 2.
  symmetry. apply (findall_tail_bounded (length (rstrip l))); [lia|].
  intros H. rewrite forallb_forall in Hw. apply Hw in H. discriminate H.
Qed.

Lemma scan_line_rstrip n st l : scan_line n st (rstrip l) = scan_line n st l.
Proof.
  unfold scan_line, check_brackets.
  now rewrite findall_rstrip, !count_rstrip by reflexivity.
Qed.

Lemma scan_lines_rstrip lines :
  forall k st, scan_lines k st (map rstrip lines) = scan_lines k st lines.
Proof.
  induction lines as [|l lines IH]; intros k st; [reflexivity|].
  cbn [map scan_lines]. rewrite scan_line_rstrip.
  destruct (scan_line k st l); cbn [bind]; [apply IH|reflexivity].
Qed.

Lemma scan_cleaned (content : str) :
  ~ In CR content ->
  stack_of (scan_lines 1 [] (split NL (clean_content content)))
  = stack_of (scan_lines 1 [] (split NL content)).
Proof.
  intros Hcr.
  rewrite (scan_lines_nonempty (split NL (clean_content content)) 1 1).
  assert (E : filter nonempty (split NL (clean_content content))
              = filter nonempty (map rstrip (split NL content))).
  { rewrite clean_content_lines.
    rewrite <- (unify_newlines_fixed content Hcr) at 2.
    rewrite <- clean_lines_text. now destruct (clean_lines content). }
  rewrite E, <- (scan_lines_nonempty (map rstrip (split NL content)) 1 1).
  now rewrite scan_lines_rstrip.
Qed.

Lemma blank_cleaned (content : str) :
  nonempty (strip (clean_content content)) = nonempty (strip content).
Proof.
  destruct (strip content) as [|c r] eqn:E.
  - apply strip_nil, clean_content_blank in E. now rewrite E.
  - destruct (strip (clean_content content)) eqn:E'; [|reflexivity].
    apply strip_nil, blank_of_cleaned_blank, strip_nil in E'. congruence.
Qed.

(** X20. Cleaning does not change the verdict of the validator on a text
    without carriage return: the result is the same, or both results are
    line errors (the line numbers may differ, since cleaning drops empty
    lines). *)
Theorem validate_clean_content (content : str) :
  ~ In CR content ->
  validate (clean_content content) = validate content
  \/ exists rest rest',
       validate content = (false, Some ("Line " ++ rest))
       /\ validate (clean_content content) = (false, Some ("Line " ++ rest')).
Proof.
  intros Hcr.
  pose proof (scan_cleaned content Hcr) as Hs.
  pose proof (blank_cleaned content) as Hb.
  destruct (validate_cases content)
    as [[B ->]|[[B [m [S ->]]]|[B [st [S ->]]]]];
    destruct (validate_cases (clean_content content))
      as [[B' ->]|[[B' [m' [S' ->]]]|[B' [st' [S' ->]]]]];
    try (exfalso; congruence).
  - now left.
  - right.
    destruct (line_error_not_unclosed _ _ _ _ S) as [_ [rest ->]].
    destruct (line_error_not_unclosed _ _ _ _ S') as [_ [rest' ->]].
    now exists rest, rest'.
  - rewrite S, S' in Hs. discriminate Hs.
  - rewrite S, S' in Hs. discriminate Hs.
  - left. rewrite S, S' in Hs. now injection Hs as ->.
Qed.

Lemma validate_clean_content_witness :
  validate (clean_content ("{soc}  " ++ [NL; NL; NL; NL] ++ "[G]la "))
  = validate ("{soc}  " ++ [NL; NL; NL; NL] ++ "[G]la ")
  \/ exists rest rest',
       validate ("{soc}  " ++ [NL; NL; NL; NL] ++ "[G]la ")
       = (false, Some ("Line " ++ rest))
       /\ validate (clean_content ("{soc}  " ++ [NL; NL; NL; NL] ++ "[G]la "))
          = (false, Some ("Line " ++ rest')).
Proof.
  apply validate_clean_content.
  simpl. unfold CR. intuition discriminate.
Defined.

(** ** Documents without blocks *)

Lemma on_directive_other n st d :
  block_name d = false -> on_directive n st d = Ok st.
Proof.
  unfold block_name, on_directive. intros H.
  repeat match goal with
  | |- context [if str_in d ?l then _ else _] =>
      destruct (str_in d l) eqn:?
  end; try reflexivity; exfalso;
  repeat match goal with
  | E : str_in d _ = _ |- _ => rewrite E in H; clear E
  end; rewrite ?orb_true_r in H; discriminate H.
Qed.

Lemma scan_directives_other n st ds :
  (forall d v, In (d, v) ds -> block_name d = false) ->
  scan_directives n st ds = Ok st.
Proof.
  induction ds as [|[d v] ds IH]; intros H; [reflexivity|].
  cbn [scan_directives]. rewrite (on_directive_other n st d).
  - cbn [bind]. apply IH. intros d' v' Hin. apply (H d' v'). now right.
  - apply (H d v). now left.
Qed.

Lemma scan_lines_other lines :
  forall k st,
    (forall line d v, In line lines -> In (d, v) (findall line) ->
                      block_name d = false) ->
    Forall balanced lines ->
    scan_lines k st lines = Ok st.
Proof.
  induction lines as [|l lines IH]; intros k st Hd Hb; [reflexivity|].
  cbn [scan_lines]. unfold scan_line at 1.
  rewrite scan_directives_other
    by (intros d v Hin; apply (Hd l d v); [now left|assumption]).
  cbn [bind]. unfold check_brackets.
  inversion Hb as [|? ? Hl Hrest]; subst. unfold balanced in Hl.
  rewrite Hl, Nat.eqb_refl. cbn [negb bind].
  apply IH; [|assumption].
  intros line d v Hin. apply (Hd line d v). now right.
Qed.

(** X21. For a document without block directives, whatever its other
    directives, known or not, the validator accepts it exactly when it is
    not blank and every line has as many opening as closing brackets. *)
Theorem validate_without_blocks (content : str) :
  (forall line d v, In line (split NL content) -> In (d, v) (findall line) ->
                    block_name d = false) ->
  validate content = (true, None)
  <-> nonempty (strip content) = true
      /\ Forall balanced (split NL content).
Proof.
  intros Hd. split.
  - intros H.
    destruct (validate_cases content)
      as [[B E]|[[B [m [S E]]]|[B [st [S E]]]]];
      rewrite E in H; try discriminate H.
    split; [assumption|]. now apply scan_lines_ok in S.
  - intros [B Hb]. rewrite (validate_scan content B).
    now rewrite (scan_lines_other _ 1 [] Hd Hb).
Qed.

Lemma validate_without_blocks_witness :
  validate ("{title:X}" ++ [NL] ++ "[G]la {unknown:1}") = (true, None)
  <-> nonempty (strip ("{title:X}" ++ [NL] ++ "[G]la {unknown:1}")) = true
      /\ Forall balanced (split NL ("{title:X}" ++ [NL] ++ "[G]la {unknown:1}")).
Proof.
  apply validate_without_blocks.
  intros line d v Hl Hd. vm_compute in Hl.
  destruct Hl as [<-|[<-|[]]]; vm_compute in Hd;
    repeat (destruct Hd as [[= <- <-]|Hd]; [reflexivity|]); destruct Hd.
Defined.
